(** * Lambert solver (universal-variable method): model of
      [src/src/lamberts_solver.cpp] and properties of [LambertSolver::solve].

    A C++ [double] is an IEEE 754 binary64 number: it is modelled by Rocq's
    primitive [float], whose [+ - * /], [sqrt], [abs] and comparisons are the
    correctly rounded binary64 operations (round to nearest, ties to even),
    evaluated in the order in which the C++ expressions parse.  The
    transcendental functions of [<cmath>] are not part of the repository: they
    are the fields of the interface [Libm], over which the solver is
    parameterised.  The progress lines written to [std::cout] / [std::cerr] are
    not part of the result and are left out.

    The test program [src/tests/test_lambert_solver.cpp] ([compare_vectors],
    [run_test], [main]) is modelled in the module [Tests].  The module [Entry]
    lists the arithmetic done on entry of [solve], operation by operation, and
    the module [Call] puts a call of [solve] in its surroundings: the solver
    object it is called on and the stack its locals are allocated on. *)

From Stdlib Require Import Floats ZArith Bool List Lia.
From Stdlib Require Strings.String.

Local Open Scope float_scope.

(* The decimal literals below are those of the source; each denotes the nearest
   binary64 value, as it does for the C++ compiler. *)
#[local] Set Warnings "-inexact-float".

(** ** The [<cmath>] / [<algorithm>] operations used by the solver *)

Module Cmath.

(** The transcendental functions called by the solver. *)
Record Libm : Type := {
  cos   : float -> float;
  sin   : float -> float;
  cosh  : float -> float;
  sinh  : float -> float;
  atan2 : float -> float -> float;
  pow   : float -> float -> float
}.

(** [std::max(a, b)] is [(a < b) ? b : a]. *)
Definition max (a b : float) : float := if a <? b then b else a.

(** [std::min(a, b)] is [(b < a) ? b : a]. *)
Definition min (a b : float) : float := if b <? a then b else a.

End Cmath.

Import Cmath.

(** ** Data *)

Record Vector3 : Type := { x : float; y : float; z : float }.

(** The failures of [solve].  The source throws [std::invalid_argument] for the
    first and [std::runtime_error] for the other three, told apart by their
    message. *)
Inductive error : Type :=
| InvalidInput            (* "Position vectors cannot be zero." *)
| DegenerateGeometry      (* "Cannot compute A." *)
| NumericalDivergence     (* "z exceeded reasonable bounds." *)
| NonConvergence          (* "Lambert solver did not converge after ..." *)
    (F : option float) (z_final : float) (y_final : option float)
    (r1 r2 : Vector3) (tof : float) (is_prograde : bool).

(** What a call produces.  [NoFuel] is not a C++ outcome: it marks a run of the
    model in which an inner [while (y < 0)] loop was still running when the
    fuel given to it ran out. *)
Inductive outcome (A : Type) : Type :=
| Return (a : A)
| Throw (e : error)
| NoFuel.
Arguments Return {A} a.
Arguments Throw {A} e.
Arguments NoFuel {A}.

(** ** Constants *)

Definition PI : float := 3.14159265358979323846.
Definition tolerance : float := 1e-8.
Definition max_iterations : nat := 1000.
Definition damping_factor : float := 0.5.
Definition max_step : float := 10.0.

(** ** Vector algebra *)

Definition norm (v : Vector3) : float :=
  sqrt (v.(x) * v.(x) + v.(y) * v.(y) + v.(z) * v.(z)).

Definition cross (a b : Vector3) : Vector3 :=
  {| x := a.(y) * b.(z) - a.(z) * b.(y);
     y := a.(z) * b.(x) - a.(x) * b.(z);
     z := a.(x) * b.(y) - a.(y) * b.(x) |}.

Definition dot (a b : Vector3) : float :=
  a.(x) * b.(x) + a.(y) * b.(y) + a.(z) * b.(z).

Section Solver.

Variable L : Libm.

(** ** Stumpff functions *)

Definition stumpff_C (z : float) : float :=
  if abs z <? 1e-6 then
    1.0 / 2.0 - z / 24.0 + z * z / 720.0 - z * z * z / 40320.0
  else if 0 <? z then
    (1.0 - cos L (sqrt z)) / z
  else
    (cosh L (sqrt (- z)) - 1.0) / (- z).

Definition stumpff_S (z : float) : float :=
  if abs z <? 1e-6 then
    1.0 / 6.0 - z / 120.0 + z * z / 5040.0 - z * z * z / 362880.0
  else if 0 <? z then
    (sqrt z - sin L (sqrt z)) / pow L z 1.5
  else
    (sinh L (sqrt (- z)) - sqrt (- z)) / pow L (- z) 1.5.

(** ** Geometry (lines 32-66 of [solve]) *)

Definition cos_dtheta_of (r1 r2 : Vector3) : float :=
  let r1_norm := norm r1 in
  let r2_norm := norm r2 in
  let cos_dtheta := dot r1 r2 / (r1_norm * r2_norm) in
  max (-1.0) (min 1.0 cos_dtheta).

(** The condition under which [sin_dtheta = -sin_dtheta] is executed. *)
Definition flips (r1 r2 : Vector3) (is_prograde : bool) : bool :=
  let cross_prod := cross r1 r2 in
  if is_prograde then cross_prod.(z) <? 0 else 0 <=? cross_prod.(z).

Definition sin_dtheta_of (r1 r2 : Vector3) (is_prograde : bool) : float :=
  let r1_norm := norm r1 in
  let r2_norm := norm r2 in
  let sin_dtheta := norm (cross r1 r2) / (r1_norm * r2_norm) in
  if flips r1 r2 is_prograde then - sin_dtheta else sin_dtheta.

Definition dtheta_of (r1 r2 : Vector3) (is_prograde : bool) : float :=
  let dtheta := atan2 L (sin_dtheta_of r1 r2 is_prograde) (cos_dtheta_of r1 r2) in
  if dtheta <? 0 then dtheta + 2 * PI else dtheta.

Definition A_of (r1 r2 : Vector3) (is_prograde : bool) : float :=
  let r1_norm := norm r1 in
  let r2_norm := norm r2 in
  sin_dtheta_of r1 r2 is_prograde
  * sqrt (r1_norm * r2_norm / (1 - cos_dtheta_of r1 r2)).

(** ** The iteration (lines 68-142 of [solve]) *)

(** What the loop reads but never writes. *)
Record problem : Type := {
  r1_norm : float;
  r2_norm : float;
  A       : float;
  mu      : float;
  tof     : float
}.

(** The locals that live across passes of the [while] loop and are read
    after it.  [y] and [F] are declared without an initialiser: [None]
    stands for "not assigned yet".  [C], [S] and [dFdz] are assigned before
    each use inside a pass and are not read after the loop. *)
Record locals : Type := {
  lz        : float;
  ly        : option float;
  lF        : option float;
  iteration : nat
}.

Definition z_low : float := -4 * PI * PI.
Definition z_up  : float := 4 * PI * PI.

(** [y = r1_norm + r2_norm + A * (z * S - 1) / std::sqrt(C)] with
    [C = stumpff_C(z)] and [S = stumpff_S(z)]. *)
Definition y_at (p : problem) (z : float) : float :=
  let C := stumpff_C z in
  let S := stumpff_S z in
  p.(r1_norm) + p.(r2_norm) + p.(A) * (z * S - 1) / sqrt C.

(** The inner loop [while (y < 0) { ... }] of the bracketing repair, with its
    own [z_low], [z_high]; [None] when the fuel runs out first. *)
Fixpoint bracket (p : problem) (fuel : nat) (zlo zhi z y : float)
  : option (float * float) :=
  if y <? 0 then
    match fuel with
    | O => None
    | S fuel' =>
        let z' := (zlo + zhi) / 2 in
        let y' := y_at p z' in
        if z' <? 0 then bracket p fuel' z' zhi z' y'
        else bracket p fuel' zlo z' z' y'
    end
  else Some (z, y).

(** How one pass through the body of the outer [while] ends. *)
Inductive pass_end : Type :=
| Repaired  (l : locals)             (* [continue] after the bracketing *)
| Stepped   (l : locals)             (* fell through to the end of the body *)
| Converged (l : locals) (y : float) (* [converged = true; break] *)
| Blowup                             (* [throw] "z exceeded reasonable bounds." *)
| Hang.                              (* inner loop still running: out of fuel *)

Definition pass (p : problem) (fuel : nat) (l : locals) : pass_end :=
  let iteration := S l.(iteration) in
  let z := l.(lz) in
  let C := stumpff_C z in
  let S := stumpff_S z in
  let y := p.(r1_norm) + p.(r2_norm) + p.(A) * (z * S - 1) / sqrt C in
  if y <? 0 then
    let zlo := z in
    let zhi := if z <? 0 then 0 else z * 2 in
    match bracket p fuel zlo zhi z y with
    | None => Hang
    | Some (z, y) =>
        Repaired {| lz := z; ly := Some y; lF := l.(lF); iteration := iteration |}
    end
  else
    let sqrt_y := sqrt y in
    let F := y * S + p.(A) * sqrt_y - sqrt p.(mu) * p.(tof) in
    if abs F <? tolerance then
      Converged {| lz := z; ly := Some y; lF := Some F; iteration := iteration |} y
    else
      let dFdz := (y * C + p.(A) * S * sqrt_y) / (2.0 * C) in
      let delta_z := damping_factor * F / dFdz in
      let delta_z :=
        if max_step <? abs delta_z
        then (if 0.0 <? delta_z then max_step else - max_step)
        else delta_z in
      let z := z - delta_z in
      if 1e6 <? abs z then Blowup
      else
        let z := max z_low (min z z_up) in
        Stepped {| lz := z; ly := Some y; lF := Some F; iteration := iteration |}.

(** How the outer loop ends. *)
Inductive loop_end : Type :=
| LConverged (l : locals) (y : float)
| LExhausted (l : locals)      (* left with [converged == false] *)
| LBlowup
| LHang.

(** [while (iteration < max_iterations) { ... }]: [budget] is
    [max_iterations - iteration]. *)
Fixpoint loop (p : problem) (fuel : nat) (budget : nat) (l : locals) : loop_end :=
  match budget with
  | O => LExhausted l
  | S budget' =>
      match pass p fuel l with
      | Repaired l' => loop p fuel budget' l'
      | Stepped l'  => loop p fuel budget' l'
      | Converged l' y => LConverged l' y
      | Blowup => LBlowup
      | Hang => LHang
      end
  end.

(** ** Velocity reconstruction (lines 154-172 of [solve]) *)

Definition velocities (p : problem) (r1 r2 : Vector3) (y_ : float)
  : Vector3 * Vector3 :=
  let f := 1 - y_ / p.(r1_norm) in
  let g := p.(A) * sqrt (y_ / p.(mu)) in
  let g_dot := 1 - y_ / p.(r2_norm) in
  let v1 := {| x := (r2.(x) - f * r1.(x)) / g;
               y := (r2.(y) - f * r1.(y)) / g;
               z := (r2.(z) - f * r1.(z)) / g |} in
  let v2 := {| x := (g_dot * r2.(x) - r1.(x)) / g;
               y := (g_dot * r2.(y) - r1.(y)) / g;
               z := (g_dot * r2.(z) - r1.(z)) / g |} in
  (v1, v2).

(** ** [LambertSolver::solve]

    [mu_] is the member [mu] of the solver object; [fuel] bounds each run of
    the inner loop. *)

Definition initial_z (dtheta : float) : float :=
  if PI <? dtheta then -4 * PI * PI else 4 * PI * PI.

Definition problem_of (mu_ : float) (r1 r2 : Vector3) (tof_ : float)
           (is_prograde : bool) : problem :=
  {| r1_norm := norm r1; r2_norm := norm r2;
     A := A_of r1 r2 is_prograde; mu := mu_; tof := tof_ |}.

Definition initial_locals (r1 r2 : Vector3) (is_prograde : bool) : locals :=
  {| lz := initial_z (dtheta_of r1 r2 is_prograde);
     ly := None; lF := None; iteration := 0 |}.

Definition solve (mu_ : float) (fuel : nat) (r1 r2 : Vector3) (tof_ : float)
           (is_prograde : bool) : outcome (Vector3 * Vector3) :=
  let r1_norm := norm r1 in
  let r2_norm := norm r2 in
  if (r1_norm =? 0) || (r2_norm =? 0) then Throw InvalidInput
  else
    let p := problem_of mu_ r1 r2 tof_ is_prograde in
    if p.(A) =? 0 then Throw DegenerateGeometry
    else
      match loop p fuel max_iterations (initial_locals r1 r2 is_prograde) with
      | LConverged _ y => Return (velocities p r1 r2 y)
      | LExhausted l =>
          Throw (NonConvergence l.(lF) l.(lz) l.(ly) r1 r2 tof_ is_prograde)
      | LBlowup => Throw NumericalDivergence
      | LHang => NoFuel
      end.

End Solver.

(** ** Reading the loop pass by pass

    The definitions of this part are not in the source: they name what the
    properties below speak of. *)

Section Runs.

Variable L : Libm.
Variable p : problem.

(** The locals after [k] passes none of which left the loop. *)
Fixpoint run (fuel k : nat) (l : locals) : option locals :=
  match k with
  | O => Some l
  | S k' =>
      match pass L p fuel l with
      | Repaired l' | Stepped l' => run fuel k' l'
      | _ => None
      end
  end.

(** The number of passes, among the first [k], that took the bracketing
    branch. *)
Fixpoint repairs (fuel k : nat) (l : locals) : nat :=
  match k with
  | O => 0
  | S k' =>
      match pass L p fuel l with
      | Repaired l' => S (repairs fuel k' l')
      | Stepped l' => repairs fuel k' l'
      | _ => 0
      end
  end.

(** The number of passes, among the first [k], that reached the Newton
    step. *)
Fixpoint newtons (fuel k : nat) (l : locals) : nat :=
  match k with
  | O => 0
  | S k' =>
      match pass L p fuel l with
      | Repaired l' => newtons fuel k' l'
      | Stepped l' => S (newtons fuel k' l')
      | _ => 0
      end
  end.

(** The residual of the time equation at [z], as a Newton pass computes it:
    [F = y * S + A * sqrt_y - std::sqrt(mu) * tof]. *)
Definition F_at (z : float) : float :=
  let S := stumpff_S L z in
  let y := y_at L p z in
  y * S + p.(A) * sqrt y - sqrt p.(mu) * p.(tof).

(** The step a Newton pass subtracts from [z]: [delta_z], after the limit on
    its size. *)
Definition newton_step (z : float) : float :=
  let C := stumpff_C L z in
  let S := stumpff_S L z in
  let y := p.(r1_norm) + p.(r2_norm) + p.(A) * (z * S - 1) / sqrt C in
  let sqrt_y := sqrt y in
  let F := y * S + p.(A) * sqrt_y - sqrt p.(mu) * p.(tof) in
  let dFdz := (y * C + p.(A) * S * sqrt_y) / (2.0 * C) in
  let delta_z := damping_factor * F / dFdz in
  if max_step <? abs delta_z
  then (if 0.0 <? delta_z then max_step else - max_step)
  else delta_z.

(** One execution of the body of [while (y < 0)], on
    [(z_low, z_high, z, y)]. *)
Definition bracket_step (s : float * float * float * float)
  : float * float * float * float :=
  let '(zlo, zhi, _, _) := s in
  let z' := (zlo + zhi) / 2 in
  let y' := y_at L p z' in
  if z' <? 0 then (z', zhi, z', y') else (zlo, z', z', y').

(** The state after [n] executions of the body, if the loop condition held
    before each of them. *)
Fixpoint bracket_iter (n : nat) (s : float * float * float * float)
  : option (float * float * float * float) :=
  match n with
  | O => Some s
  | S n' =>
      let '(_, _, _, y0) := s in
      if y0 <? 0 then bracket_iter n' (bracket_step s) else None
  end.

Definition bracket_on (fuel : nat) (s : float * float * float * float) :=
  let '(zlo, zhi, z0, y0) := s in bracket L p fuel zlo zhi z0 y0.

End Runs.

(** Componentwise vector operations, in which the specification states the
    reconstruction of the velocities. *)
Definition vsub (a b : Vector3) : Vector3 :=
  {| x := a.(x) - b.(x); y := a.(y) - b.(y); z := a.(z) - b.(z) |}.
Definition vscale (k : float) (a : Vector3) : Vector3 :=
  {| x := k * a.(x); y := k * a.(y); z := k * a.(z) |}.
Definition vdiv (a : Vector3) (g : float) : Vector3 :=
  {| x := a.(x) / g; y := a.(y) / g; z := a.(z) / g |}.

(** ** The value of a binary64 number

    The finite binary64 numbers are the integers [m 2^e] with [e >= -1074]:
    scaled by a fixed power of two they are integers, on which the order and
    the bounds below are stated. *)

Module Binary64.

Local Open Scope Z_scope.

(** Every exponent met below is at least [-T]. *)
Definition T : Z := 1200.

(** [m 2^e], scaled by [2^T]. *)
Definition scaled (m e : Z) : Z := m * 2 ^ (e + T).
Arguments scaled : simpl never.

(** The value, scaled by [2^T], of a zero or a finite number. *)
Definition sval (x : spec_float) : option Z :=
  match x with
  | S754_zero _ => Some 0
  | S754_finite s m e => Some (if s then - scaled (Zpos m) e else scaled (Zpos m) e)
  | _ => None
  end.

(** The round and sticky bits together: something was shifted out. *)
Definition inexact (mrs : shr_record) : bool := shr_r mrs || shr_s mrs.

(** What is asked of a bound: it is the value of a valid number, and it is
    small enough for the rounding not to overflow. *)
Definition is_bound (U : Z) : Prop :=
  exists mb eb, bounded prec emax mb eb = true
                /\ U = scaled (Zpos mb) eb /\ U <= 2 ^ (971 + T).

(** The number 2. *)
Definition SFtwo : spec_float := S754_finite false 4503599627370496 (-51).

(** [a] is a zero or a finite number, of value [v / 2^T]. *)
Definition value (a : float) (v : Z) : Prop := sval (Prim2SF a) = Some v.

(** Powers of two become opaque atoms, for [lia]. *)
Ltac hide_pow :=
  repeat match goal with
         | |- context [2 ^ ?k] =>
             let a := fresh "p" in set (a := 2 ^ k) in *; clearbody a
         | H : context [2 ^ ?k] |- _ =>
             let a := fresh "p" in set (a := 2 ^ k) in *; clearbody a
         end.

Ltac plia := hide_pow; lia.

End Binary64.

(** ** Where [z] lies *)

(** [z] lies in the search interval. *)
Definition clamped (z : float) : Prop :=
  (z_low <=? z) = true /\ (z <=? z_up) = true.

(** [|z| <= 2^K]. *)
Definition small (K : Z) (z : float) : Prop :=
  exists v, Binary64.value z v /\ (Z.abs v <= 2 ^ (K + Binary64.T))%Z.

(** [z] has the sign given and a magnitude of at most [B / 2^T]. *)
Definition inside (neg : bool) (B : Z) (z : float) : Prop :=
  exists v, Binary64.value z v
            /\ (Z.abs v <= B)%Z /\ (if neg then v <= 0 else 0 <= v)%Z.

Definition ok_bound (B : Z) : Prop :=
  (0 <= B <= 2 ^ (900 + Binary64.T))%Z /\ (B = 0%Z \/ Binary64.is_bound B).

(** What holds of the locals at the start of every pass. *)
Definition pass_start (L : Libm) (p : problem) (l : locals) : Prop :=
  clamped (lz l) \/ (small 7 (lz l) /\ (y_at L p (lz l) <? 0) = false).

(** ** A sample [Libm]

    An implementation of the interface in binary64 arithmetic alone (argument
    reduction followed by a truncated Taylor series), accurate to a few units
    in the last place on the arguments the solver passes.  It stands for no
    particular C library; it serves to run the model on concrete inputs. *)

Module SampleLibm.

Import ListNotations.

(** [c0 + z (c1 + z (c2 + ...))]. *)
Fixpoint horner (cs : list float) (z : float) : float :=
  match cs with
  | nil => 0
  | c :: nil => c
  | c :: cs' => c + z * horner cs' z
  end.

(** Nearest integer, for [|x| < 2^51]. *)
Definition rint (x : float) : float :=
  (x + 6755399441055744) - 6755399441055744.

Definition is_neg (x : float) : bool :=
  if x =? 0 then 1 / x <? 0 else x <? 0.

(** pi/2 in three pieces, the first two of 30 bits, and 2/pi. *)
Definition pio2_1 : float := 0x1.921fb54000000p+0.
Definition pio2_2 : float := 0x1.10b4611800000p-30.
Definition pio2_3 : float := 0x1.313198a2e0370p-61.
Definition two_over_pi : float := 0x1.45f306dc9c883p-1.

Definition sin_coeffs : list float :=
  [ -1 / 6; 1 / 120; -1 / 5040; 1 / 362880; -1 / 39916800; 1 / 6227020800;
    -1 / 1307674368000; 1 / 355687428096000; -1 / 121645100408832000 ].

Definition cos_coeffs : list float :=
  [ 1 / 24; -1 / 720; 1 / 40320; -1 / 3628800; 1 / 479001600;
    -1 / 87178291200; 1 / 20922789888000; -1 / 6402373705728000;
    1 / 2432902008176640000 ].

(** Sine and cosine on [|r| <= pi/4]. *)
Definition ksin (r : float) : float :=
  let z := r * r in r + r * (z * horner sin_coeffs z).

Definition kcos (r : float) : float :=
  let z := r * r in 1 - (0.5 * z - z * (z * horner cos_coeffs z)).

(** [x = k pi/2 + r]; returns [(k mod 4, r)]. *)
Definition reduce (x : float) : float * float :=
  let k := rint (x * two_over_pi) in
  let r := ((x - k * pio2_1) - k * pio2_2) - k * pio2_3 in
  (k - 4 * rint (k * 0.25 - 0.375), r).

Definition sin (x : float) : float :=
  if negb (x =? x) || (abs x =? infinity) then nan
  else
    let '(q, r) := reduce x in
    if q =? 0 then ksin r
    else if q =? 1 then kcos r
    else if q =? 2 then - ksin r
    else - kcos r.

Definition cos (x : float) : float :=
  if negb (x =? x) || (abs x =? infinity) then nan
  else
    let '(q, r) := reduce x in
    if q =? 0 then kcos r
    else if q =? 1 then - ksin r
    else if q =? 2 then - kcos r
    else ksin r.

(** [2^k] for an integer [k], by repeated doubling or halving. *)
Fixpoint pow2 (n : nat) (k acc : float) : float :=
  match n with
  | O => acc
  | S n' =>
      if 0 <? k then pow2 n' (k - 1) (acc * 2)
      else if k <? 0 then pow2 n' (k + 1) (acc / 2)
      else acc
  end.

Definition ln2_1 : float := 0x1.62e42fe800000p-1.
Definition ln2_2 : float := 0x1.e8e7bcd5e4f1ep-31.
Definition inv_ln2 : float := 0x1.71547652b82fep+0.

Definition exp_coeffs : list float :=
  [ 1 / 2; 1 / 6; 1 / 24; 1 / 120; 1 / 720; 1 / 5040; 1 / 40320; 1 / 362880;
    1 / 3628800; 1 / 39916800; 1 / 479001600; 1 / 6227020800;
    1 / 87178291200 ].

Definition exp (x : float) : float :=
  if negb (x =? x) then nan
  else if 710 <? x then infinity
  else if x <? -746 then 0
  else
    let k := rint (x * inv_ln2) in
    let r := (x - k * ln2_1) - k * ln2_2 in
    (1 + (r + r * r * horner exp_coeffs r)) * pow2 2200 k 1.

Definition sinh_coeffs : list float :=
  [ 1 / 6; 1 / 120; 1 / 5040; 1 / 362880; 1 / 39916800; 1 / 6227020800;
    1 / 1307674368000; 1 / 355687428096000; 1 / 121645100408832000 ].

Definition sinh (x : float) : float :=
  if abs x <? 1 then
    let z := x * x in x + x * (z * horner sinh_coeffs z)
  else
    let e := exp (abs x) in
    let r := (e - 1 / e) / 2 in
    if x <? 0 then - r else r.

Definition cosh (x : float) : float :=
  let e := exp (abs x) in (e + 1 / e) / 2.

Definition pi : float := 0x1.921fb54442d18p+1.
Definition pio2 : float := 0x1.921fb54442d18p+0.
Definition pio4 : float := 0x1.921fb54442d18p-1.

Definition atan_coeffs : list float :=
  [ -1 / 3; 1 / 5; -1 / 7; 1 / 9; -1 / 11; 1 / 13; -1 / 15; 1 / 17; -1 / 19;
    1 / 21; -1 / 23; 1 / 25; -1 / 27 ].

(** Arc tangent on [|v| <= 0.2]. *)
Definition katan (v : float) : float :=
  let z := v * v in v + v * (z * horner atan_coeffs z).

(** [tan (atan u / 2)]. *)
Definition halve (u : float) : float := u / (1 + sqrt (1 + u * u)).

(** Arc tangent on [0 <= t <= 1]. *)
Definition atan01 (t : float) : float :=
  if 0.4142135623730950 <? t
  then pio4 + 2 * katan (halve ((t - 1) / (t + 1)))
  else 2 * katan (halve t).

Definition atan (t : float) : float :=
  if negb (t =? t) then nan
  else
    let a := abs t in
    let r := if 1 <? a then pio2 - atan01 (1 / a) else atan01 a in
    if is_neg t then - r else r.

Definition atan2 (y x : float) : float :=
  if negb (x =? x) || negb (y =? y) then nan
  else if y =? 0 then
    (if is_neg x then (if is_neg y then - pi else pi) else y)
  else if x =? 0 then (if y <? 0 then - pio2 else pio2)
  else if (abs x =? infinity) && (abs y =? infinity) then
    let r := if x <? 0 then 3 * pio4 else pio4 in
    if y <? 0 then - r else r
  else
    let t := if abs x =? infinity then 0 else atan (abs (y / x)) in
    let t := if x <? 0 then pi - t else t in
    if y <? 0 then - t else t.

(** The solver raises to the power 1.5 only; that is [x * sqrt x].  Other
    exponents are answered by NaN. *)
Definition pow (x y : float) : float :=
  if y =? 1.5 then (if 0 <=? x then x * sqrt x else nan) else nan.

Definition libm : Libm :=
  {| Cmath.cos := cos; Cmath.sin := sin; Cmath.cosh := cosh;
     Cmath.sinh := sinh; Cmath.atan2 := atan2; Cmath.pow := pow |}.

End SampleLibm.

(** ** Inputs: those of the repository's driver and tests, and a few more *)

Module Inputs.

(** [src/src/helloworld.cpp]. *)
Definition mu_earth : float := 398600.4418.
Definition hello_r1 : Vector3 := {| x := 7000.0; y := -12124.0; z := 0.0 |}.
Definition hello_r2 : Vector3 := {| x := 12457.0; y := 0.0; z := 0.0 |}.
Definition hello_tof : float := 3600.0.

(** [src/tests/test_lambert_solver.cpp], test case 2. *)
Definition curtis_r1 : Vector3 := {| x := 5000.0; y := 10000.0; z := 2100.0 |}.
Definition curtis_r2 : Vector3 := {| x := -14600.0; y := 2500.0; z := 7000.0 |}.
Definition curtis_tof : float := 3600.0.

(** The first position of test cases 3 and 4, used as both endpoints. *)
Definition same_r : Vector3 := {| x := 7000.0; y := 0.0; z := 0.0 |}.

(** Two positions one centimetre apart. *)
Definition near_r1 : Vector3 := {| x := 7000.0; y := 0.0; z := 0.0 |}.
Definition near_r2 : Vector3 := {| x := 7000.0; y := 1e-5; z := 0.0 |}.

(** Two positions [1e-12] km apart, the second just below the x axis. *)
Definition grazing_r1 : Vector3 := {| x := 7000.0; y := 0.0; z := 0.0 |}.
Definition grazing_r2 : Vector3 := {| x := 7000.0; y := -1e-12; z := 0.0 |}.

(** A position whose norm, [sqrt 2], is rounded. *)
Definition diagonal_r : Vector3 := {| x := 1.0; y := 1.0; z := 0.0 |}.

(** A position [1e-200] km from the origin: its square is below the least
    positive binary64 number. *)
Definition tiny_r : Vector3 := {| x := 1e-200; y := 0.0; z := 0.0 |}.

End Inputs.

(** ** The entry of [solve], operation by operation

    Lines 32 to 40 of [src/src/lamberts_solver.cpp] once more, this time
    keeping the arithmetic expressions evaluated, in order, next to their
    values: the two calls of [norm], the test of line 35 and, past it, the
    quotient of line 40. *)

Module Entry.

Import ListNotations.

(** Arithmetic expressions over the values read. *)
Inductive expr : Type :=
| Read (c : float)
| Mul (a b : expr)
| Plus (a b : expr)
| Quot (a b : expr)
| Sqrt (a : expr).

Fixpoint eval (e : expr) : float :=
  match e with
  | Read c => c
  | Mul a b => eval a * eval b
  | Plus a b => eval a + eval b
  | Quot a b => eval a / eval b
  | Sqrt a => sqrt (eval a)
  end.

(** The number of divisions in an expression. *)
Fixpoint divisions (e : expr) : nat :=
  match e with
  | Read _ => 0
  | Mul a b | Plus a b => divisions a + divisions b
  | Quot a b => S (divisions a + divisions b)
  | Sqrt a => divisions a
  end.

(** [std::sqrt(v.x * v.x + v.y * v.y + v.z * v.z)]. *)
Definition norm_expr (v : Vector3) : expr :=
  Sqrt (Plus (Plus (Mul (Read v.(x)) (Read v.(x)))
                   (Mul (Read v.(y)) (Read v.(y))))
             (Mul (Read v.(z)) (Read v.(z)))).

(** [a.x * b.x + a.y * b.y + a.z * b.z]. *)
Definition dot_expr (a b : Vector3) : expr :=
  Plus (Plus (Mul (Read a.(x)) (Read b.(x))) (Mul (Read a.(y)) (Read b.(y))))
       (Mul (Read a.(z)) (Read b.(z))).

(** How the entry ends, with what was evaluated until then: at the [throw]
    of line 36, or past line 40. *)
Inductive entry_end : Type :=
| Thrown (evaluated : list expr)
| Passed (evaluated : list expr).

Definition entry (r1 r2 : Vector3) : entry_end :=
  let e1 := norm_expr r1 in
  let r1_norm := eval e1 in
  let e2 := norm_expr r2 in
  let r2_norm := eval e2 in
  if (r1_norm =? 0) || (r2_norm =? 0) then Thrown [e1; e2]
  else
    Passed [e1; e2;
            Quot (dot_expr r1 r2) (Mul (Read r1_norm) (Read r2_norm))].

End Entry.

(** ** A call of [solve] in its surroundings

    [solve] is a member function that is not declared [const], and line 73,
    [double y, C, S, F, dFdz;], declares its locals without initialising
    them.  A call therefore has two inputs besides its arguments: the solver
    object, whose only data member is [mu], and what the stack holds where
    the locals are allocated.  [C], [S] and [dFdz] are assigned in every pass
    before they are read; [y] and [F] are the [option]s of [locals], and the
    message of line 147 reads both. *)

Module Call.

(** What the stack slots of [y] and [F] hold when [solve] is entered. *)
Record stack : Type := { stale_y : float; stale_F : float }.

(** The data members of the class, [include/lamberts_solver.h]. *)
Record LambertSolver : Type := { mu : float }.

(** [LambertSolver::LambertSolver(double mu_) : mu(mu_) {}]. *)
Definition construct (mu_ : float) : LambertSolver := {| mu := mu_ |}.

(** Reading a local: the value assigned to it or, failing that, what its
    slot held. *)
Definition read (stale : float) (local : option float) : float :=
  match local with Some v => v | None => stale end.

(** The outcome as the caller sees it: the message of the non-convergence
    error shows [F] and [y] as read. *)
Definition observe (s : stack) (o : outcome (Vector3 * Vector3))
  : outcome (Vector3 * Vector3) :=
  match o with
  | Throw (NonConvergence F z_final y r1 r2 tof is_prograde) =>
      Throw (NonConvergence (Some (read s.(stale_F) F)) z_final
                            (Some (read s.(stale_y) y)) r1 r2 tof is_prograde)
  | _ => o
  end.

(** [solver.solve(r1, r2, tof, is_prograde)]: the outcome, and the object
    after the call.  No statement of [solve] assigns to [mu]. *)
Definition call (L : Libm) (s : stack) (fuel : nat) (solver : LambertSolver)
           (r1 r2 : Vector3) (tof : float) (is_prograde : bool)
  : outcome (Vector3 * Vector3) * LambertSolver :=
  (observe s (solve L solver.(mu) fuel r1 r2 tof is_prograde), solver).

End Call.

(** ** Special values *)

(** A zero of either sign, or NaN. *)
Definition zero_or_nan (a : float) : Prop := a = 0 \/ a = -0 \/ a = nan.

(** Some coordinate is NaN. *)
Definition has_nan (v : Vector3) : Prop := x v = nan \/ y v = nan \/ z v = nan.

(** NaN or an infinity. *)
Definition not_finite (a : float) : Prop := a = nan \/ abs a = infinity.

(** The same, of the specification-level numbers. *)
Definition SFzero_or_nan (x : spec_float) : Prop :=
  match x with S754_zero _ | S754_nan => True | _ => False end.

Definition SFnot_finite (x : spec_float) : Prop :=
  match x with S754_nan | S754_infinity _ => True | _ => False end.

(** ** The test program, [src/tests/test_lambert_solver.cpp] *)

Module Tests.

Import ListNotations.
Import Strings.String.

(** [compare_vectors(a, b, tolerance)]; the callers leave [tolerance] to its
    default, [1e-3]. *)
Definition compare_vectors (a b : Vector3) (tolerance : float) : bool :=
  (abs (a.(x) - b.(x)) <? tolerance)
  && (abs (a.(y) - b.(y)) <? tolerance)
  && (abs (a.(z) - b.(z)) <? tolerance).

Definition default_tolerance : float := 1e-3.

Record TestCase : Type := {
  r1 : Vector3;
  r2 : Vector3;
  delta_t : float;
  is_prograde : bool;
  expected_v1 : Vector3;
  expected_v2 : Vector3;
  description : String.string
}.

(** [!(a == 0)], true of NaN. *)
Definition nonzero (a : float) : bool := negb (a =? 0).

(** [run_test(test, solver)]: [mu_] is the solver's [mu].  Both [catch]
    clauses return [false]; [None] stands for a call of [solve] that does not
    end. *)
Definition run_test (L : Libm) (mu_ : float) (fuel : nat) (test : TestCase)
  : option bool :=
  match solve L mu_ fuel test.(r1) test.(r2) test.(delta_t) test.(is_prograde) with
  | Return result =>
      if nonzero test.(expected_v1).(x) || nonzero test.(expected_v1).(y)
         || nonzero test.(expected_v1).(z)
      then
        let v1_match := compare_vectors (fst result) test.(expected_v1)
                                        default_tolerance in
        let v2_match := compare_vectors (snd result) test.(expected_v2)
                                        default_tolerance in
        if v1_match && v2_match then Some true else Some false
      else Some true
  | Throw _ => Some false
  | NoFuel => None
  end.

(** The loop of [main] over the test cases, counting in [passed]. *)
Fixpoint run_tests (L : Libm) (mu_ : float) (fuel : nat) (tests : list TestCase)
         (passed : nat) : option nat :=
  match tests with
  | [] => Some passed
  | test :: tests' =>
      match run_test L mu_ fuel test with
      | Some true => run_tests L mu_ fuel tests' (S passed)
      | Some false => run_tests L mu_ fuel tests' passed
      | None => None
      end
  end.

Definition tests : list TestCase :=
  [ {| r1 := {| x := -6045.0; y := -3490.0; z := 2500.0 |};
       r2 := {| x := -3738.0; y := 3000.0; z := 5000.0 |};
       delta_t := 3600.0;
       is_prograde := true;
       expected_v1 := {| x := 3.56736; y := 6.45633; z := 1.69248 |};
       expected_v2 := {| x := 5.69075; y := 3.03686; z := -1.57662 |};
       description := "Vallado Example 5-5"%string |};
    {| r1 := {| x := 5000.0; y := 10000.0; z := 2100.0 |};
       r2 := {| x := -14600.0; y := 2500.0; z := 7000.0 |};
       delta_t := 3600.0;
       is_prograde := true;
       expected_v1 := {| x := -5.9925; y := 1.9254; z := 3.2456 |};
       expected_v2 := {| x := -3.3125; y := -4.1966; z := -0.38529 |};
       description := "Curtis Example 5.2"%string |};
    {| r1 := {| x := 7000.0; y := 0.0; z := 0.0 |};
       r2 := {| x := 0.0; y := 7000.0; z := 0.0 |};
       delta_t := 1800.0;
       is_prograde := true;
       expected_v1 := {| x := -3.3740; y := 5.6713; z := 0.0 |};
       expected_v2 := {| x := -5.6713; y := -3.3740; z := 0.0 |};
       description := "Short transfer (quarter orbit)"%string |};
    {| r1 := {| x := 7000.0; y := 0.0; z := 0.0 |};
       r2 := {| x := 0.0; y := -7000.0; z := 0.0 |};
       delta_t := 5400.0;
       is_prograde := true;
       expected_v1 := {| x := 1.9441; y := 3.2745; z := 0.0 |};
       expected_v2 := {| x := 3.2745; y := -1.9441; z := 0.0 |};
       description := "Long transfer (three-quarter orbit)"%string |} ].

(** [main]: the exit status, [(passed == total) ? 0 : 1]. *)
Definition main (L : Libm) (fuel : nat) : option Z :=
  let mu := 398600.4418 in
  let total := List.length tests in
  match run_tests L mu fuel tests 0 with
  | Some passed => Some (if Nat.eqb passed total then 0%Z else 1%Z)
  | None => None
  end.

End Tests.

(** ** The steps of the bisection *)

(** A gap that [n] steps of the bisection close: each step that moves takes
    at least one unit off the gap [j], and leaves at most [(j + 3) / 2]. *)
Fixpoint gap_bound (n : nat) : Z :=
  match n with
  | O => 0%Z
  | S n' => let g := gap_bound n' in Z.max (g + 1) (2 * g - 3)
  end.

(** ** Proof automation *)

(** An operation with a NaN operand, through its specification. *)
Ltac by_spec spec x :=
  apply Prim2SF_inj; rewrite spec; change (Prim2SF nan) with S754_nan;
  destruct (Prim2SF x); reflexivity.

(** A statement on zeros and NaN, through the specifications of the
    operations; [zero_or_nan_spec] is the lemma that relates [zero_or_nan] to
    [SFzero_or_nan]. *)
Ltac zn_spec zero_or_nan_spec :=
  rewrite !zero_or_nan_spec;
  rewrite ?mul_spec, ?div_spec, ?add_spec, ?sub_spec, ?opp_spec, ?sqrt_spec;
  unfold SF64mul, SF64div, SF64add, SF64sub, SF64sqrt.

(** * Properties *)

(** ** The outer loop as a sequence of passes *)

Section Passes.

Variable L : Libm.
Variable p : problem.

Lemma loop_exhausted_iff fuel budget l l' :
  loop L p fuel budget l = LExhausted l' <-> run L p fuel budget l = Some l'.
Proof.
  revert l; induction budget as [|b IH]; intros l; simpl.
  - split; intros H; inversion H; reflexivity.
  - destruct (pass L p fuel l); try apply IH; split; discriminate.
Qed.

Lemma loop_converged_iff fuel budget l l' yc :
  loop L p fuel budget l = LConverged l' yc <->
  exists k lk, k < budget /\ run L p fuel k l = Some lk
               /\ pass L p fuel lk = Converged l' yc.
Proof.
  revert l; induction budget as [|b IH]; intros l; simpl.
  - split; [discriminate | intros (k & lk & Hk & _); lia].
  - split.
    + destruct (pass L p fuel l) as [l1|l1|l1 y1| |] eqn:E; try discriminate.
      * intros H; apply IH in H; destruct H as (k & lk & Hk & Hr & Hp).
        exists (S k), lk; simpl; rewrite E; repeat split; auto; lia.
      * intros H; apply IH in H; destruct H as (k & lk & Hk & Hr & Hp).
        exists (S k), lk; simpl; rewrite E; repeat split; auto; lia.
      * intros H; inversion H; subst.
        exists O, l; simpl; repeat split; auto; lia.
    + intros (k & lk & Hk & Hr & Hp).
      destruct k as [|k]; simpl in Hr.
      * inversion Hr; subst; rewrite Hp; reflexivity.
      * destruct (pass L p fuel l) as [l1|l1|l1 y1| |] eqn:E; try discriminate;
          apply IH; exists k, lk; repeat split; auto; lia.
Qed.

Lemma run_iteration fuel k l l' :
  run L p fuel k l = Some l' -> iteration l' = (iteration l + k)%nat.
Proof.
  revert l; induction k as [|k IH]; intros l; simpl.
  - intros H; inversion H; lia.
  - unfold pass at 1.
    destruct (_ <? 0).
    + destruct (bracket _ _ _ _ _ _ _) as [[z1 y1]|]; try discriminate.
      intros H; apply IH in H; simpl in H; lia.
    + destruct (abs _ <? tolerance); try discriminate.
      destruct (1e6 <? _); try discriminate.
      intros H; apply IH in H; simpl in H; lia.
Qed.

Lemma pass_iteration fuel l l' :
  pass L p fuel l = Repaired l' \/ pass L p fuel l = Stepped l' ->
  iteration l' = S (iteration l).
Proof.
  unfold pass.
  destruct (_ <? 0).
  - destruct (bracket _ _ _ _ _ _ _) as [[z1 y1]|];
      intros [H|H]; inversion H; reflexivity.
  - destruct (abs _ <? tolerance); [intros [H|H]; discriminate|].
    destruct (1e6 <? _); intros [H|H]; inversion H; reflexivity.
Qed.

(** *** The fuel only matters when it runs out *)

Lemma bracket_fuel_mono fuel fuel' zlo zhi z0 y0 r :
  fuel <= fuel' ->
  bracket L p fuel zlo zhi z0 y0 = Some r ->
  bracket L p fuel' zlo zhi z0 y0 = Some r.
Proof.
  revert fuel' zlo zhi z0 y0; induction fuel as [|f IH]; intros fuel' zlo zhi z0 y0 Hle.
  - simpl. destruct (y0 <? 0) eqn:E; [discriminate|].
    intros H; destruct fuel'; simpl; rewrite E; exact H.
  - destruct fuel' as [|f']; [lia|]. simpl.
    destruct (y0 <? 0); [|auto].
    destruct (_ <? 0); apply IH; lia.
Qed.

Lemma pass_fuel_mono fuel fuel' l :
  fuel <= fuel' -> pass L p fuel l <> Hang ->
  pass L p fuel' l = pass L p fuel l.
Proof.
  intros Hle. unfold pass.
  destruct (_ <? 0); [|reflexivity].
  destruct (bracket L p fuel _ _ _ _) as [r|] eqn:E; [|congruence].
  intros _. rewrite (bracket_fuel_mono _ _ _ _ _ _ _ Hle E). reflexivity.
Qed.

Lemma loop_fuel_mono fuel fuel' budget l :
  fuel <= fuel' -> loop L p fuel budget l <> LHang ->
  loop L p fuel' budget l = loop L p fuel budget l.
Proof.
  intros Hle. revert l; induction budget as [|b IH]; intros l; simpl; [reflexivity|].
  destruct (pass L p fuel l) eqn:E; intros H;
    rewrite (pass_fuel_mono fuel fuel' l Hle) by congruence; rewrite E;
    auto; congruence.
Qed.

(** *** After a repair comes a Newton pass *)

Lemma bracket_exit fuel zlo zhi z0 y0 z1 y1 :
  y0 = y_at L p z0 ->
  bracket L p fuel zlo zhi z0 y0 = Some (z1, y1) ->
  y1 = y_at L p z1 /\ (y1 <? 0) = false.
Proof.
  revert zlo zhi z0 y0; induction fuel as [|f IH]; intros zlo zhi z0 y0 Hy; simpl.
  - destruct (y0 <? 0) eqn:E; [discriminate|].
    intros H; inversion H; subst; auto.
  - destruct (y0 <? 0) eqn:E.
    + destruct ((zlo + zhi) / 2 <? 0); apply IH; reflexivity.
    + intros H; inversion H; subst; auto.
Qed.

Lemma pass_repaired fuel l l' :
  pass L p fuel l = Repaired l' ->
  (y_at L p (lz l') <? 0) = false /\ lF l' = lF l.
Proof.
  unfold pass.
  destruct (_ <? 0) eqn:E.
  - destruct (bracket _ _ _ _ _ _ _) as [[z1 y1]|] eqn:B; [|discriminate].
    intros H; inversion H; subst; simpl.
    apply bracket_exit in B; [|reflexivity].
    destruct B as [-> B]; auto.
  - destruct (abs _ <? tolerance); [discriminate|].
    destruct (1e6 <? _); discriminate.
Qed.

Lemma pass_after_repair fuel l l' l'' :
  pass L p fuel l = Repaired l' -> pass L p fuel l' <> Repaired l''.
Proof.
  intros H; apply pass_repaired in H; destruct H as [H _].
  unfold pass. unfold y_at in H. rewrite H.
  destruct (abs _ <? tolerance); [discriminate|].
  destruct (1e6 <? _); discriminate.
Qed.

Lemma pass_stepped fuel l l' :
  pass L p fuel l = Stepped l' -> exists Fv yv, lF l' = Some Fv /\ ly l' = Some yv.
Proof.
  unfold pass.
  destruct (_ <? 0).
  - destruct (bracket _ _ _ _ _ _ _) as [[z1 y1]|]; discriminate.
  - destruct (abs _ <? tolerance); [discriminate|].
    destruct (1e6 <? _); [discriminate|].
    intros H; inversion H; simpl; eauto.
Qed.

Lemma pass_y fuel l l' :
  pass L p fuel l = Repaired l' \/ pass L p fuel l = Stepped l' ->
  exists yv, ly l' = Some yv.
Proof.
  unfold pass.
  destruct (_ <? 0).
  - destruct (bracket _ _ _ _ _ _ _) as [[z1 y1]|];
      intros [H|H]; inversion H; simpl; eauto.
  - destruct (abs _ <? tolerance); [intros [H|H]; discriminate|].
    destruct (1e6 <? _); intros [H|H]; inversion H; simpl; eauto.
Qed.

Lemma run_snoc fuel k l l' :
  run L p fuel (S k) l = Some l' <->
  exists lk, run L p fuel k l = Some lk
             /\ (pass L p fuel lk = Repaired l' \/ pass L p fuel lk = Stepped l').
Proof.
  revert l; induction k as [|k IH]; intros l.
  - simpl. split.
    + destruct (pass L p fuel l) eqn:E; try discriminate;
        intros H; inversion H; subst; exists l; auto.
    + intros (lk & Hr & [Hp|Hp]); inversion Hr; subst; rewrite Hp; reflexivity.
  - change (run L p fuel (S (S k)) l) with
      (match pass L p fuel l with
       | Repaired l1 | Stepped l1 => run L p fuel (S k) l1
       | _ => None end).
    change (run L p fuel (S k) l) with
      (match pass L p fuel l with
       | Repaired l1 | Stepped l1 => run L p fuel k l1
       | _ => None end).
    destruct (pass L p fuel l); try apply IH;
      (split; [discriminate | intros (lk & Hr & _); discriminate]).
Qed.

(** After two passes or more, [y] and [F] have been assigned. *)
Lemma run_assigned fuel k l l' :
  run L p fuel (S (S k)) l = Some l' ->
  exists Fv yv, lF l' = Some Fv /\ ly l' = Some yv.
Proof.
  intros H. apply run_snoc in H. destruct H as (l1 & H1 & Hp1).
  apply run_snoc in H1. destruct H1 as (l0 & H0 & Hp0).
  destruct Hp1 as [Hp1|Hp1].
  - destruct (pass_y fuel l1 l' (or_introl Hp1)) as [yv Hy].
    destruct Hp0 as [Hp0|Hp0].
    + exfalso. exact (pass_after_repair _ _ _ _ Hp0 Hp1).
    + apply pass_stepped in Hp0. destruct Hp0 as (Fv & _ & HF & _).
      apply pass_repaired in Hp1. destruct Hp1 as [_ HF'].
      exists Fv, yv. rewrite HF'. auto.
  - apply pass_stepped in Hp1. exact Hp1.
Qed.

End Passes.

Lemma run_passes_split L p fuel k l l' :
  run L p fuel k l = Some l' ->
  (repairs L p fuel k l + newtons L p fuel k l = k)%nat.
Proof.
  revert l; induction k as [|k IH]; intros l; simpl; [reflexivity|].
  destruct (pass L p fuel l); try discriminate; intros H; apply IH in H; lia.
Qed.

Lemma loop_unfold L p fuel budget l :
  loop L p fuel (S budget) l
  = match pass L p fuel l with
    | Repaired l' | Stepped l' => loop L p fuel budget l'
    | Converged l' yc => LConverged l' yc
    | Blowup => LBlowup
    | Hang => LHang
    end.
Proof. reflexivity. Qed.

(** ** What [solve] returns and throws *)

Lemma pass_converged_iff L p fuel l l' yc :
  pass L p fuel l = Converged l' yc <->
  (y_at L p (lz l) <? 0) = false
  /\ (abs (F_at L p (lz l)) <? tolerance) = true
  /\ yc = y_at L p (lz l)
  /\ l' = {| lz := lz l; ly := Some yc; lF := Some (F_at L p (lz l));
             iteration := S (iteration l) |}.
Proof.
  unfold pass, F_at, y_at.
  destruct (_ + _ / _ <? 0) eqn:E.
  - destruct (bracket _ _ _ _ _ _ _) as [[z1 y1]|];
      (split; [discriminate | intros (H & _); discriminate]).
  - destruct (abs _ <? tolerance) eqn:T.
    + split.
      * intros H; inversion H; subst; auto.
      * intros (_ & _ & -> & ->); reflexivity.
    + destruct (1e6 <? _);
        (split; [discriminate | intros (_ & H & _); discriminate]).
Qed.

Lemma loop_converged_ly L p fuel budget l l' yc :
  loop L p fuel budget l = LConverged l' yc -> ly l' = Some yc.
Proof.
  intros H. apply loop_converged_iff in H. destruct H as (k & lk & _ & _ & H).
  apply pass_converged_iff in H. destruct H as (_ & _ & _ & ->). reflexivity.
Qed.

(** How [solve] ends, read off the outer loop once both guards are passed. *)
Lemma solve_past_guards L mu_ fuel r1 r2 tof_ is_prograde :
  (norm r1 =? 0) = false -> (norm r2 =? 0) = false ->
  (A_of r1 r2 is_prograde =? 0) = false ->
  solve L mu_ fuel r1 r2 tof_ is_prograde =
  match loop L (problem_of mu_ r1 r2 tof_ is_prograde) fuel max_iterations
             (initial_locals L r1 r2 is_prograde) with
  | LConverged _ yc =>
      Return (velocities (problem_of mu_ r1 r2 tof_ is_prograde) r1 r2 yc)
  | LExhausted l =>
      Throw (NonConvergence l.(lF) l.(lz) l.(ly) r1 r2 tof_ is_prograde)
  | LBlowup => Throw NumericalDivergence
  | LHang => NoFuel
  end.
Proof.
  intros H1 H2 HA. unfold solve. rewrite H1, H2. simpl orb. cbv iota.
  change (A (problem_of mu_ r1 r2 tof_ is_prograde)) with (A_of r1 r2 is_prograde).
  rewrite HA. reflexivity.
Qed.

(** ** Not-a-number operands

    From the specification of the primitive operations ([FloatAxioms]): an
    arithmetic operation with a NaN operand yields NaN, and a comparison with
    a NaN operand is false. *)

Module NaN.

Lemma mul_l x : nan * x = nan.   Proof. by_spec mul_spec x. Qed.
Lemma mul_r x : x * nan = nan.   Proof. by_spec mul_spec x. Qed.
Lemma div_l x : nan / x = nan.   Proof. by_spec div_spec x. Qed.
Lemma div_r x : x / nan = nan.   Proof. by_spec div_spec x. Qed.
Lemma add_l x : nan + x = nan.   Proof. by_spec add_spec x. Qed.
Lemma add_r x : x + nan = nan.   Proof. by_spec add_spec x. Qed.
Lemma sub_l x : nan - x = nan.   Proof. by_spec sub_spec x. Qed.
Lemma sub_r x : x - nan = nan.   Proof. by_spec sub_spec x. Qed.

Lemma sqrt_nan : sqrt nan = nan. Proof. reflexivity. Qed.
Lemma abs_nan : abs nan = nan.   Proof. reflexivity. Qed.

Lemma ltb_l x : (nan <? x) = false.
Proof.
  rewrite ltb_spec. change (Prim2SF nan) with S754_nan.
  destruct (Prim2SF x); reflexivity.
Qed.

Lemma ltb_r x : (x <? nan) = false.
Proof.
  rewrite ltb_spec. change (Prim2SF nan) with S754_nan.
  destruct (Prim2SF x) as [ | |  |[] ? ?]; reflexivity.
Qed.

End NaN.

Create Rewrite HintDb nan.
#[local] Hint Rewrite NaN.mul_l NaN.mul_r NaN.div_l NaN.div_r NaN.add_l NaN.add_r
  NaN.sub_l NaN.sub_r NaN.sqrt_nan NaN.abs_nan NaN.ltb_l NaN.ltb_r : nan.

(** ** The transfer parameter [A] is NaN *)

Section NaNTransfer.

Variable L : Libm.
Variable p : problem.
Hypothesis A_nan : A p = nan.

(** Every pass is then a Newton pass whose step is NaN, and the clamp
    [std::max(z_low, std::min(z, z_up))] sends the NaN to [z_low]. *)
Lemma pass_nan fuel l :
  pass L p fuel l
  = Stepped {| lz := z_low; ly := Some nan; lF := Some nan;
               iteration := S (iteration l) |}.
Proof.
  unfold pass. rewrite A_nan. autorewrite with nan. cbv iota.
  autorewrite with nan. cbv iota.
  change (max_step <? nan) with false. cbv iota.
  autorewrite with nan. cbv iota.
  reflexivity.
Qed.

Lemma loop_nan fuel budget l :
  loop L p fuel (S budget) l
  = LExhausted {| lz := z_low; ly := Some nan; lF := Some nan;
                  iteration := S (iteration l + budget) |}.
Proof.
  revert l; induction budget as [|b IH]; intros l.
  - simpl. rewrite pass_nan. do 2 f_equal. lia.
  - change (loop L p fuel (S (S b)) l)
      with (match pass L p fuel l with
            | Repaired l' | Stepped l' => loop L p fuel (S b) l'
            | Converged l' y => LConverged l' y
            | Blowup => LBlowup
            | Hang => LHang
            end).
    rewrite pass_nan, IH. simpl. do 2 f_equal. lia.
Qed.

End NaNTransfer.

(** ** The inner loop need not exit *)

Section Bracket.

Variable L : Libm.
Variable p : problem.

Lemma bracket_on_step fuel s :
  (let '(_, _, _, y0) := s in y0 <? 0) = true ->
  bracket_on L p (S fuel) s = bracket_on L p fuel (bracket_step L p s).
Proof.
  destruct s as [[[zlo zhi] z0] y0]. intros Hy. simpl.
  rewrite Hy. destruct ((zlo + zhi) / 2 <? 0); reflexivity.
Qed.

(** A state that the body maps to itself, and in which [y < 0], is never
    left. *)
Lemma bracket_stuck s :
  (let '(_, _, _, y0) := s in y0 <? 0) = true ->
  bracket_step L p s = s ->
  forall fuel, bracket_on L p fuel s = None.
Proof.
  intros Hy Hs fuel. induction fuel as [|f IH].
  - destruct s as [[[zlo zhi] z0] y0]. simpl. rewrite Hy. reflexivity.
  - rewrite bracket_on_step by exact Hy. rewrite Hs. exact IH.
Qed.

Lemma bracket_iter_none n s s' :
  bracket_iter L p n s = Some s' ->
  (forall fuel, bracket_on L p fuel s' = None) ->
  forall fuel, bracket_on L p fuel s = None.
Proof.
  revert s; induction n as [|n IH]; intros s; simpl.
  - intros H; inversion H; auto.
  - destruct s as [[[zlo zhi] z0] y0].
    destruct (y0 <? 0) eqn:Hy; [|discriminate].
    intros H Hs' [|fuel].
    + simpl. rewrite Hy. reflexivity.
    + rewrite bracket_on_step by exact Hy. apply (IH _ H Hs').
Qed.

End Bracket.

Lemma pass_hang L p fuel l :
  (y_at L p (lz l) <? 0) = true ->
  (forall fuel',
      bracket_on L p fuel'
        (lz l, (if lz l <? 0 then 0 else lz l * 2), lz l, y_at L p (lz l)) = None) ->
  pass L p fuel l = Hang.
Proof.
  intros Hy Hb. unfold pass. unfold y_at in Hy. rewrite Hy.
  specialize (Hb fuel). unfold bracket_on, y_at in Hb. rewrite Hb. reflexivity.
Qed.

(** ** Comparisons of binary64 numbers *)

Module Order.

Lemma SFcompare_antisym a b :
  SFcompare b a = option_map CompOpp (SFcompare a b).
Proof.
  destruct a as [sa|sa| |sa ma ea], b as [sb|sb| |sb mb eb];
    try destruct sa; try destruct sb; simpl; try reflexivity;
    rewrite (Z.compare_antisym ea eb); destruct (Z.compare ea eb); simpl;
    try reflexivity;
    change (Pos.compare_cont Eq mb ma) with (Pos.compare mb ma);
    change (Pos.compare_cont Eq ma mb) with (Pos.compare ma mb);
    rewrite (Pos.compare_antisym ma mb); destruct (Pos.compare ma mb);
    reflexivity.
Qed.

Lemma ltb_asym a b : (a <? b) = true -> (b <? a) = false.
Proof.
  rewrite !ltb_spec. unfold SFltb.
  rewrite (SFcompare_antisym (Prim2SF a) (Prim2SF b)).
  destruct (SFcompare (Prim2SF a) (Prim2SF b)) as [[]|]; simpl; congruence.
Qed.

(** Above a positive number: the absolute value changes nothing, and the
    number is above zero. *)
Lemma above_positive c a :
  (0 <? c) = true -> (c <? a) = true -> abs a = a /\ (0 <? a) = true.
Proof.
  rewrite !ltb_spec. intros Hc Ha. split.
  - apply Prim2SF_inj. rewrite abs_spec.
    change (Prim2SF 0) with (S754_zero false) in Hc.
    destruct (Prim2SF c) as [sc|sc| |sc mc ec], (Prim2SF a) as [sa|sa| |sa ma ea];
      try destruct sc; try destruct sa; try discriminate; reflexivity.
  - change (Prim2SF 0) with (S754_zero false) in *.
    destruct (Prim2SF c) as [sc|sc| |sc mc ec], (Prim2SF a) as [sa|sa| |sa ma ea];
      try destruct sc; try destruct sa; try discriminate; reflexivity.
Qed.

(** Below a negative number: the absolute value is the opposite, and the
    number is not above zero. *)
Lemma below_negative c a :
  (c <? 0) = true -> (a <? c) = true -> abs a = - a /\ (0 <? a) = false.
Proof.
  rewrite !ltb_spec. intros Hc Ha. split.
  - apply Prim2SF_inj. rewrite abs_spec, opp_spec.
    change (Prim2SF 0) with (S754_zero false) in Hc.
    destruct (Prim2SF c) as [sc|sc| |sc mc ec], (Prim2SF a) as [sa|sa| |sa ma ea];
      try destruct sc; try destruct sa; try discriminate; reflexivity.
  - change (Prim2SF 0) with (S754_zero false) in *.
    destruct (Prim2SF c) as [sc|sc| |sc mc ec], (Prim2SF a) as [sa|sa| |sa ma ea];
      try destruct sc; try destruct sa; try discriminate; reflexivity.
Qed.

Lemma opp_ltb a b : (- a <? - b) = (b <? a).
Proof.
  rewrite !ltb_spec, !opp_spec. unfold SFltb.
  rewrite (SFcompare_antisym (Prim2SF a) (Prim2SF b)).
  destruct (Prim2SF a) as [sa|sa| |sa ma ea], (Prim2SF b) as [sb|sb| |sb mb eb];
    try destruct sa; try destruct sb; simpl; try reflexivity;
    destruct (Z.compare ea eb); simpl; try reflexivity;
    destruct (Pos.compare_cont Eq ma mb); reflexivity.
Qed.

End Order.

(** ** Bounds that survive rounding

    The result of an addition, a subtraction, a halving or a doubling is the
    rounding of the exact result; rounding to nearest is monotone, so it never
    carries a result past a representable bound of the exact one. *)

Module Binary64Facts.

Import Binary64.
Local Open Scope Z_scope.

Lemma digits2_pos_bounds m :
  2 ^ (Zpos (digits2_pos m) - 1) <= Zpos m < 2 ^ Zpos (digits2_pos m).
Proof.
  induction m as [m IH|m IH|]; simpl digits2_pos;
    [rewrite Pos2Z.inj_succ; change (Zpos m~1) with (2 * Zpos m + 1)
    |rewrite Pos2Z.inj_succ; change (Zpos m~0) with (2 * Zpos m)
    |vm_compute; split; congruence];
    replace (Z.succ (Zpos (digits2_pos m)) - 1)
      with (Z.succ (Zpos (digits2_pos m) - 1)) by (clear; lia);
    rewrite !Z.pow_succ_r by (clear; lia); plia.
Qed.

Lemma pow2_pos k : 0 <= k -> 0 < 2 ^ k.
Proof. intros. apply Z.pow_pos_nonneg; lia. Qed.

Lemma pow2_le a b : 0 <= a <= b -> 2 ^ a <= 2 ^ b.
Proof. intros. apply Z.pow_le_mono_r; lia. Qed.

Lemma pow2_add a b : 0 <= a -> 0 <= b -> 2 ^ (a + b) = 2 ^ a * 2 ^ b.
Proof. intros. apply Z.pow_add_r; lia. Qed.

(** What validity says of a finite number. *)
Lemma bounded_inv m e :
  bounded prec emax m e = true ->
  -1074 <= e <= 971 /\ Zpos m < 2 ^ 53 /\ (-1074 < e -> 2 ^ 52 <= Zpos m).
Proof.
  unfold bounded, canonical_mantissa, fexp, SpecFloat.emin, prec, emax.
  rewrite andb_true_iff, Z.eqb_eq, Z.leb_le. intros [Hc He].
  pose proof (digits2_pos_bounds m) as [Hlo Hhi].
  set (d := Zpos (digits2_pos m)) in *.
  assert (Hd : d <= 53) by lia.
  split; [lia|]. split.
  - apply Z.lt_le_trans with (1 := Hhi). apply pow2_le. lia.
  - intros He'. assert (d = 53) by lia. subst d.
    replace 52 with (Zpos (digits2_pos m) - 1) by lia. exact Hlo.
Qed.

Lemma scaled_pos m e : 0 < m -> -T <= e -> 0 < scaled m e.
Proof.
  intros. unfold scaled. apply Z.mul_pos_pos; [lia|]. apply pow2_pos. lia.
Qed.

(** On valid numbers of one sign the order is that of the values. *)
Lemma compare_scaled m1 e1 m2 e2 :
  bounded prec emax m1 e1 = true -> bounded prec emax m2 e2 = true ->
  match Z.compare e1 e2 with
  | Lt => Lt
  | Gt => Gt
  | Eq => Pos.compare_cont Eq m1 m2
  end = Z.compare (scaled (Zpos m1) e1) (scaled (Zpos m2) e2).
Proof.
  intros H1 H2.
  destruct (bounded_inv _ _ H1) as (He1 & Hm1 & Hn1).
  destruct (bounded_inv _ _ H2) as (He2 & Hm2 & Hn2).
  assert (HT : T = 1200) by reflexivity.
  assert (Hlt : forall ma ea mb eb,
             -1074 <= ea -> ea < eb -> Zpos ma < 2 ^ 53 -> 2 ^ 52 <= Zpos mb ->
             scaled (Zpos ma) ea < scaled (Zpos mb) eb).
  { intros ma ea mb eb Hea Hlt Hma Hmb. unfold scaled.
    apply Z.lt_le_trans with (2 ^ 53 * 2 ^ (ea + T)).
    - apply Z.mul_lt_mono_pos_r; [apply pow2_pos; lia | exact Hma].
    - apply Z.le_trans with (2 ^ 52 * 2 ^ (eb + T)).
      + rewrite <- !pow2_add by lia. apply pow2_le. lia.
      + apply Z.mul_le_mono_nonneg_r; [apply Z.lt_le_incl, pow2_pos; lia | exact Hmb]. }
  destruct (Z.compare_spec e1 e2) as [->|Hlt12|Hgt12].
  - change (Pos.compare_cont Eq m1 m2) with (Z.compare (Zpos m1) (Zpos m2)).
    unfold scaled. apply Zmult_compare_compat_r.
    apply Z.lt_gt, pow2_pos. lia.
  - symmetry. apply Z.compare_lt_iff. apply Hlt; lia.
  - symmetry. apply Z.compare_gt_iff. apply Hlt; lia.
Qed.

Lemma SFcompare_sval x y vx vy :
  valid_binary x = true -> valid_binary y = true ->
  sval x = Some vx -> sval y = Some vy ->
  SFcompare x y = Some (Z.compare vx vy).
Proof.
  destruct x as [sx|sx| |sx mx ex], y as [sy|sy| |sy my ey]; simpl;
    intros Hx Hy Ex Ey; try discriminate; inversion Ex; inversion Ey; subst; clear Ex Ey.
  - reflexivity.
  - destruct (bounded_inv _ _ Hy) as (He & _).
    pose proof (scaled_pos (Zpos my) ey ltac:(lia) ltac:(unfold T; lia)).
    destruct sy; f_equal; symmetry; [apply Z.compare_gt_iff|apply Z.compare_lt_iff]; lia.
  - destruct (bounded_inv _ _ Hx) as (He & _).
    pose proof (scaled_pos (Zpos mx) ex ltac:(lia) ltac:(unfold T; lia)).
    destruct sx; f_equal; symmetry; [apply Z.compare_lt_iff|apply Z.compare_gt_iff]; lia.
  - destruct (bounded_inv _ _ Hx) as (Hex & _).
    destruct (bounded_inv _ _ Hy) as (Hey & _).
    pose proof (scaled_pos (Zpos mx) ex ltac:(lia) ltac:(unfold T; lia)).
    pose proof (scaled_pos (Zpos my) ey ltac:(lia) ltac:(unfold T; lia)).
    pose proof (compare_scaled mx ex my ey Hx Hy) as Hc.
    destruct sx, sy; f_equal.
    + rewrite Z.compare_opp, <- (compare_scaled my ey mx ex Hy Hx).
      rewrite (Z.compare_antisym ex ey).
      destruct (Z.compare ex ey); simpl; try reflexivity.
      change (Pos.compare_cont Eq my mx) with (Pos.compare my mx).
      change (Pos.compare_cont Eq mx my) with (Pos.compare mx my).
      rewrite (Pos.compare_antisym mx my). reflexivity.
    + symmetry. apply Z.compare_lt_iff. lia.
    + symmetry. apply Z.compare_gt_iff. lia.
    + exact Hc.
Qed.

(** *** Shifting a mantissa right *)

Lemma iter_pos_nat {A : Type} (f : A -> A) p x :
  SpecFloat.iter_pos f p x = Nat.iter (Pos.to_nat p) f x.
Proof.
  revert x; induction p as [p IH|p IH|]; intros x; simpl SpecFloat.iter_pos.
  - rewrite !IH, Pos2Nat.inj_xI, Nat.iter_succ_r.
    replace (2 * Pos.to_nat p)%nat with (Pos.to_nat p + Pos.to_nat p)%nat by lia.
    rewrite Nat.iter_add. reflexivity.
  - rewrite !IH, Pos2Nat.inj_xO.
    replace (2 * Pos.to_nat p)%nat with (Pos.to_nat p + Pos.to_nat p)%nat by lia.
    rewrite Nat.iter_add. reflexivity.
  - reflexivity.
Qed.


Lemma shr_1_spec mrs :
  0 <= shr_m mrs ->
  shr_m (shr_1 mrs) = shr_m mrs / 2
  /\ inexact (shr_1 mrs) = Z.odd (shr_m mrs) || inexact mrs.
Proof.
  destruct mrs as [m r s]. unfold inexact. simpl shr_m. intros Hm.
  rewrite <- Z.div2_div.
  destruct m as [|[q|q|]|q]; try lia; simpl; split; try reflexivity;
    destruct r, s; reflexivity.
Qed.

Lemma odd_div_pow2 m n :
  0 <= n -> Z.odd (m / 2 ^ n) = true -> m mod 2 ^ (n + 1) <> 0.
Proof.
  intros Hn Ho Hz.
  apply Z.mod_divide in Hz; [|apply Z.neq_sym, Z.lt_neq, pow2_pos; lia].
  destruct Hz as [k ->].
  rewrite pow2_add in Ho by lia. change (2 ^ 1) with 2 in Ho.
  replace (k * (2 ^ n * 2)) with (k * 2 * 2 ^ n) in Ho by ring.
  rewrite Z.div_mul in Ho by (apply Z.neq_sym, Z.lt_neq, pow2_pos; lia).
  rewrite Z.odd_mul in Ho. simpl in Ho. rewrite andb_false_r in Ho. discriminate.
Qed.

Lemma mod_pow2_succ m n :
  0 <= n -> m mod 2 ^ n <> 0 -> m mod 2 ^ (n + 1) <> 0.
Proof.
  intros Hn Hm Hz. apply Hm.
  apply Z.mod_divide in Hz; [|apply Z.neq_sym, Z.lt_neq, pow2_pos; lia].
  apply Z.mod_divide; [apply Z.neq_sym, Z.lt_neq, pow2_pos; lia|].
  apply Z.divide_trans with (2 := Hz).
  rewrite pow2_add by lia. apply Z.divide_factor_l.
Qed.

Lemma shr_nat n mrs :
  0 <= shr_m mrs ->
  shr_m (Nat.iter n shr_1 mrs) = shr_m mrs / 2 ^ Z.of_nat n
  /\ (inexact (Nat.iter n shr_1 mrs) = true ->
      inexact mrs = true \/ shr_m mrs mod 2 ^ Z.of_nat n <> 0).
Proof.
  intros Hm. induction n as [|n [IHm IHi]].
  - simpl. rewrite Z.div_1_r. auto.
  - rewrite Nat.iter_succ.
    assert (H0 : 0 <= shr_m (Nat.iter n shr_1 mrs)).
    { rewrite IHm. apply Z.div_pos; [exact Hm | apply pow2_pos; lia]. }
    destruct (shr_1_spec _ H0) as [Em Ei].
    rewrite Nat2Z.inj_succ. unfold Z.succ. split.
    + rewrite Em, IHm, Z.div_div by (try apply Z.neq_sym, Z.lt_neq, pow2_pos; lia).
      rewrite pow2_add by lia. reflexivity.
    + rewrite Ei, orb_true_iff. intros [Ho|Hi].
      * right. rewrite IHm in Ho. apply odd_div_pow2; [lia | exact Ho].
      * destruct (IHi Hi) as [H|H]; [left; exact H|].
        right. apply mod_pow2_succ; [lia | exact H].
Qed.

Lemma shr_spec mrs e n :
  0 <= shr_m mrs ->
  let k := Z.max n 0 in
  snd (shr mrs e n) = e + k
  /\ shr_m (fst (shr mrs e n)) = shr_m mrs / 2 ^ k
  /\ (inexact (fst (shr mrs e n)) = true ->
      inexact mrs = true \/ (0 < n /\ shr_m mrs mod 2 ^ k <> 0)).
Proof.
  intros Hm k. unfold shr. destruct n as [|p|p]; simpl fst; simpl snd.
  - subst k. simpl. rewrite Z.div_1_r. repeat split; auto; lia.
  - subst k. rewrite Z.max_l by lia. rewrite iter_pos_nat.
    destruct (shr_nat (Pos.to_nat p) mrs Hm) as [Em Ei].
    rewrite positive_nat_Z in *. repeat split; auto.
    intros H. destruct (Ei H); auto. right. split; [lia | assumption].
  - subst k. rewrite Z.max_r by lia. simpl. rewrite Z.div_1_r.
    repeat split; auto; lia.
Qed.

Lemma shr_record_of_loc_spec m l :
  shr_m (shr_record_of_loc m l) = m
  /\ (inexact (shr_record_of_loc m l) = true -> l <> loc_Exact).
Proof.
  destruct l as [|[]]; simpl; split; auto; discriminate.
Qed.

Lemma round_nearest_even_cases m mrs :
  round_nearest_even m (loc_of_shr_record mrs) = m
  \/ (inexact mrs = true
      /\ round_nearest_even m (loc_of_shr_record mrs) = m + 1).
Proof.
  destruct mrs as [m' [] []]; unfold inexact; simpl; auto.
  destruct (Z.even m); auto.
Qed.


(** *** Rounding stays below a representable bound *)

Lemma Zdigits2_bounds M :
  0 < M -> 2 ^ (Zdigits2 M - 1) <= M < 2 ^ Zdigits2 M.
Proof.
  destruct M as [|m|m]; try lia. intros _. apply digits2_pos_bounds.
Qed.

Lemma scaled_div_le m k e :
  0 <= m -> 0 <= k -> - T <= e -> scaled (m / 2 ^ k) (e + k) <= scaled m e.
Proof.
  intros Hm Hk He. unfold scaled.
  replace (e + k + T) with (k + (e + T)) by lia.
  rewrite pow2_add by lia.
  pose proof (pow2_pos k Hk) as Pk.
  pose proof (pow2_pos (e + T) ltac:(lia)) as Pe.
  pose proof (Z.mul_div_le m (2 ^ k) Pk) as Hd.
  rewrite Z.mul_assoc. apply Z.mul_le_mono_nonneg_r; [lia|].
  rewrite Z.mul_comm. exact Hd.
Qed.

Lemma scaled_div_lt m k e :
  0 <= m -> 0 <= k -> - T <= e -> m mod 2 ^ k <> 0 ->
  scaled (m / 2 ^ k) (e + k) < scaled m e.
Proof.
  intros Hm Hk He Hr. unfold scaled.
  replace (e + k + T) with (k + (e + T)) by lia.
  rewrite pow2_add by lia.
  pose proof (pow2_pos k Hk) as Pk.
  pose proof (pow2_pos (e + T) ltac:(lia)) as Pe.
  pose proof (Z.div_mod m (2 ^ k) ltac:(lia)) as Hd.
  pose proof (Z.mod_pos_bound m (2 ^ k) Pk) as Hb.
  rewrite Z.mul_assoc. apply Z.mul_lt_mono_pos_r; [exact Pe|].
  rewrite Z.mul_comm. lia.
Qed.

Lemma scaled_le_mono m m' e : - T <= e -> m <= m' -> scaled m e <= scaled m' e.
Proof.
  intros He Hm. unfold scaled.
  apply Z.mul_le_mono_nonneg_r; [apply Z.lt_le_incl, pow2_pos; lia | exact Hm].
Qed.

Lemma scaled_lt_mono m m' e : - T <= e -> m < m' -> scaled m e < scaled m' e.
Proof.
  intros He Hm. unfold scaled.
  apply Z.mul_lt_mono_pos_r; [apply pow2_pos; lia | exact Hm].
Qed.

Lemma scaled_shift m e k :
  - T <= e -> 0 <= k -> scaled m (e + k) = scaled (m * 2 ^ k) e.
Proof.
  intros He Hk. unfold scaled.
  replace (e + k + T) with (k + (e + T)) by lia.
  rewrite pow2_add by lia. ring.
Qed.

(** A valid number strictly above [m 2^e] is at least [(m+1) 2^e], provided
    [m] fills the 53 bits whenever [e] is above the number's own exponent. *)
Lemma representable_succ mb eb m1 e1 :
  bounded prec emax mb eb = true -> - T <= e1 -> 0 <= m1 ->
  (eb < e1 -> 2 ^ 52 <= m1) ->
  scaled m1 e1 < scaled (Zpos mb) eb ->
  scaled (m1 + 1) e1 <= scaled (Zpos mb) eb.
Proof.
  intros Hb He1 Hm1 Hfill Hlt.
  destruct (bounded_inv _ _ Hb) as (Heb & Hmb & _).
  assert (HT : T = 1200) by reflexivity.
  destruct (Z_le_gt_dec e1 eb) as [Hle|Hgt].
  - replace eb with (e1 + (eb - e1)) in * by lia.
    rewrite scaled_shift in * by lia.
    apply scaled_le_mono; [lia|].
    assert (m1 < Zpos mb * 2 ^ (eb - e1)); [|lia].
    unfold scaled in Hlt.
    apply Z.mul_lt_mono_pos_r in Hlt; [exact Hlt | apply pow2_pos; lia].
  - exfalso. specialize (Hfill ltac:(lia)).
    assert (scaled (Zpos mb) eb < scaled m1 e1); [|lia].
    apply Z.lt_le_trans with (scaled (2 ^ 53) eb).
    + apply scaled_lt_mono; lia.
    + apply Z.le_trans with (scaled (2 ^ 52) e1).
      * replace e1 with (eb + (e1 - eb)) by lia.
        rewrite scaled_shift by lia. apply scaled_le_mono; [lia|].
        rewrite <- pow2_add by lia. apply pow2_le. lia.
      * apply scaled_le_mono; lia.
Qed.

Lemma fexp_eq e : fexp prec emax e = Z.max (e - 53) (-1074).
Proof. reflexivity. Qed.

(** The mantissa left by the first shift of [binary_round_aux] fills 53 bits
    when the exponent ends above the smallest one. *)
Lemma shifted_fills M e :
  0 <= M -> 0 < fexp prec emax (Zdigits2 M + e) - e ->
  -1074 < fexp prec emax (Zdigits2 M + e) ->
  2 ^ 52 <= M / 2 ^ (fexp prec emax (Zdigits2 M + e) - e).
Proof.
  rewrite fexp_eq. intros HM Hk Hf.
  assert (Hfe : Z.max (Zdigits2 M + e - 53) (-1074) = Zdigits2 M + e - 53) by lia.
  rewrite Hfe in *.
  replace (Zdigits2 M + e - 53 - e) with (Zdigits2 M - 53) in * by lia.
  assert (HM' : 0 < M) by (destruct M; simpl in *; lia).
  destruct (Zdigits2_bounds M HM') as [Hlo _].
  apply Z.div_le_lower_bound; [apply pow2_pos; lia|].
  rewrite <- pow2_add by lia.
  replace (Zdigits2 M - 53 + 52) with (Zdigits2 M - 1) by lia. exact Hlo.
Qed.

Lemma binary_round_aux_upper sx M e l mb eb :
  0 <= M -> - T <= e ->
  bounded prec emax mb eb = true ->
  scaled (Zpos mb) eb <= 2 ^ (971 + T) ->
  scaled (match l with loc_Exact => M | _ => M + 1 end) e
  <= scaled (Zpos mb) eb ->
  match binary_round_aux prec emax sx M e l with
  | S754_zero s => s = sx
  | S754_finite s m' e' => s = sx /\ scaled (Zpos m') e' <= scaled (Zpos mb) eb
  | _ => False
  end.
Proof.
  intros HM He Hb HU Hle.
  set (U := scaled (Zpos mb) eb) in *.
  assert (HT : T = 1200) by reflexivity.
  unfold binary_round_aux, shr_fexp.
  set (n1 := fexp prec emax (Zdigits2 M + e) - e).
  destruct (shr_record_of_loc_spec M l) as [Rm Ri].
  destruct (shr_spec (shr_record_of_loc M l) e n1 ltac:(lia)) as (E1 & M1 & I1).
  destruct (shr (shr_record_of_loc M l) e n1) as [mrs1 e1].
  simpl fst in *; simpl snd in *. rewrite Rm in *.
  set (k1 := Z.max n1 0) in *.
  assert (Hk1 : 0 <= k1) by lia.
  assert (Hm1 : 0 <= shr_m mrs1).
  { rewrite M1. apply Z.div_pos; [lia | apply pow2_pos; lia]. }
  assert (HMle : scaled M e <= U).
  { apply Z.le_trans with (2 := Hle). apply scaled_le_mono; [lia|].
    destruct l; lia. }
  assert (H1le : scaled (shr_m mrs1) e1 <= scaled M e).
  { rewrite M1, E1. apply scaled_div_le; lia. }
  (* the rounded mantissa *)
  set (m2 := round_nearest_even (shr_m mrs1) (loc_of_shr_record mrs1)).
  assert (H2 : 0 <= m2 /\ scaled m2 e1 <= U).
  { destruct (round_nearest_even_cases (shr_m mrs1) mrs1) as [Eq|[Hi Eq]];
      fold m2 in Eq; rewrite Eq; [split; lia|]. split; [lia|].
    destruct (I1 Hi) as [Hl|[Hn Hr]].
    - (* the location given was already inexact *)
      specialize (Ri Hl).
      assert (HU1 : scaled (M + 1) e <= U) by (destruct l; [congruence|exact Hle]).
      destruct (Z_le_gt_dec n1 0) as [Hn|Hn].
      + replace k1 with 0 in * by lia. rewrite Z.add_0_r in E1.
        change (2 ^ 0) with 1 in M1. rewrite Z.div_1_r in M1.
        rewrite M1, E1. exact HU1.
      + apply representable_succ; try assumption; try lia.
        * intros Hgt. rewrite M1. replace k1 with n1 by lia.
          apply shifted_fills; try lia.
          destruct (bounded_inv _ _ Hb) as (Heb & _). unfold n1 in *. lia.
        * apply Z.le_lt_trans with (scaled M e); [exact H1le|].
          apply Z.lt_le_trans with (2 := HU1). apply scaled_lt_mono; lia.
    - apply representable_succ; try assumption; try lia.
      + intros Hgt. rewrite M1. replace k1 with n1 by lia.
        apply shifted_fills; try lia.
        destruct (bounded_inv _ _ Hb) as (Heb & _). unfold n1 in *. lia.
      + apply Z.lt_le_trans with (scaled M e); [|exact HMle].
        rewrite M1, E1. apply scaled_div_lt; try lia. }
  destruct H2 as [Hm2 H2].
  (* the second shift *)
  set (n2 := fexp prec emax (Zdigits2 m2 + e1) - e1).
  destruct (shr_record_of_loc_spec m2 loc_Exact) as [Rm2 _].
  destruct (shr_spec (shr_record_of_loc m2 loc_Exact) e1 n2 ltac:(lia))
    as (E3 & M3 & _).
  destruct (shr (shr_record_of_loc m2 loc_Exact) e1 n2) as [mrs3 e3].
  simpl fst in *; simpl snd in *. rewrite Rm2 in *.
  assert (H3 : scaled (shr_m mrs3) e3 <= U).
  { apply Z.le_trans with (2 := H2). rewrite M3, E3.
    apply scaled_div_le; lia. }
  assert (Hm3 : 0 <= shr_m mrs3).
  { rewrite M3. apply Z.div_pos; [lia | apply pow2_pos; lia]. }
  destruct (shr_m mrs3) as [|m3|m3]; [reflexivity | | lia].
  destruct (Z.leb_spec e3 (emax - prec)) as [Hov|Hov]; [auto|].
  exfalso. change (emax - prec) with 971 in Hov.
  assert (2 ^ (971 + T) < scaled (Zpos m3) e3); [|lia].
  unfold scaled.
  apply Z.lt_le_trans with (1 * 2 ^ (e3 + T)).
  - rewrite Z.mul_1_l. apply Z.pow_lt_mono_r; lia.
  - apply Z.mul_le_mono_nonneg_r; [apply Z.lt_le_incl, pow2_pos|]; lia.
Qed.


(** *** Sums and differences *)

Lemma pos_iter_xO m d : Zpos (Pos.iter xO m d) = Zpos m * 2 ^ Zpos d.
Proof.
  induction d as [|d IH] using Pos.peano_ind.
  - simpl. change (2 ^ 1) with 2. lia.
  - rewrite Pos.iter_succ, Pos2Z.inj_succ, Z.pow_succ_r by lia.
    change (Zpos (Pos.iter xO m d)~0) with (2 * Zpos (Pos.iter xO m d)).
    rewrite IH. ring.
Qed.

Lemma shl_align_spec mx ex ex' :
  snd (shl_align mx ex ex') = Z.min ex ex'
  /\ Zpos (fst (shl_align mx ex ex'))
     = Zpos mx * 2 ^ (ex - snd (shl_align mx ex ex')).
Proof.
  unfold shl_align. destruct (ex' - ex) as [|d|d] eqn:E; simpl fst; simpl snd.
  - split; [lia|]. rewrite Z.sub_diag. change (2 ^ 0) with 1. lia.
  - split; [lia|]. rewrite Z.sub_diag. change (2 ^ 0) with 1. lia.
  - split; [lia|]. rewrite pos_iter_xO. f_equal. f_equal. lia.
Qed.

Lemma scaled_shl_align mx ex ex' :
  -1074 <= ex -> -1074 <= ex' ->
  scaled (Zpos (fst (shl_align mx ex ex'))) (snd (shl_align mx ex ex'))
  = scaled (Zpos mx) ex.
Proof.
  intros H H'. destruct (shl_align_spec mx ex ex') as [Es Em].
  assert (HT : T = 1200) by reflexivity.
  rewrite Em. set (e1 := snd (shl_align mx ex ex')) in *.
  replace ex with (e1 + (ex - e1)) at 2 by lia.
  rewrite scaled_shift by lia. reflexivity.
Qed.

Lemma binary_round_upper sx mx ex mb eb :
  -1074 <= ex ->
  bounded prec emax mb eb = true ->
  scaled (Zpos mb) eb <= 2 ^ (971 + T) ->
  scaled (Zpos mx) ex <= scaled (Zpos mb) eb ->
  match binary_round prec emax sx mx ex with
  | S754_zero s => s = sx
  | S754_finite s m' e' => s = sx /\ scaled (Zpos m') e' <= scaled (Zpos mb) eb
  | _ => False
  end.
Proof.
  intros Hex Hb HU Hle. unfold binary_round.
  set (e0 := fexp prec emax (Zpos (digits2_pos mx) + ex)).
  assert (He0 : -1074 <= e0) by (unfold e0; rewrite fexp_eq; lia).
  pose proof (scaled_shl_align mx ex e0 Hex He0) as Hs.
  destruct (shl_align_spec mx ex e0) as [Es _].
  destruct (shl_align mx ex e0) as [mz ez]. simpl fst in *; simpl snd in *.
  apply binary_round_aux_upper; try assumption;
    try (unfold T; lia); rewrite Hs; exact Hle.
Qed.


Lemma binary_normalize_upper S e v U :
  -1074 <= e -> is_bound U -> scaled S e = v -> Z.abs v <= U ->
  exists v', sval (binary_normalize prec emax S e false) = Some v'
             /\ Z.abs v' <= U /\ (0 <= v -> 0 <= v') /\ (v <= 0 -> v' <= 0).
Proof.
  intros He (mb & eb & Hb & -> & HU) Hv Hle.
  assert (HT : T = 1200) by reflexivity.
  assert (Hpos : forall m e', -T <= e' -> 0 < scaled (Zpos m) e')
    by (intros; apply scaled_pos; lia).
  destruct S as [|p|p]; simpl binary_normalize.
  - exists 0. unfold scaled in Hv. simpl in Hv. subst v. simpl. repeat split; lia.
  - pose proof (Hpos p e ltac:(lia)) as Hp.
    pose proof (binary_round_upper false p e mb eb He Hb HU ltac:(lia)) as Hr.
    destruct (binary_round prec emax false p e) as [s|s| |s m' e'];
      try contradiction.
    + exists 0. simpl. repeat split; lia.
    + destruct Hr as [-> Hr]. exists (scaled (Zpos m') e'). simpl.
      assert (0 <= scaled (Zpos m') e').
      { unfold scaled. apply Z.mul_nonneg_nonneg; [lia|]. apply Z.pow_nonneg. lia. }
      repeat split; lia.
  - assert (Hn : scaled (Zneg p) e = - scaled (Zpos p) e).
    { unfold scaled. rewrite <- Pos2Z.opp_pos. ring. }
    pose proof (Hpos p e ltac:(lia)) as Hp.
    pose proof (binary_round_upper true p e mb eb He Hb HU ltac:(lia)) as Hr.
    destruct (binary_round prec emax true p e) as [s|s| |s m' e'];
      try contradiction.
    + exists 0. simpl. repeat split; lia.
    + destruct Hr as [-> Hr]. exists (- scaled (Zpos m') e'). simpl.
      assert (0 <= scaled (Zpos m') e').
      { unfold scaled. apply Z.mul_nonneg_nonneg; [lia|]. apply Z.pow_nonneg. lia. }
      repeat split; lia.
Qed.

Lemma scaled_cond_Zopp s m e :
  scaled (cond_Zopp s (Zpos m)) e
  = if s then - scaled (Zpos m) e else scaled (Zpos m) e.
Proof.
  destruct s; simpl cond_Zopp; [|reflexivity].
  unfold scaled. rewrite <- Pos2Z.opp_pos. ring.
Qed.

Lemma scaled_add a b e : scaled (a + b) e = scaled a e + scaled b e.
Proof. unfold scaled. ring. Qed.

Lemma scaled_sub a b e : scaled (a - b) e = scaled a e - scaled b e.
Proof. unfold scaled. ring. Qed.

Lemma scaled_aligned s m e e' :
  -1074 <= e -> -1074 <= e' -> e' <= e ->
  scaled (cond_Zopp s (Zpos (fst (shl_align m e e')))) e'
  = if s then - scaled (Zpos m) e else scaled (Zpos m) e.
Proof.
  intros He He' Hle. rewrite scaled_cond_Zopp.
  pose proof (scaled_shl_align m e e' He He') as Hs.
  destruct (shl_align_spec m e e') as [Es _].
  replace (snd (shl_align m e e')) with e' in Hs by lia.
  rewrite Hs. reflexivity.
Qed.

Lemma SFadd_upper x y vx vy U :
  valid_binary x = true -> valid_binary y = true ->
  sval x = Some vx -> sval y = Some vy ->
  is_bound U -> Z.abs (vx + vy) <= U ->
  exists v, sval (SF64add x y) = Some v
            /\ Z.abs v <= U /\ (0 <= vx + vy -> 0 <= v) /\ (vx + vy <= 0 -> v <= 0).
Proof.
  intros Hx Hy Ex Ey HU Hle.
  destruct x as [sx|sx| |sx mx ex], y as [sy|sy| |sy my ey]; try discriminate;
    simpl in Ex, Ey; inversion Ex; inversion Ey; subst; clear Ex Ey.
  - exists 0. split; [destruct sx, sy; reflexivity|]. repeat split; lia.
  - eexists. split; [reflexivity|]. rewrite Z.add_0_l in *. repeat split; lia.
  - eexists. split; [reflexivity|]. rewrite Z.add_0_r in *. repeat split; lia.
  - simpl in Hx, Hy.
    destruct (bounded_inv _ _ Hx) as (Hex & _).
    destruct (bounded_inv _ _ Hy) as (Hey & _).
    unfold SF64add, SFadd.
    apply binary_normalize_upper; try assumption; try lia.
    rewrite scaled_add, !scaled_aligned by lia. reflexivity.
Qed.

Lemma SFsub_upper x y vx vy U :
  valid_binary x = true -> valid_binary y = true ->
  sval x = Some vx -> sval y = Some vy ->
  is_bound U -> Z.abs (vx - vy) <= U ->
  exists v, sval (SF64sub x y) = Some v
            /\ Z.abs v <= U /\ (0 <= vx - vy -> 0 <= v) /\ (vx - vy <= 0 -> v <= 0).
Proof.
  intros Hx Hy Ex Ey HU Hle.
  destruct x as [sx|sx| |sx mx ex], y as [sy|sy| |sy my ey]; try discriminate;
    simpl in Ex, Ey; inversion Ex; inversion Ey; subst; clear Ex Ey.
  - exists 0. split; [destruct sx, sy; reflexivity|]. repeat split; lia.
  - eexists. split; [reflexivity|]. rewrite Z.sub_0_l in *.
    destruct sy; simpl negb; cbv iota; repeat split; lia.
  - eexists. split; [reflexivity|]. rewrite Z.sub_0_r in *. repeat split; lia.
  - simpl in Hx, Hy.
    destruct (bounded_inv _ _ Hx) as (Hex & _).
    destruct (bounded_inv _ _ Hy) as (Hey & _).
    unfold SF64sub, SFsub.
    apply binary_normalize_upper; try assumption; try lia.
    rewrite scaled_sub, !scaled_aligned by lia. reflexivity.
Qed.


(** *** Doubling and halving *)


Lemma Prim2SF_two : Prim2SF 2%float = SFtwo.
Proof. reflexivity. Qed.

Lemma two52 : Zpos 4503599627370496 = 2 ^ 52.
Proof. reflexivity. Qed.

Lemma pow2_is_bound K : -1000 <= K <= 971 -> is_bound (2 ^ (K + T)).
Proof.
  intros HK. exists 4503599627370496%positive, (K - 52). split; [|split].
  - unfold bounded, canonical_mantissa. rewrite fexp_eq.
    change (Zpos (digits2_pos 4503599627370496)) with 53.
    change (emax - prec) with 971.
    apply andb_true_iff. rewrite Z.eqb_eq, Z.leb_le. lia.
  - unfold scaled. rewrite two52, <- pow2_add by (unfold T; lia).
    f_equal. lia.
  - apply pow2_le. unfold T. lia.
Qed.

Lemma SFmul_two_upper x vx U :
  valid_binary x = true -> sval x = Some vx ->
  is_bound U -> Z.abs (2 * vx) <= U ->
  exists v, sval (SF64mul x SFtwo) = Some v /\ Z.abs v <= U.
Proof.
  intros Hx Ex (mb & eb & Hb & -> & HU) Hle.
  assert (HT : T = 1200) by reflexivity.
  destruct x as [sx|sx| |sx mx ex]; try discriminate;
    simpl in Ex; inversion Ex; subst; clear Ex.
  - exists 0. split; [reflexivity|]. lia.
  - simpl in Hx. destruct (bounded_inv _ _ Hx) as (Hex & _).
    unfold SF64mul, SFmul, SFtwo.
    assert (Hs : scaled (Zpos (mx * 4503599627370496)) (ex + -51)
                 = 2 * scaled (Zpos mx) ex).
    { unfold scaled. rewrite Pos2Z.inj_mul, two52.
      replace (ex + T) with ((ex + -51 + T) + 51) by lia.
      rewrite (pow2_add (ex + -51 + T) 51) by lia.
      change (2 ^ 52) with (2 * 2 ^ 51). ring. }
    assert (Hp : 0 < scaled (Zpos mx) ex) by (apply scaled_pos; lia).
    pose proof (binary_round_aux_upper (xorb sx false)
                  (Zpos (mx * 4503599627370496)) (ex + -51) loc_Exact mb eb
                  ltac:(lia) ltac:(lia) Hb HU) as Hr.
    cbv beta iota in Hr. rewrite Hs in Hr.
    assert (Hle' : 2 * scaled (Zpos mx) ex <= scaled (Zpos mb) eb)
      by (destruct sx; lia).
    specialize (Hr Hle').
    destruct (binary_round_aux prec emax (xorb sx false) _ _ _)
      as [s|s| |s m' e']; try contradiction.
    + exists 0. split; [reflexivity|]. lia.
    + destruct Hr as [_ Hr].
      assert (0 <= scaled (Zpos m') e').
      { unfold scaled. apply Z.mul_nonneg_nonneg; [lia|]. apply Z.pow_nonneg. lia. }
      eexists. split; [reflexivity|]. destruct s; lia.
Qed.

Lemma digits2_pos_le_53 m e :
  bounded prec emax m e = true -> Zpos (digits2_pos m) <= 53.
Proof.
  unfold bounded, canonical_mantissa. rewrite fexp_eq.
  rewrite andb_true_iff, Z.eqb_eq. intros [Hc _]. lia.
Qed.

Lemma SFdiv_two_upper x vx U :
  valid_binary x = true -> sval x = Some vx ->
  is_bound U -> Z.abs vx <= 2 * U ->
  exists v, sval (SF64div x SFtwo) = Some v
            /\ Z.abs v <= U /\ (0 <= vx -> 0 <= v) /\ (vx <= 0 -> v <= 0).
Proof.
  intros Hx Ex (mb & eb & Hb & -> & HUle) Hle.
  set (U := scaled (Zpos mb) eb) in *.
  assert (HT : T = 1200) by reflexivity.
  destruct (bounded_inv _ _ Hb) as (Heb & _).
  assert (HU0 : 0 < U) by (apply scaled_pos; lia).
  destruct x as [sx|sx| |sx mx ex]; try discriminate;
    simpl in Ex; inversion Ex; subst vx; clear Ex.
  - exists 0. split; [reflexivity|]. repeat split; lia.
  - simpl in Hx. destruct (bounded_inv _ _ Hx) as (Hex & _).
    pose proof (digits2_pos_le_53 _ _ Hx) as Hd53.
    assert (Hp : 0 < scaled (Zpos mx) ex) by (apply scaled_pos; lia).
    assert (Hv : scaled (Zpos mx) ex <= 2 * U) by (destruct sx; lia).
    clear Hle.
    unfold SF64div, SFdiv, SFtwo, SFdiv_core_binary.
    change (Zdigits2 (Zpos 4503599627370496)) with 53.
    set (d1 := Zdigits2 (Zpos mx)).
    assert (Hd1 : 1 <= d1 <= 53) by (unfold d1; simpl; lia).
    set (e' := Z.min (fexp prec emax (d1 + ex - (53 + -51))) (ex - -51)).
    set (s := ex - -51 - e').
    assert (Hs : 0 <= s) by (unfold s, e'; lia).
    assert (He' : -1074 <= e') by (unfold e'; rewrite fexp_eq; lia).
    set (m' := match s with
               | Z0 => Zpos mx
               | Zpos _ => Z.shiftl (Zpos mx) s
               | Zneg _ => 0
               end).
    assert (Hm' : m' = Zpos mx * 2 ^ s).
    { unfold m'. generalize Hs. generalize s. intros [|p|p] H0; try lia.
      apply Z.shiftl_mul_pow2. lia. }
    destruct (Z.div_eucl m' (Zpos 4503599627370496)) as [q r] eqn:Eqr.
    assert (Hq : q = m' / 2 ^ 52)
      by (rewrite <- two52; unfold Z.div; rewrite Eqr; reflexivity).
    assert (Hr : r = m' mod 2 ^ 52)
      by (rewrite <- two52; unfold Z.modulo; rewrite Eqr; reflexivity).
    pose proof (Z.div_mod m' (2 ^ 52) ltac:(lia)) as Hdm.
    pose proof (Z.mod_pos_bound m' (2 ^ 52) ltac:(lia)) as Hrb.
    rewrite <- Hq, <- Hr in Hdm. rewrite <- Hr in Hrb.
    assert (Hq0 : 0 <= q).
    { rewrite Hq. apply Z.div_pos; [rewrite Hm'|lia].
      apply Z.mul_nonneg_nonneg; [lia|]. apply Z.pow_nonneg. lia. }
    pose proof (pow2_pos (e' + T) ltac:(lia)) as Pe.
    assert (Hmle : m' * 2 ^ (e' + T) <= 2 ^ 52 * U).
    { rewrite Hm'. rewrite <- Z.mul_assoc, <- pow2_add by lia.
      replace (s + (e' + T)) with (51 + (ex + T)) by (unfold s; lia).
      rewrite (pow2_add 51) by lia. unfold scaled in Hv.
      change (2 ^ 52) with (2 ^ 51 * 2).
      pose proof (pow2_pos 51 ltac:(lia)).
      pose proof (pow2_pos (ex + T) ltac:(lia)).
      nia. }
    pose proof (binary_round_aux_upper (xorb sx false) q e'
                  (new_location (Zpos 4503599627370496) r) mb eb
                  Hq0 ltac:(lia) Hb HUle) as Hres.
    fold U in Hres.
    assert (Hbound :
              scaled (match new_location (Zpos 4503599627370496) r with
                      | loc_Exact => q
                      | _ => q + 1
                      end) e' <= U).
    { unfold new_location. change (Z.even (Zpos 4503599627370496)) with true.
      cbv iota. unfold new_location_even.
      destruct (Z.eqb_spec r 0) as [Hr0|Hr0].
      - cbv beta iota. unfold scaled. rewrite Hr0 in Hdm.
        assert (2 ^ 52 * (q * 2 ^ (e' + T)) <= 2 ^ 52 * U) by nia.
        apply Z.mul_le_mono_pos_l in H; lia.
      - cbv beta iota.
        assert (Hr1 : 0 < r) by lia.
        assert (Hlt : 2 ^ 52 * (q * 2 ^ (e' + T)) < 2 ^ 52 * U) by nia.
        apply Z.mul_lt_mono_pos_l in Hlt; [|lia].
        (* something is lost only at the smallest exponent *)
        assert (Hs51 : s <= 51).
        { destruct (Z_le_gt_dec s 51) as [H|H]; [exact H|]. exfalso.
          apply Hr0. rewrite Hr, Hm'.
          replace s with ((s - 52) + 52) by lia.
          rewrite pow2_add by lia. rewrite Z.mul_assoc.
          apply Z.mod_mul. lia. }
        assert (Ee' : e' = -1074).
        { unfold s in Hs51. unfold e' in *. rewrite fexp_eq in *. lia. }
        apply representable_succ; try assumption; try lia. }
    specialize (Hres Hbound).
    destruct (binary_round_aux prec emax (xorb sx false) q e' _)
      as [s0|s0| |s0 m0 e0]; try contradiction.
    + exists 0. split; [reflexivity|]. repeat split; lia.
    + destruct Hres as [Es0 Hres]. rewrite xorb_false_r in Es0. subst s0.
      assert (0 <= scaled (Zpos m0) e0).
      { unfold scaled. apply Z.mul_nonneg_nonneg; [lia|]. apply Z.pow_nonneg. lia. }
      eexists. split; [reflexivity|]. destruct sx; repeat split; lia.
Qed.

(** Twice a bound is a bound, short of overflow. *)
Lemma is_bound_double U : is_bound U -> 2 * U <= 2 ^ (971 + T) -> is_bound (2 * U).
Proof.
  intros (mb & eb & Hb & -> & _) HU.
  assert (HT : T = 1200) by reflexivity.
  destruct (bounded_inv _ _ Hb) as (Heb & Hmb & Hfill).
  pose proof (digits2_pos_bounds mb) as [Hlo Hhi].
  pose proof Hb as Hb'.
  unfold bounded, canonical_mantissa in Hb'. rewrite fexp_eq in Hb'.
  rewrite andb_true_iff, Z.eqb_eq, Z.leb_le in Hb'. destruct Hb' as [Hc _].
  set (d := Zpos (digits2_pos mb)) in *.
  destruct (Z.eq_dec d 53) as [Hd|Hd].
  - (* normal: the exponent goes up *)
    exists mb, (eb + 1). split; [|split]; try assumption.
    + assert (eb + 1 <= 971).
      { rewrite Hd in Hlo. change (53 - 1) with 52 in Hlo.
        destruct (Z_le_gt_dec (eb + 1) 971) as [H|H]; [exact H|]. exfalso.
        assert (2 ^ (971 + T) < 2 * scaled (Zpos mb) eb); [|lia].
        unfold scaled.
        apply Z.lt_le_trans with (2 * (2 ^ 52 * 2 ^ (eb + T))).
        - rewrite <- pow2_add by lia.
          replace (2 * 2 ^ (52 + (eb + T))) with (2 ^ (1 + (52 + (eb + T))))
            by (rewrite (pow2_add 1) by lia; reflexivity).
          apply Z.pow_lt_mono_r; lia.
        - apply Z.mul_le_mono_nonneg_l; [lia|].
          apply Z.mul_le_mono_nonneg_r; [apply Z.lt_le_incl, pow2_pos; lia|lia]. }
      unfold bounded, canonical_mantissa. rewrite fexp_eq. fold d.
      change (emax - prec) with 971.
      apply andb_true_iff. rewrite Z.eqb_eq, Z.leb_le. lia.
    + unfold scaled. replace (eb + 1 + T) with (1 + (eb + T)) by lia.
      rewrite (pow2_add 1) by lia. change (2 ^ 1) with 2. ring.
  - (* subnormal: the mantissa doubles *)
    exists (mb~0)%positive, eb. split; [|split]; try assumption.
    + unfold bounded, canonical_mantissa. rewrite fexp_eq.
      simpl digits2_pos. rewrite Pos2Z.inj_succ. fold d.
      change (emax - prec) with 971.
      apply andb_true_iff. rewrite Z.eqb_eq, Z.leb_le. lia.
    + unfold scaled. change (Zpos mb~0) with (2 * Zpos mb). ring.
Qed.

Lemma is_bound_valid x v :
  valid_binary x = true -> sval x = Some v -> Z.abs v <= 2 ^ (971 + T) ->
  v <> 0 -> is_bound (Z.abs v).
Proof.
  destruct x as [sx|sx| |sx mx ex]; try discriminate; cbn [sval valid_binary];
    intros Hx Ex Hle Hv; inversion Ex; subst v; clear Ex; [congruence|].
  destruct (bounded_inv _ _ Hx) as (Hex & _).
  pose proof (scaled_pos (Zpos mx) ex ltac:(lia) ltac:(unfold T; lia)) as Hp.
  exists mx, ex. split; [assumption|]. destruct sx; split; lia.
Qed.


(** *** Doubling is exact *)

Lemma Zdigits2_unique M n :
  0 < M -> 2 ^ (n - 1) <= M < 2 ^ n -> Zdigits2 M = n.
Proof.
  intros HM [Hlo Hhi].
  destruct (Zdigits2_bounds M HM) as [Dlo Dhi].
  assert (Hd : 1 <= Zdigits2 M) by (destruct M; simpl in *; lia).
  assert (Hn : 1 <= n).
  { destruct (Z_le_gt_dec 1 n) as [H|H]; [exact H|]. exfalso.
    assert (2 ^ n <= 1); [|lia].
    destruct (Z.eq_dec n 0) as [->|]; [simpl; lia|].
    rewrite Z.pow_neg_r by lia. lia. }
  destruct (Z.lt_trichotomy (Zdigits2 M) n) as [H|[H|H]]; [|exact H|]; exfalso.
  - assert (2 ^ Zdigits2 M <= 2 ^ (n - 1)) by (apply pow2_le; lia). lia.
  - assert (2 ^ n <= 2 ^ (Zdigits2 M - 1)) by (apply pow2_le; lia). lia.
Qed.

Lemma loc_of_exact mrs : inexact mrs = false -> loc_of_shr_record mrs = loc_Exact.
Proof. destruct mrs as [m [] []]; unfold inexact; simpl; congruence. Qed.

(** When only zeros are shifted out, [binary_round_aux] returns the number it
    was given. *)
Lemma binary_round_aux_exact sx M e :
  0 < M -> - T <= e ->
  let k := fexp prec emax (Zdigits2 M + e) - e in
  0 <= k -> M mod 2 ^ k = 0 -> e + k <= 971 ->
  exists m', binary_round_aux prec emax sx M e loc_Exact = S754_finite sx m' (e + k)
             /\ scaled (Zpos m') (e + k) = scaled M e.
Proof.
  intros HM He k Hk Hmod Hov.
  assert (HT : T = 1200) by reflexivity.
  pose proof (pow2_pos k Hk) as Pk.
  assert (EM : M = M / 2 ^ k * 2 ^ k).
  { pose proof (Z.div_mod M (2 ^ k) ltac:(lia)). lia. }
  set (m2 := M / 2 ^ k) in *.
  assert (Hm2 : 0 < m2) by nia.
  destruct (Zdigits2_bounds M HM) as [Dlo Dhi].
  set (d := Zdigits2 M) in *.
  assert (Hd : 1 <= d) by (unfold d; destruct M; simpl in *; lia).
  assert (Hkd : k < d).
  { apply (Z.pow_lt_mono_r_iff 2); try lia. nia. }
  assert (Hd2 : Zdigits2 m2 = d - k).
  { apply Zdigits2_unique; [exact Hm2|]. split.
    - assert (2 ^ (d - k - 1) * 2 ^ k <= m2 * 2 ^ k); [|nia].
      rewrite <- pow2_add by lia. replace (d - k - 1 + k) with (d - 1) by lia. lia.
    - assert (m2 * 2 ^ k < 2 ^ (d - k) * 2 ^ k); [|nia].
      rewrite <- pow2_add by lia. replace (d - k + k) with d by lia. lia. }
  unfold binary_round_aux, shr_fexp. fold d. fold k.
  destruct (shr_record_of_loc_spec M loc_Exact) as [Rm _].
  destruct (shr_spec (shr_record_of_loc M loc_Exact) e k ltac:(lia)) as (E1 & M1 & I1).
  destruct (shr (shr_record_of_loc M loc_Exact) e k) as [mrs1 e1].
  simpl fst in *; simpl snd in *. rewrite Rm in *.
  rewrite Z.max_l in * by lia. fold m2 in M1.
  assert (Hi : inexact mrs1 = false).
  { destruct (inexact mrs1) eqn:Ei; [|reflexivity]. exfalso.
    destruct (I1 eq_refl) as [H|[_ H]]; [discriminate H|]. apply H. exact Hmod. }
  rewrite (loc_of_exact _ Hi). cbn [round_nearest_even]. rewrite M1, E1.
  rewrite Hd2. replace (d - k + (e + k)) with (d + e) by lia.
  replace (fexp prec emax (d + e) - (e + k)) with 0 by (unfold k; lia).
  cbn [shr fst snd shr_record_of_loc shr_m].
  destruct m2 as [|p|p]; try lia.
  change (emax - prec) with 971.
  destruct (Z.leb_spec (e + k) 971) as [_|H]; [|lia].
  exists p. split; [reflexivity|].
  rewrite scaled_shift by lia. f_equal. lia.
Qed.

Lemma SFmul_two_exact x vx :
  valid_binary x = true -> sval x = Some vx -> Z.abs vx <= 2 ^ (900 + T) ->
  sval (SF64mul x SFtwo) = Some (2 * vx).
Proof.
  intros Hx Ex Hle.
  assert (HT : T = 1200) by reflexivity.
  destruct x as [sx|sx| |sx mx ex]; try discriminate;
    cbn [sval] in Ex; inversion Ex; subst vx; clear Ex.
  - reflexivity.
  - cbn [valid_binary] in Hx. destruct (bounded_inv _ _ Hx) as (Hex & Hmx & _).
    pose proof (digits2_pos_bounds mx) as [Dlo Dhi].
    pose proof Hx as Hc. unfold bounded, canonical_mantissa in Hc.
    rewrite fexp_eq, andb_true_iff, Z.eqb_eq in Hc. destruct Hc as [Hc _].
    set (d := Zpos (digits2_pos mx)) in *.
    assert (Hp : 0 < scaled (Zpos mx) ex) by (apply scaled_pos; lia).
    assert (Hv : scaled (Zpos mx) ex <= 2 ^ (900 + T)) by (destruct sx; lia).
    assert (Hd : d + ex <= 901).
    { assert (2 ^ (d - 1 + (ex + T)) <= 2 ^ (900 + T)).
      { apply Z.le_trans with (2 := Hv). unfold scaled.
        rewrite pow2_add by lia.
        apply Z.mul_le_mono_nonneg_r; [apply Z.lt_le_incl, pow2_pos; lia|exact Dlo]. }
      apply Z.pow_le_mono_r_iff in H; lia. }
    unfold SF64mul, SFmul, SFtwo.
    set (M := Zpos (mx * 4503599627370496)).
    assert (EM : M = Zpos mx * 2 ^ 52) by (unfold M; rewrite Pos2Z.inj_mul, two52; ring).
    assert (HdM : Zdigits2 M = d + 52).
    { apply Zdigits2_unique; [unfold M; lia|]. rewrite EM. split.
      - replace (d + 52 - 1) with ((d - 1) + 52) by lia.
        rewrite pow2_add by lia.
        apply Z.mul_le_mono_nonneg_r; [lia | exact Dlo].
      - rewrite pow2_add by lia. apply Z.mul_lt_mono_pos_r; [lia | exact Dhi]. }
    pose proof (binary_round_aux_exact (xorb sx false) M (ex + -51)
                  ltac:(unfold M; lia) ltac:(lia)) as Hex'.
    cbv zeta in Hex'. rewrite HdM, fexp_eq in Hex'.
    set (k := Z.max (d + 52 + (ex + -51) - 53) (-1074) - (ex + -51)) in *.
    assert (Hk : 51 <= k <= 52) by (unfold k; lia).
    destruct Hex' as (m' & Er & Es); try lia.
    + rewrite EM. replace 52 with ((52 - k) + k) by lia.
      rewrite pow2_add by lia. rewrite Z.mul_assoc. apply Z.mod_mul.
      pose proof (pow2_pos k ltac:(lia)). lia.
    + rewrite Er. cbn [sval]. rewrite xorb_false_r, Es. f_equal.
      assert (scaled M (ex + -51) = 2 * scaled (Zpos mx) ex).
      { rewrite EM. unfold scaled.
        replace (ex + T) with ((ex + -51 + T) + 51) by lia.
        rewrite (pow2_add (ex + -51 + T) 51) by lia.
        change (2 ^ 52) with (2 * 2 ^ 51). ring. }
      destruct sx; lia.
Qed.


(** *** On primitive floats *)


Lemma compare_value a b va vb :
  value a va -> value b vb ->
  SFcompare (Prim2SF a) (Prim2SF b) = Some (va ?= vb).
Proof.
  intros Ha Hb. apply SFcompare_sval; auto using Prim2SF_valid.
Qed.

Lemma ltb_value a b va vb :
  value a va -> value b vb -> (a <? b)%float = (va <? vb).
Proof.
  intros Ha Hb. rewrite ltb_spec. unfold SFltb, Z.ltb.
  rewrite (compare_value a b va vb Ha Hb). destruct (va ?= vb); reflexivity.
Qed.

Lemma leb_value a b va vb :
  value a va -> value b vb -> (a <=? b)%float = (va <=? vb).
Proof.
  intros Ha Hb. rewrite leb_spec. unfold SFleb, Z.leb.
  rewrite (compare_value a b va vb Ha Hb). destruct (va ?= vb); reflexivity.
Qed.

Lemma abs_value a v : value a v -> value (abs a) (Z.abs v).
Proof.
  unfold value. rewrite abs_spec.
  pose proof (Prim2SF_valid a) as Hv.
  destruct (Prim2SF a) as [s|s| |s m e]; try discriminate; simpl;
    intros H; inversion H; subst; clear H; [reflexivity|].
  destruct (bounded_inv _ _ Hv) as (He & _).
  pose proof (scaled_pos (Zpos m) e ltac:(lia) ltac:(unfold T; lia)).
  f_equal. destruct s; lia.
Qed.

Lemma add_value a b va vb U :
  value a va -> value b vb -> is_bound U -> Z.abs (va + vb) <= U ->
  exists v, value (a + b) v
            /\ Z.abs v <= U /\ (0 <= va + vb -> 0 <= v) /\ (va + vb <= 0 -> v <= 0).
Proof.
  intros Ha Hb HU Hle. unfold value. rewrite add_spec.
  apply SFadd_upper; auto using Prim2SF_valid.
Qed.

Lemma sub_value a b va vb U :
  value a va -> value b vb -> is_bound U -> Z.abs (va - vb) <= U ->
  exists v, value (a - b) v
            /\ Z.abs v <= U /\ (0 <= va - vb -> 0 <= v) /\ (va - vb <= 0 -> v <= 0).
Proof.
  intros Ha Hb HU Hle. unfold value. rewrite sub_spec.
  apply SFsub_upper; auto using Prim2SF_valid.
Qed.

Lemma half_value a va U :
  value a va -> is_bound U -> Z.abs va <= 2 * U ->
  exists v, value (a / 2) v
            /\ Z.abs v <= U /\ (0 <= va -> 0 <= v) /\ (va <= 0 -> v <= 0).
Proof.
  intros Ha HU Hle. unfold value. rewrite div_spec, Prim2SF_two.
  apply SFdiv_two_upper; auto using Prim2SF_valid.
Qed.

Lemma double_value a va :
  value a va -> Z.abs va <= 2 ^ (900 + T) -> value (a * 2) (2 * va).
Proof.
  intros Ha Hle. unfold value. rewrite mul_spec, Prim2SF_two.
  apply SFmul_two_exact; auto using Prim2SF_valid.
Qed.

(** A number between two finite ones is finite, and so is its value. *)
Lemma between_value lo up a vlo vup :
  value lo vlo -> value up vup ->
  (lo <=? a)%float = true -> (a <=? up)%float = true ->
  exists v, value a v /\ vlo <= v <= vup.
Proof.
  intros Hlo Hup H1 H2.
  assert (Ha : exists v, value a v).
  { unfold value in *. rewrite leb_spec in H1, H2. unfold SFleb in H1, H2.
    destruct (Prim2SF a) as [s|s| |s m e]; simpl; eauto.
    - destruct s.
      + destruct (Prim2SF lo) as [s'|s'| |s' m' e']; try discriminate;
          simpl in H1; discriminate.
      + destruct (Prim2SF up) as [s'|s'| |s' m' e']; try discriminate;
          simpl in H2; discriminate.
    - destruct (Prim2SF lo) as [s'|s'| |s' m' e']; discriminate. }
  destruct Ha as [v Hv]. exists v. split; [exact Hv|].
  rewrite (leb_value lo a vlo v Hlo Hv) in H1.
  rewrite (leb_value a up v vup Hv Hup) in H2. lia.
Qed.

(** A number no larger than a finite one in magnitude is finite or NaN. *)
Lemma abs_not_above c a vc :
  value c vc -> (c <? abs a)%float = false ->
  Prim2SF a = S754_nan \/ exists v, value a v /\ Z.abs v <= vc.
Proof.
  intros Hc H.
  destruct (Prim2SF a) as [s|s| |s m e] eqn:Ea; auto; right.
  - exists 0. split; [unfold value; rewrite Ea; reflexivity|].
    assert (Ha : value a 0) by (unfold value; rewrite Ea; reflexivity).
    rewrite (ltb_value c (abs a) vc (Z.abs 0) Hc (abs_value a 0 Ha)) in H. lia.
  - exfalso. rewrite ltb_spec, abs_spec, Ea in H. unfold value in Hc.
    destruct (Prim2SF c) as [s'|s'| |s' m' e']; try discriminate;
      simpl in H; discriminate.
  - eexists. assert (Ha : value a _) by (unfold value; rewrite Ea; reflexivity).
    split; [exact Ha|].
    rewrite (ltb_value c (abs a) vc _ Hc (abs_value a _ Ha)) in H. lia.
Qed.

Lemma Prim2SF_nan_inv a : Prim2SF a = S754_nan -> a = nan.
Proof. intros H. apply Prim2SF_inj. rewrite H. reflexivity. Qed.

(** Comparisons alone. *)
Lemma ltb_leb a b : (a <? b)%float = true -> (a <=? b)%float = true.
Proof.
  rewrite ltb_spec, leb_spec. unfold SFltb, SFleb.
  destruct (SFcompare (Prim2SF a) (Prim2SF b)) as [[]|]; congruence.
Qed.

Lemma SFcompare_None x y :
  SFcompare x y = None -> x = S754_nan \/ y = S754_nan.
Proof.
  destruct x as [sx|sx| |sx mx ex], y as [sy|sy| |sy my ey]; simpl; auto;
    discriminate.
Qed.

Lemma not_ltb_leb a b c :
  (c <? a)%float = true -> (b <=? b)%float = true ->
  (b <? a)%float = false -> (a <=? b)%float = true.
Proof.
  rewrite !ltb_spec, !leb_spec. unfold SFltb, SFleb. intros Hc Hb H.
  rewrite (Order.SFcompare_antisym (Prim2SF b) (Prim2SF a)).
  destruct (SFcompare (Prim2SF b) (Prim2SF a)) as [[]|] eqn:E; simpl;
    try congruence.
  exfalso. destruct (SFcompare_None _ _ E) as [N|N]; rewrite N in *.
  - simpl in Hb. discriminate.
  - destruct (Prim2SF c) as [sc|sc| |sc mc ec]; simpl in Hc; discriminate.
Qed.

End Binary64Facts.

Import Binary64 Binary64Facts.

(** ** The working variable [z] stays small *)

Lemma clamp_clamped z : clamped (max z_low (min z z_up)).
Proof.
  unfold clamped, max, min.
  destruct (z_up <? z) eqn:E1.
  - change (z_low <? z_up) with true. cbv iota. split; reflexivity.
  - destruct (z_low <? z) eqn:E2.
    + split; [exact (ltb_leb _ _ E2)|].
      exact (not_ltb_leb z z_up z_low E2 eq_refl E1).
    + split; reflexivity.
Qed.

Lemma value_z_up : value z_up (scaled 5556093337880030 (-47)).
Proof. reflexivity. Qed.

Lemma value_z_low : value z_low (- scaled 5556093337880030 (-47)).
Proof. reflexivity. Qed.

Lemma value_zero : value 0 0.
Proof. reflexivity. Qed.

Lemma z_up_small : (scaled 5556093337880030 (-47) <= 2 ^ (6 + T))%Z.
Proof. apply Z.leb_le. vm_compute. reflexivity. Qed.

Lemma clamped_small z : clamped z -> small 6 z.
Proof.
  intros [H1 H2].
  destruct (between_value z_low z_up z _ _ value_z_low value_z_up H1 H2)
    as (v & Hv & Hb).
  exists v. split; [exact Hv|]. pose proof z_up_small. lia.
Qed.

Lemma small_mono K K' z : (-1200 <= K <= K')%Z -> small K z -> small K' z.
Proof.
  intros HK (v & Hv & Hb). exists v. split; [exact Hv|].
  apply Z.le_trans with (1 := Hb). apply pow2_le. unfold T. lia.
Qed.

Lemma limited_step d :
  (max_step <? abs (if max_step <? abs d
                    then (if 0.0 <? d then max_step else - max_step)
                    else d)) = false.
Proof.
  destruct (max_step <? abs d) eqn:E; [|exact E].
  destruct (0.0 <? d); reflexivity.
Qed.

Lemma newton_step_limited L p z : (max_step <? abs (newton_step L p z)) = false.
Proof. unfold newton_step. apply limited_step. Qed.

(** A step of at most 10, or NaN, from [|z| <= 128] stays below the alarm. *)
Lemma step_no_blowup z d :
  small 7 z -> (max_step <? abs d) = false -> (1e6 <? abs (z - d)) = false.
Proof.
  intros (vz & Hz & Hbz) Hd.
  assert (H10 : value max_step (scaled 5629499534213120 (-49))) by reflexivity.
  destruct (abs_not_above max_step d _ H10 Hd) as [N|(vd & Hvd & Hbd)].
  - apply Prim2SF_nan_inv in N. subst d. rewrite NaN.sub_r. reflexivity.
  - assert (H4 : (scaled 5629499534213120 (-49) <= 2 ^ (4 + T))%Z)
      by (apply Z.leb_le; vm_compute; reflexivity).
    assert (Hp : (2 ^ (7 + T) + 2 ^ (4 + T) <= 2 ^ (8 + T))%Z)
      by (apply Z.leb_le; vm_compute; reflexivity).
    destruct (sub_value z d vz vd (2 ^ (8 + T))%Z Hz Hvd
                (pow2_is_bound 8 ltac:(lia)) ltac:(lia)) as (v & Hv & Hb & _).
    assert (H6 : value 1e6 (scaled 8589934592000000 (-33))) by reflexivity.
    rewrite (ltb_value 1e6 (abs (z - d)) _ _ H6 (abs_value _ _ Hv)).
    apply Z.ltb_ge.
    assert ((2 ^ (8 + T) <= scaled 8589934592000000 (-33))%Z)
      by (apply Z.leb_le; vm_compute; reflexivity).
    lia.
Qed.

Lemma mid_inside neg B lo hi :
  ok_bound B -> inside neg B lo -> inside neg B hi ->
  inside neg B ((lo + hi) / 2).
Proof.
  intros [HB HBb] (vlo & Hlo & Blo & Slo) (vhi & Hhi & Bhi & Shi).
  assert (H2 : (2 * 2 ^ (900 + T) <= 2 ^ (971 + T))%Z)
    by (apply Z.leb_le; vm_compute; reflexivity).
  destruct HBb as [->|HBb].
  - assert (vlo = 0%Z) by lia. assert (vhi = 0%Z) by lia. subst.
    assert (P0 : (0 < 2 ^ (0 + T))%Z) by (apply pow2_pos; unfold T; lia).
    destruct (add_value lo hi 0 0 _ Hlo Hhi (pow2_is_bound 0 ltac:(lia))
                ltac:(simpl Z.add; lia)) as (vs & Hs & _ & Ps & Ns).
    assert (vs = 0%Z) by lia. subst vs.
    destruct (half_value (lo + hi) 0 _ Hs (pow2_is_bound 0 ltac:(lia))
                ltac:(simpl Z.abs; lia)) as (v & Hv & _ & Pv & Nv).
    exists v. split; [exact Hv|]. destruct neg; lia.
  - destruct (add_value lo hi vlo vhi (2 * B)%Z Hlo Hhi
                (is_bound_double B HBb ltac:(lia)) ltac:(lia))
      as (vs & Hs & Bs & Ps & Ns).
    destruct (half_value (lo + hi) vs B Hs HBb Bs) as (v & Hv & Bv & Pv & Nv).
    exists v. split; [exact Hv|]. split; [exact Bv|].
    destruct neg; lia.
Qed.

Lemma bracket_inside L p neg B fuel zlo zhi z0 y0 z1 y1 :
  ok_bound B -> inside neg B zlo -> inside neg B zhi -> inside neg B z0 ->
  bracket L p fuel zlo zhi z0 y0 = Some (z1, y1) -> inside neg B z1.
Proof.
  intros HB. revert zlo zhi z0 y0.
  induction fuel as [|f IH]; intros zlo zhi z0 y0 Hlo Hhi Hz; simpl.
  - destruct (y0 <? 0); [discriminate|]. intros H; inversion H; subst. exact Hz.
  - destruct (y0 <? 0).
    + pose proof (mid_inside neg B zlo zhi HB Hlo Hhi) as Hm.
      destruct ((zlo + zhi) / 2 <? 0); apply IH; assumption.
    + intros H; inversion H; subst. exact Hz.
Qed.

Lemma pass_newton L p fuel l :
  (y_at L p (lz l) <? 0) = false ->
  pass L p fuel l
  = if abs (F_at L p (lz l)) <? tolerance
    then Converged {| lz := lz l; ly := Some (y_at L p (lz l));
                      lF := Some (F_at L p (lz l));
                      iteration := S (iteration l) |} (y_at L p (lz l))
    else if 1e6 <? abs (lz l - newton_step L p (lz l)) then Blowup
    else Stepped {| lz := max z_low (min (lz l - newton_step L p (lz l)) z_up);
                    ly := Some (y_at L p (lz l));
                    lF := Some (F_at L p (lz l));
                    iteration := S (iteration l) |}.
Proof.
  intros Hy. unfold pass. unfold y_at in Hy. rewrite Hy. reflexivity.
Qed.

Lemma pass_repair L p fuel l :
  (y_at L p (lz l) <? 0) = true ->
  pass L p fuel l
  = match bracket L p fuel (lz l) (if lz l <? 0 then 0 else lz l * 2) (lz l)
                  (y_at L p (lz l)) with
    | None => Hang
    | Some (z1, y1) =>
        Repaired {| lz := z1; ly := Some y1; lF := lF l;
                    iteration := S (iteration l) |}
    end.
Proof.
  intros Hy. unfold pass. unfold y_at in Hy. rewrite Hy. reflexivity.
Qed.

(** The bracketing repair, started from a clamped [z], ends between [z] and 0
    when [z < 0], and between 0 and [2 z] otherwise. *)
Lemma repair_between L p fuel z0 y0 z1 y1 :
  clamped z0 ->
  bracket L p fuel z0 (if z0 <? 0 then 0 else z0 * 2) z0 y0 = Some (z1, y1) ->
  small 7 z1
  /\ (if z0 <? 0
      then (z0 <=? z1) = true /\ (z1 <=? 0) = true
      else (0 <=? z1) = true /\ (z1 <=? z0 * 2) = true).
Proof.
  intros Hc Hb.
  destruct (clamped_small z0 Hc) as (v0 & Hv0 & Hb0).
  assert (P6 : (2 * 2 ^ (6 + T) = 2 ^ (7 + T))%Z) by reflexivity.
  assert (P900 : (2 ^ (7 + T) <= 2 ^ (900 + T))%Z)
    by (apply pow2_le; unfold T; lia).
  assert (P971 : (2 ^ (900 + T) <= 2 ^ (971 + T))%Z)
    by (apply pow2_le; unfold T; lia).
  pose proof (ltb_value z0 0 v0 0 Hv0 value_zero) as Hlt.
  destruct (z0 <? 0) eqn:E.
  - (* the bracket [z, 0] *)
    symmetry in Hlt. apply Z.ltb_lt in Hlt.
    assert (HB : ok_bound (Z.abs v0)).
    { split; [lia|]. right.
      apply (is_bound_valid (Prim2SF z0) v0); auto using Prim2SF_valid; lia. }
    assert (Hin : inside true (Z.abs v0) z0) by (exists v0; repeat split; auto; lia).
    assert (Hin0 : inside true (Z.abs v0) 0)
      by (exists 0%Z; repeat split; auto using value_zero; lia).
    destruct (bracket_inside L p true _ fuel _ _ _ _ _ _ HB Hin Hin0 Hin Hb)
      as (v1 & Hv1 & Hb1 & Hs1).
    split; [exists v1; split; [exact Hv1|lia]|].
    rewrite (leb_value z0 z1 v0 v1 Hv0 Hv1), (leb_value z1 0 v1 0 Hv1 value_zero).
    split; apply Z.leb_le; lia.
  - (* the bracket [z, 2 z] *)
    symmetry in Hlt. apply Z.ltb_ge in Hlt.
    pose proof (double_value z0 v0 Hv0 ltac:(lia)) as Hv2.
    assert (HB : ok_bound (2 * v0)).
    { split; [lia|].
      destruct (Z.eq_dec v0 0) as [->|Hn]; [left; reflexivity|right].
      apply is_bound_double; [|lia].
      replace v0 with (Z.abs v0) by lia.
      apply (is_bound_valid (Prim2SF z0) v0); auto using Prim2SF_valid; lia. }
    assert (Hin : inside false (2 * v0) z0) by (exists v0; repeat split; auto; lia).
    assert (Hin2 : inside false (2 * v0) (z0 * 2))
      by (exists (2 * v0)%Z; repeat split; auto; lia).
    destruct (bracket_inside L p false _ fuel _ _ _ _ _ _ HB Hin Hin2 Hin Hb)
      as (v1 & Hv1 & Hb1 & Hs1).
    split; [exists v1; split; [exact Hv1|lia]|].
    rewrite (leb_value 0 z1 0 v1 value_zero Hv1),
      (leb_value z1 (z0 * 2) v1 _ Hv1 Hv2).
    split; apply Z.leb_le; lia.
Qed.

Lemma pass_start_small L p l : pass_start L p l -> small 7 (lz l).
Proof.
  intros [Hc|[Hs _]]; [|exact Hs].
  apply (small_mono 6); [lia|]. apply clamped_small. exact Hc.
Qed.

Lemma pass_start_preserved L p fuel l :
  pass_start L p l ->
  match pass L p fuel l with
  | Repaired l' | Stepped l' => pass_start L p l'
  | Blowup => False
  | _ => True
  end.
Proof.
  intros Hs.
  destruct (y_at L p (lz l) <? 0) eqn:Hy.
  - rewrite pass_repair by exact Hy.
    destruct Hs as [Hc|[_ Hn]]; [|congruence].
    destruct (bracket L p fuel _ _ _ _) as [[z1 y1]|] eqn:Hb; [|exact I].
    destruct (repair_between L p fuel _ _ _ _ Hc Hb) as [H7 _].
    right. cbn [lz]. split; [exact H7|].
    apply (bracket_exit L p) in Hb; [|reflexivity].
    destruct Hb as [-> Hb]. exact Hb.
  - rewrite pass_newton by exact Hy.
    destruct (abs (F_at L p (lz l)) <? tolerance); [exact I|].
    rewrite (step_no_blowup _ _ (pass_start_small L p l Hs)
               (newton_step_limited L p (lz l))).
    left. cbn [lz]. apply clamp_clamped.
Qed.

Lemma run_pass_start L p fuel k l l' :
  pass_start L p l -> run L p fuel k l = Some l' -> pass_start L p l'.
Proof.
  revert l; induction k as [|k IH]; intros l Hs; simpl.
  - intros H; inversion H; subst; exact Hs.
  - pose proof (pass_start_preserved L p fuel l Hs) as Hp.
    destruct (pass L p fuel l); try discriminate; apply IH; exact Hp.
Qed.

Lemma loop_no_blowup L p fuel budget l :
  pass_start L p l -> loop L p fuel budget l <> LBlowup.
Proof.
  revert l; induction budget as [|b IH]; intros l Hs; simpl; [discriminate|].
  pose proof (pass_start_preserved L p fuel l Hs) as Hp.
  destruct (pass L p fuel l); try discriminate; try (apply IH; exact Hp).
  contradiction.
Qed.

Lemma initial_clamped L r1 r2 is_prograde :
  lz (initial_locals L r1 r2 is_prograde) = z_low
  \/ lz (initial_locals L r1 r2 is_prograde) = z_up.
Proof.
  unfold initial_locals, initial_z. cbn [lz].
  destruct (PI <? _); [left|right]; reflexivity.
Qed.

Lemma initial_pass_start L p r1 r2 is_prograde :
  pass_start L p (initial_locals L r1 r2 is_prograde).
Proof.
  left. destruct (initial_clamped L r1 r2 is_prograde) as [-> | ->];
    split; reflexivity.
Qed.

(** ** The transfer angle *)

Lemma value_PI : value PI (scaled 7074237752028440 (-51)).
Proof. reflexivity. Qed.

Lemma value_minus_PI : value (- PI) (- scaled 7074237752028440 (-51)).
Proof. reflexivity. Qed.

Lemma value_two_PI : value (2 * PI) (scaled 7074237752028440 (-50)).
Proof. reflexivity. Qed.

Lemma two_PI_is_bound : is_bound (scaled 7074237752028440 (-50)).
Proof.
  exists 7074237752028440%positive, (-50)%Z. split; [reflexivity|].
  split; [reflexivity|]. apply Z.leb_le. vm_compute. reflexivity.
Qed.

Lemma normalised_range a :
  (- PI <=? a) = true -> (a <=? PI) = true ->
  let d := if a <? 0 then a + 2 * PI else a in
  (0 <=? d) = true /\ (d <=? 2 * PI) = true.
Proof.
  intros H1 H2 d. subst d.
  destruct (between_value (- PI) PI a _ _ value_minus_PI value_PI H1 H2)
    as (va & Ha & Hb).
  assert (Hd : (scaled 7074237752028440 (-50) = 2 * scaled 7074237752028440 (-51))%Z)
    by reflexivity.
  assert (Hp : (0 < scaled 7074237752028440 (-51))%Z) by reflexivity.
  pose proof (ltb_value a 0 va 0 Ha value_zero) as Hlt.
  destruct (a <? 0).
  - symmetry in Hlt. apply Z.ltb_lt in Hlt.
    destruct (add_value a (2 * PI) va _ _ Ha value_two_PI two_PI_is_bound
                ltac:(lia)) as (v & Hv & Hbv & Hpos & _).
    rewrite (leb_value 0 _ 0 v value_zero Hv),
      (leb_value _ (2 * PI) v _ Hv value_two_PI).
    split; apply Z.leb_le; lia.
  - symmetry in Hlt. apply Z.ltb_ge in Hlt.
    rewrite (leb_value 0 a 0 va value_zero Ha),
      (leb_value a (2 * PI) va _ Ha value_two_PI).
    split; apply Z.leb_le; lia.
Qed.

(** * The claims of the specification *)

(** ** Velocity reconstruction *)

(** C1.  When the iteration converges with final [y], [solve] computes
    [f = 1 - y/|r1|], [g = A sqrt(y/mu)], [g_dot = 1 - y/|r2|] and returns
    exactly [v1 = (r2 - f r1)/g] and [v2 = (g_dot r2 - r1)/g], the divisions
    being componentwise by the scalar [g]. *)
Theorem solve_returns_reconstruction L mu_ fuel r1 r2 tof_ is_prograde l yc :
  (norm r1 =? 0) = false -> (norm r2 =? 0) = false ->
  (A_of r1 r2 is_prograde =? 0) = false ->
  loop L (problem_of mu_ r1 r2 tof_ is_prograde) fuel max_iterations
       (initial_locals L r1 r2 is_prograde) = LConverged l yc ->
  let f := 1 - yc / norm r1 in
  let g := A_of r1 r2 is_prograde * sqrt (yc / mu_) in
  let g_dot := 1 - yc / norm r2 in
  ly l = Some yc
  /\ solve L mu_ fuel r1 r2 tof_ is_prograde
     = Return (vdiv (vsub r2 (vscale f r1)) g, vdiv (vsub (vscale g_dot r2) r1) g).
Proof.
  intros H1 H2 HA Hl f g g_dot. split.
  - exact (loop_converged_ly _ _ _ _ _ _ _ Hl).
  - unfold solve. rewrite H1, H2. simpl orb. cbv iota.
    change (A (problem_of mu_ r1 r2 tof_ is_prograde)) with (A_of r1 r2 is_prograde).
    rewrite HA, Hl. reflexivity.
Qed.

Lemma solve_returns_reconstruction_witness :
  exists l yc,
    ly l = Some yc
    /\ solve SampleLibm.libm Inputs.mu_earth 10 Inputs.hello_r1 Inputs.hello_r2
             Inputs.hello_tof true
       = Return
           (vdiv (vsub Inputs.hello_r2
                       (vscale (1 - yc / norm Inputs.hello_r1) Inputs.hello_r1))
                 (A_of Inputs.hello_r1 Inputs.hello_r2 true
                  * sqrt (yc / Inputs.mu_earth)),
            vdiv (vsub (vscale (1 - yc / norm Inputs.hello_r2) Inputs.hello_r2)
                       Inputs.hello_r1)
                 (A_of Inputs.hello_r1 Inputs.hello_r2 true
                  * sqrt (yc / Inputs.mu_earth))).
Proof.
  eexists. eexists.
  apply (solve_returns_reconstruction SampleLibm.libm Inputs.mu_earth 10
           Inputs.hello_r1 Inputs.hello_r2 Inputs.hello_tof true);
    [ vm_compute; reflexivity | vm_compute; reflexivity | vm_compute; reflexivity
    | vm_compute; reflexivity ].
Defined.

(** ** The transfer angle *)

(** C2 (as amended).  The geometry step sets [sin_dtheta] to
    [|r1 x r2| / (|r1| |r2|)], negated exactly when the transfer is prograde
    and [cross(r1, r2).z < 0], or retrograde and [cross(r1, r2).z >= 0]; and
    [dtheta] is [atan2(sin_dtheta, cos_dtheta)], plus [2 * PI] when that is
    negative.  Whenever [atan2] returned a number in [[-PI, PI]], [dtheta]
    lies in the closed interval [[0, 2 * PI]]: the upper end is included,
    because a negative angle of tiny magnitude plus [2 * PI] rounds to
    [2 * PI]. *)
Theorem transfer_angle L r1 r2 is_prograde :
  let magnitude := norm (cross r1 r2) / (norm r1 * norm r2) in
  let negated :=
    (is_prograde && (z (cross r1 r2) <? 0))
    || (negb is_prograde && (0 <=? z (cross r1 r2))) in
  let a := atan2 L (sin_dtheta_of r1 r2 is_prograde) (cos_dtheta_of r1 r2) in
  sin_dtheta_of r1 r2 is_prograde = (if negated then - magnitude else magnitude)
  /\ dtheta_of L r1 r2 is_prograde = (if a <? 0 then a + 2 * PI else a)
  /\ ((- PI <=? a) = true -> (a <=? PI) = true ->
      (0 <=? dtheta_of L r1 r2 is_prograde) = true
      /\ (dtheta_of L r1 r2 is_prograde <=? 2 * PI) = true).
Proof.
  intros magnitude negated a. split; [|split].
  - unfold sin_dtheta_of, flips. subst negated magnitude.
    destruct is_prograde; cbn [andb negb orb].
    + rewrite orb_false_r. reflexivity.
    + reflexivity.
  - reflexivity.
  - intros H1 H2. exact (normalised_range a H1 H2).
Qed.

Lemma transfer_angle_witness :
  (0 <=? dtheta_of SampleLibm.libm Inputs.hello_r1 Inputs.hello_r2 true) = true
  /\ (dtheta_of SampleLibm.libm Inputs.hello_r1 Inputs.hello_r2 true <=? 2 * PI) = true.
Proof.
  apply (transfer_angle SampleLibm.libm Inputs.hello_r1 Inputs.hello_r2 true);
    vm_compute; reflexivity.
Defined.

(** C2, counterexample.  [r1 = (7000, 0, 0)] and [r2 = (7000, -1e-12, 0)] are
    nonzero; prograde, the sine is about [-1.4e-16] and the cosine is 1, the
    arctangent (of the sample library) is negative, and adding [2 * PI] to it
    gives [2 * PI] exactly: [dtheta] is not below [2 * PI]. *)
Lemma transfer_angle_counterexample :
  (norm Inputs.grazing_r1 =? 0) = false
  /\ (norm Inputs.grazing_r2 =? 0) = false
  /\ (atan2 SampleLibm.libm (sin_dtheta_of Inputs.grazing_r1 Inputs.grazing_r2 true)
            (cos_dtheta_of Inputs.grazing_r1 Inputs.grazing_r2) <? 0) = true
  /\ dtheta_of SampleLibm.libm Inputs.grazing_r1 Inputs.grazing_r2 true = 2 * PI
  /\ (dtheta_of SampleLibm.libm Inputs.grazing_r1 Inputs.grazing_r2 true <? 2 * PI) = false.
Proof. repeat split; vm_compute; reflexivity. Qed.

(** ** The Stumpff functions *)

(** C3.  Below the threshold in absolute value both functions are their
    four-term series; above [1e-6] they are the elliptic closed forms; below
    [-1e-6] the hyperbolic ones.  Each is a total function of [z]: no input,
    NaN and the infinities included, makes it fail. *)
Theorem stumpff_branches L z :
  ((abs z <? 1e-6) = true ->
   stumpff_C L z = 1.0 / 2.0 - z / 24.0 + z * z / 720.0 - z * z * z / 40320.0
   /\ stumpff_S L z
      = 1.0 / 6.0 - z / 120.0 + z * z / 5040.0 - z * z * z / 362880.0)
  /\ ((1e-6 <? z) = true ->
      stumpff_C L z = (1.0 - cos L (sqrt z)) / z
      /\ stumpff_S L z = (sqrt z - sin L (sqrt z)) / pow L z 1.5)
  /\ ((z <? -1e-6) = true ->
      stumpff_C L z = (cosh L (sqrt (- z)) - 1.0) / (- z)
      /\ stumpff_S L z = (sinh L (sqrt (- z)) - sqrt (- z)) / pow L (- z) 1.5).
Proof.
  unfold stumpff_C, stumpff_S. split; [|split].
  - intros ->. auto.
  - intros H.
    destruct (Order.above_positive 1e-6 z eq_refl H) as [Ha H0].
    rewrite Ha, (Order.ltb_asym _ _ H), H0. auto.
  - intros H.
    destruct (Order.below_negative (-1e-6) z eq_refl H) as [Ha H0].
    rewrite Ha, H0.
    replace (- z <? 1e-6) with false; [auto|].
    symmetry. apply Order.ltb_asym.
    change 1e-6 with (- (-1e-6)). rewrite Order.opp_ltb. exact H.
Qed.

Lemma stumpff_branches_witness :
  (stumpff_C SampleLibm.libm 0
   = 1.0 / 2.0 - 0 / 24.0 + 0 * 0 / 720.0 - 0 * 0 * 0 / 40320.0
   /\ stumpff_S SampleLibm.libm 0
      = 1.0 / 6.0 - 0 / 120.0 + 0 * 0 / 5040.0 - 0 * 0 * 0 / 362880.0)
  /\ (stumpff_C SampleLibm.libm 1 = (1.0 - SampleLibm.cos (sqrt 1)) / 1
      /\ stumpff_S SampleLibm.libm 1
         = (sqrt 1 - SampleLibm.sin (sqrt 1)) / SampleLibm.pow 1 1.5)
  /\ (stumpff_C SampleLibm.libm (-1)
      = (SampleLibm.cosh (sqrt (- -1)) - 1.0) / (- -1)
      /\ stumpff_S SampleLibm.libm (-1)
         = (SampleLibm.sinh (sqrt (- -1)) - sqrt (- -1))
           / SampleLibm.pow (- -1) 1.5).
Proof.
  split; [|split].
  - exact (proj1 (stumpff_branches SampleLibm.libm 0) eq_refl).
  - exact (proj1 (proj2 (stumpff_branches SampleLibm.libm 1)) eq_refl).
  - exact (proj2 (proj2 (stumpff_branches SampleLibm.libm (-1))) eq_refl).
Defined.

(** ** Identical endpoints *)

(** At [r1 = r2 = (1, 1, 0)] the guard does fire: the norm is rounded, the
    cosine comes out just below 1, and [A] is a zero. *)
Lemma solve_same_position_diagonal L mu_ fuel tof_ is_prograde :
  solve L mu_ fuel Inputs.diagonal_r Inputs.diagonal_r tof_ is_prograde
  = Throw DegenerateGeometry.
Proof.
  unfold solve.
  replace ((norm Inputs.diagonal_r =? 0) || (norm Inputs.diagonal_r =? 0))
    with false by (vm_compute; reflexivity).
  cbv iota.
  replace (A (problem_of mu_ Inputs.diagonal_r Inputs.diagonal_r tof_ is_prograde) =? 0)
    with true by (destruct is_prograde; vm_compute; reflexivity).
  reflexivity.
Qed.

(** C4, the code at [r1 = r2 = (7000, 0, 0)].  The cosine is exactly 1 and the
    sine exactly 0, so [A = 0 * sqrt(|r1||r2| / 0) = 0 * inf] is NaN; the test
    [A == 0] is false, the iteration is entered, every pass computes NaN, and
    after 1000 passes [solve] throws the non-convergence error, whatever the
    library, [mu], the time of flight and the flag are. *)
Theorem solve_same_position L mu_ fuel tof_ is_prograde :
  A_of Inputs.same_r Inputs.same_r is_prograde = nan
  /\ solve L mu_ fuel Inputs.same_r Inputs.same_r tof_ is_prograde
     = Throw (NonConvergence (Some nan) z_low (Some nan)
                             Inputs.same_r Inputs.same_r tof_ is_prograde).
Proof.
  assert (HA : A_of Inputs.same_r Inputs.same_r is_prograde = nan)
    by (destruct is_prograde; vm_compute; reflexivity).
  split; [exact HA|].
  rewrite solve_past_guards;
    [ | vm_compute; reflexivity | vm_compute; reflexivity
      | rewrite HA; reflexivity ].
  change max_iterations with (S 999).
  rewrite loop_nan by exact HA. reflexivity.
Qed.

(** ** The iteration budget *)

(** C5 (as amended).  A pass that takes the [y < 0] bracketing repair
    increments [iteration] like any other pass, so the budget of 1000 bounds
    the passes of both kinds together: after [k] passes the counter has
    advanced by [k], which is the number of repairs plus the number of Newton
    steps; a run that exhausts the budget has made [1000] passes, of which only
    [1000 - repairs] were Newton iterations. *)
Theorem repair_pass_counts L p fuel :
  (forall l l', pass L p fuel l = Repaired l' -> iteration l' = S (iteration l))
  /\ (forall k l l',
        run L p fuel k l = Some l' ->
        iteration l' = (iteration l + k)%nat
        /\ (repairs L p fuel k l + newtons L p fuel k l = k)%nat)
  /\ (forall l l',
        loop L p fuel max_iterations l = LExhausted l' ->
        newtons L p fuel max_iterations l
        = (max_iterations - repairs L p fuel max_iterations l)%nat).
Proof.
  split; [|split].
  - intros l l' H. apply (pass_iteration L p fuel). auto.
  - intros k l l' H. split.
    + exact (run_iteration L p fuel k l l' H).
    + exact (run_passes_split L p fuel k l l' H).
  - intros l l' H. apply loop_exhausted_iff in H.
    apply run_passes_split in H. lia.
Qed.

(** C5, counterexample.  On the second test case of the repository (with the
    sample library) the second pass is a repair and it advances the counter
    from 1 to 2; the budget then runs out after 999 Newton iterations, not
    1000. *)
Lemma repair_pass_counts_counterexample :
  let p := problem_of Inputs.mu_earth Inputs.curtis_r1 Inputs.curtis_r2
                      Inputs.curtis_tof true in
  let l0 := initial_locals SampleLibm.libm Inputs.curtis_r1 Inputs.curtis_r2 true in
  (exists l1 l2,
      run SampleLibm.libm p 10 1 l0 = Some l1
      /\ pass SampleLibm.libm p 10 l1 = Repaired l2
      /\ iteration l1 = 1%nat /\ iteration l2 = 2%nat)
  /\ (exists l, loop SampleLibm.libm p 10 max_iterations l0 = LExhausted l)
  /\ newtons SampleLibm.libm p 10 max_iterations l0 = 999%nat.
Proof.
  split; [|split].
  - eexists. eexists. split; [vm_compute; reflexivity|].
    split; [vm_compute; reflexivity|]. split; reflexivity.
  - eexists. vm_compute. reflexivity.
  - vm_compute. reflexivity.
Qed.

(** ** Termination *)

(** C6, the code at [r1 = (7000, 0, 0)], [r2 = (7000, 1e-5, 0)], prograde,
    with the sample library.  The cosine rounds to exactly 1 while the sine is
    about 1.4e-9, so [A] is plus infinity.  The first pass computes NaN and the
    clamp leaves [z = z_low]; in the second pass [y] is minus infinity, the
    bracketing loop is entered with the bracket [z_low, 0], and [y] stays
    minus infinity at every midpoint: [z] is halved down to [-0], where
    [(z_low + z_high) / 2] no longer changes.  The inner loop never exits:
    whatever fuel the model is given, it runs out. *)
Theorem solve_inner_loop_diverges fuel :
  solve SampleLibm.libm Inputs.mu_earth fuel Inputs.near_r1 Inputs.near_r2
        3600 true = NoFuel.
Proof.
  rewrite solve_past_guards by (vm_compute; reflexivity).
  set (p := problem_of Inputs.mu_earth Inputs.near_r1 Inputs.near_r2 3600 true).
  set (l0 := initial_locals SampleLibm.libm Inputs.near_r1 Inputs.near_r2 true).
  set (l1 := {| lz := z_low; ly := Some nan; lF := Some nan; iteration := 1 |}).
  assert (P1 : pass SampleLibm.libm p fuel l0 = Stepped l1)
    by (vm_compute; reflexivity).
  assert (P2 : pass SampleLibm.libm p fuel l1 = Hang).
  { apply pass_hang; [vm_compute; reflexivity|].
    apply (bracket_iter_none SampleLibm.libm p 1080 _
             (-0x1p-1074, -0, -0, neg_infinity)).
    - vm_compute. reflexivity.
    - apply bracket_stuck; vm_compute; reflexivity. }
  change max_iterations with (S (S 998)).
  rewrite loop_unfold, P1, loop_unfold, P2. reflexivity.
Qed.

(** ** The failures of [solve] *)

(** The first guard, in terms of the two norms as computed. *)
Lemma solve_invalid_input_iff L mu_ fuel r1 r2 tof_ is_prograde :
  solve L mu_ fuel r1 r2 tof_ is_prograde = Throw InvalidInput
  <-> (norm r1 =? 0) = true \/ (norm r2 =? 0) = true.
Proof.
  unfold solve.
  destruct (norm r1 =? 0) eqn:H1; simpl orb.
  - split; auto.
  - destruct (norm r2 =? 0) eqn:H2; cbv iota.
    + split; auto.
    + split; [|intros [H|H]; discriminate].
      destruct (A (problem_of mu_ r1 r2 tof_ is_prograde) =? 0); [discriminate|].
      destruct (loop _ _ _ _ _); discriminate.
Qed.

(** Comparing equal to zero: a zero of either sign. *)
Lemma eqb_zero_inv a : (a =? 0) = true -> a = 0 \/ a = -0.
Proof.
  rewrite FloatAxioms.eqb_spec. change (Prim2SF 0) with (S754_zero false).
  destruct (Prim2SF a) as [[]|[]| |[] m e] eqn:E; try discriminate; intros _;
    [right|left]; apply Prim2SF_inj; rewrite E; reflexivity.
Qed.

(** The computed norm of a vector whose coordinates are all zero is zero. *)
Lemma norm_zero_vector v :
  ((x v =? 0) && (y v =? 0) && (z v =? 0)) = true -> (norm v =? 0) = true.
Proof.
  rewrite !andb_true_iff. intros [[Hx Hy] Hz]. unfold norm.
  destruct (eqb_zero_inv _ Hx) as [-> | ->], (eqb_zero_inv _ Hy) as [-> | ->],
    (eqb_zero_inv _ Hz) as [-> | ->]; reflexivity.
Qed.

(** C7 (as amended).  [solve] throws the invalid-input error exactly when the
    norm it computes for [r1] or for [r2], [sqrt (x*x + y*y + z*z)] in
    binary64, compares equal to zero.  That is so for every vector whose
    coordinates are all zero; it is not so only for them (the counterexample
    below has a nonzero vector whose square underflows).  When the error is
    thrown, the two norms are all that has been evaluated: neither contains a
    division, and the same error is thrown whatever the library, [mu], the
    time of flight and the direction flag are.  When it is not thrown, the
    next expression evaluated is the first division of [solve], the quotient
    of line 40 by the product of the two norms. *)
Theorem invalid_input_guard L mu_ fuel r1 r2 tof_ is_prograde :
  (solve L mu_ fuel r1 r2 tof_ is_prograde = Throw InvalidInput
   <-> (norm r1 =? 0) = true \/ (norm r2 =? 0) = true)
  /\ ((((x r1 =? 0) && (y r1 =? 0) && (z r1 =? 0))
       || ((x r2 =? 0) && (y r2 =? 0) && (z r2 =? 0))) = true ->
      solve L mu_ fuel r1 r2 tof_ is_prograde = Throw InvalidInput)
  /\ (solve L mu_ fuel r1 r2 tof_ is_prograde = Throw InvalidInput ->
      Entry.entry r1 r2
      = Entry.Thrown (Entry.norm_expr r1 :: Entry.norm_expr r2 :: nil)
      /\ Entry.eval (Entry.norm_expr r1) = norm r1
      /\ Entry.eval (Entry.norm_expr r2) = norm r2
      /\ Entry.divisions (Entry.norm_expr r1) = O
      /\ Entry.divisions (Entry.norm_expr r2) = O
      /\ forall L' mu_' fuel' tof_' is_prograde',
           solve L' mu_' fuel' r1 r2 tof_' is_prograde' = Throw InvalidInput)
  /\ (solve L mu_ fuel r1 r2 tof_ is_prograde <> Throw InvalidInput ->
      exists first_division,
        Entry.entry r1 r2
        = Entry.Passed (Entry.norm_expr r1 :: Entry.norm_expr r2
                        :: first_division :: nil)
        /\ Entry.divisions first_division = 1%nat
        /\ Entry.eval first_division = dot r1 r2 / (norm r1 * norm r2)).
Proof.
  pose proof (solve_invalid_input_iff L mu_ fuel r1 r2 tof_ is_prograde) as Hiff.
  split; [exact Hiff|]. split; [|split].
  - intros H. apply Hiff. apply orb_true_iff in H.
    destruct H as [H|H]; [left|right]; apply norm_zero_vector; exact H.
  - intros H. apply Hiff in H.
    assert (Hg : (norm r1 =? 0) || (norm r2 =? 0) = true)
      by (apply orb_true_iff; exact H).
    split.
    + unfold Entry.entry.
      change (Entry.eval (Entry.norm_expr r1)) with (norm r1).
      change (Entry.eval (Entry.norm_expr r2)) with (norm r2).
      rewrite Hg. reflexivity.
    + repeat split. intros L' mu_' fuel' tof_' is_prograde'.
      apply solve_invalid_input_iff. exact H.
  - intros H.
    assert (Hg : (norm r1 =? 0) || (norm r2 =? 0) = false).
    { destruct ((norm r1 =? 0) || (norm r2 =? 0)) eqn:E; [|reflexivity].
      exfalso. apply H, Hiff. apply orb_true_iff. exact E. }
    eexists. split; [|split].
    + unfold Entry.entry.
      change (Entry.eval (Entry.norm_expr r1)) with (norm r1).
      change (Entry.eval (Entry.norm_expr r2)) with (norm r2).
      rewrite Hg. reflexivity.
    + reflexivity.
    + reflexivity.
Qed.

(** Two positions with a positive coordinate each, hence both at a positive
    distance from the origin; the computed norm of the first is zero, and
    [solve] rejects the pair. *)
Lemma invalid_input_guard_counterexample :
  (0 <? x Inputs.tiny_r) = true
  /\ (0 <? x Inputs.hello_r2) = true
  /\ norm Inputs.tiny_r = 0
  /\ (norm Inputs.hello_r2 =? 0) = false
  /\ solve SampleLibm.libm Inputs.mu_earth 10 Inputs.tiny_r Inputs.hello_r2
           Inputs.hello_tof true
     = Throw InvalidInput.
Proof. repeat split; vm_compute; reflexivity. Qed.

(** C8.  Past the two guards, [solve] returns the reconstructed velocities
    exactly when some pass within the budget of 1000 reaches the convergence
    test with [|F(z)| < 1e-8]; and it throws the non-convergence error exactly
    when 1000 passes went by without that (and without leaving the loop
    otherwise), the error then carrying the final [F], [z], [y], all assigned,
    and the inputs [r1], [r2], [tof], [is_prograde]. *)
Theorem solve_convergence L mu_ fuel r1 r2 tof_ is_prograde :
  (norm r1 =? 0) = false -> (norm r2 =? 0) = false ->
  (A_of r1 r2 is_prograde =? 0) = false ->
  let p := problem_of mu_ r1 r2 tof_ is_prograde in
  let l0 := initial_locals L r1 r2 is_prograde in
  ((exists v, solve L mu_ fuel r1 r2 tof_ is_prograde = Return v)
   <-> exists k lk, (k < max_iterations)%nat
                    /\ run L p fuel k l0 = Some lk
                    /\ (y_at L p (lz lk) <? 0) = false
                    /\ (abs (F_at L p (lz lk)) <? tolerance) = true)
  /\ (forall Fo zf yo a b c d,
        solve L mu_ fuel r1 r2 tof_ is_prograde
        = Throw (NonConvergence Fo zf yo a b c d)
        <-> exists l Fv yv,
              run L p fuel max_iterations l0 = Some l
              /\ lF l = Some Fv /\ ly l = Some yv /\ lz l = zf
              /\ Fo = Some Fv /\ yo = Some yv
              /\ a = r1 /\ b = r2 /\ c = tof_ /\ d = is_prograde).
Proof.
  intros H1 H2 HA p l0.
  rewrite (solve_past_guards L mu_ fuel r1 r2 tof_ is_prograde H1 H2 HA).
  fold p l0. split.
  - split.
    + intros [v Hv].
      destruct (loop L p fuel max_iterations l0) as [l yc|l| |] eqn:E; try discriminate.
      apply loop_converged_iff in E. destruct E as (k & lk & Hk & Hr & Hp).
      apply pass_converged_iff in Hp. destruct Hp as (Hy & HF & _).
      exists k, lk; auto.
    + intros (k & lk & Hk & Hr & Hy & HF).
      assert (E : loop L p fuel max_iterations l0
                  = LConverged {| lz := lz lk; ly := Some (y_at L p (lz lk));
                                  lF := Some (F_at L p (lz lk));
                                  iteration := S (iteration lk) |}
                               (y_at L p (lz lk))).
      { apply loop_converged_iff. exists k, lk. repeat split; auto.
        apply pass_converged_iff. auto. }
      rewrite E. eauto.
  - intros Fo zf yo a b c d. split.
    + destruct (loop L p fuel max_iterations l0) as [l yc|l| |] eqn:E; try discriminate.
      intros H; inversion H; subst.
      apply loop_exhausted_iff in E.
      destruct (run_assigned L p fuel _ l0 l E) as (Fv & yv & HF & Hy).
      exists l, Fv, yv. repeat split; auto.
    + intros (l & Fv & yv & Hr & HF & Hy & Hz & -> & -> & -> & -> & -> & ->).
      apply loop_exhausted_iff in Hr. rewrite Hr, HF, Hy, Hz. reflexivity.
Qed.

Lemma solve_convergence_witness :
  (exists v, solve SampleLibm.libm Inputs.mu_earth 10 Inputs.hello_r1
                   Inputs.hello_r2 Inputs.hello_tof true = Return v)
  <-> exists k lk,
        (k < max_iterations)%nat
        /\ run SampleLibm.libm
               (problem_of Inputs.mu_earth Inputs.hello_r1 Inputs.hello_r2
                           Inputs.hello_tof true)
               10 k (initial_locals SampleLibm.libm Inputs.hello_r1
                                    Inputs.hello_r2 true) = Some lk
        /\ (y_at SampleLibm.libm
                 (problem_of Inputs.mu_earth Inputs.hello_r1 Inputs.hello_r2
                             Inputs.hello_tof true) (lz lk) <? 0) = false
        /\ (abs (F_at SampleLibm.libm
                      (problem_of Inputs.mu_earth Inputs.hello_r1 Inputs.hello_r2
                                  Inputs.hello_tof true) (lz lk)) <? tolerance)
           = true.
Proof.
  refine (proj1 (solve_convergence SampleLibm.libm Inputs.mu_earth 10
                   Inputs.hello_r1 Inputs.hello_r2 Inputs.hello_tof true _ _ _));
    vm_compute; reflexivity.
Defined.

(** ** Determinism *)

(** Two runs of the model that both end agree, whatever fuel each was
    given. *)
Lemma solve_fuel_agree L mu_ fuel fuel' r1 r2 tof_ is_prograde :
  solve L mu_ fuel r1 r2 tof_ is_prograde <> NoFuel ->
  solve L mu_ fuel' r1 r2 tof_ is_prograde <> NoFuel ->
  solve L mu_ fuel r1 r2 tof_ is_prograde
  = solve L mu_ fuel' r1 r2 tof_ is_prograde.
Proof.
  unfold solve.
  destruct ((norm r1 =? 0) || (norm r2 =? 0)); [reflexivity|].
  destruct (A _ =? 0); [reflexivity|].
  set (p := problem_of mu_ r1 r2 tof_ is_prograde).
  set (l0 := initial_locals L r1 r2 is_prograde).
  intros Hf Hf'.
  assert (E : loop L p (Nat.max fuel fuel') max_iterations l0
              = loop L p fuel max_iterations l0).
  { apply loop_fuel_mono; [lia|].
    intros E; rewrite E in Hf; apply Hf; reflexivity. }
  assert (E' : loop L p (Nat.max fuel fuel') max_iterations l0
               = loop L p fuel' max_iterations l0).
  { apply loop_fuel_mono; [lia|].
    intros E'; rewrite E' in Hf'; apply Hf'; reflexivity. }
  rewrite <- E, E'. reflexivity.
Qed.

(** The non-convergence error is thrown after 1000 passes, and from the
    second pass on both [F] and [y] have been assigned. *)
Lemma nonconvergence_assigned L mu_ fuel r1 r2 tof_ is_prograde
      Fo zf yo a b c d :
  solve L mu_ fuel r1 r2 tof_ is_prograde
  = Throw (NonConvergence Fo zf yo a b c d) ->
  exists Fv yv, Fo = Some Fv /\ yo = Some yv.
Proof.
  unfold solve.
  destruct ((norm r1 =? 0) || (norm r2 =? 0)); [discriminate|].
  destruct (A _ =? 0); [discriminate|].
  destruct (loop L _ fuel max_iterations _) as [l yc|l| |] eqn:E;
    try discriminate.
  intros H; inversion H; subst.
  apply loop_exhausted_iff in E.
  change max_iterations with (S (S 998)) in E.
  exact (run_assigned L _ fuel _ _ l E).
Qed.

(** What the stack held in the slots of [y] and [F] never shows in the
    outcome. *)
Lemma observe_solve L s mu_ fuel r1 r2 tof_ is_prograde :
  Call.observe s (solve L mu_ fuel r1 r2 tof_ is_prograde)
  = solve L mu_ fuel r1 r2 tof_ is_prograde.
Proof.
  destruct (solve L mu_ fuel r1 r2 tof_ is_prograde) as [v|e|] eqn:E;
    try reflexivity.
  destruct e as [| | |Fo zf yo a b c d]; try reflexivity.
  destruct (nonconvergence_assigned L mu_ fuel r1 r2 tof_ is_prograde
              Fo zf yo a b c d E) as (Fv & yv & -> & ->).
  reflexivity.
Qed.

(** C9.  Call [solve] on a solver constructed with [mu], and call it again on
    the object the first call leaves, with the same [r1], [r2], time of
    flight and flag.  Let the two calls find anything at all in the stack
    slots of the uninitialised locals [y] and [F], and give the two runs of
    the model any fuel with which they end.  Then the second call ends as the
    first did: the same pair of velocities, or the same error with the same
    values in its message.  The object is left as constructed, and the
    outcome is the one [solve] computes from [mu] and the arguments alone. *)
Theorem solve_repeatable L mu_ r1 r2 tof_ is_prograde s s' fuel fuel' :
  let first := Call.call L s fuel (Call.construct mu_) r1 r2 tof_ is_prograde in
  let second := Call.call L s' fuel' (snd first) r1 r2 tof_ is_prograde in
  fst first <> NoFuel ->
  fst second <> NoFuel ->
  fst second = fst first
  /\ snd second = Call.construct mu_
  /\ fst first = solve L mu_ fuel r1 r2 tof_ is_prograde.
Proof.
  cbv zeta. cbv [Call.call Call.construct Call.mu fst snd].
  rewrite (observe_solve L s mu_ fuel r1 r2 tof_ is_prograde).
  rewrite (observe_solve L s' mu_ fuel' r1 r2 tof_ is_prograde).
  intros Hf Hf'. split; [|split; reflexivity].
  symmetry. exact (solve_fuel_agree L mu_ fuel fuel' r1 r2 tof_ is_prograde Hf Hf').
Qed.

(** The second test case of the repository, on which the sample library ends
    in the non-convergence error: two calls that find different values on the
    stack. *)
Lemma solve_repeatable_witness :
  let first :=
    Call.call SampleLibm.libm {| Call.stale_y := 1; Call.stale_F := 2 |} 10
              (Call.construct Inputs.mu_earth)
              Inputs.curtis_r1 Inputs.curtis_r2 Inputs.curtis_tof true in
  let second :=
    Call.call SampleLibm.libm {| Call.stale_y := nan; Call.stale_F := -7 |}
              2000 (snd first)
              Inputs.curtis_r1 Inputs.curtis_r2 Inputs.curtis_tof true in
  fst second = fst first
  /\ snd second = Call.construct Inputs.mu_earth
  /\ fst first
     = solve SampleLibm.libm Inputs.mu_earth 10
             Inputs.curtis_r1 Inputs.curtis_r2 Inputs.curtis_tof true.
Proof.
  apply (solve_repeatable SampleLibm.libm Inputs.mu_earth
           Inputs.curtis_r1 Inputs.curtis_r2 Inputs.curtis_tof true
           {| Call.stale_y := 1; Call.stale_F := 2 |}
           {| Call.stale_y := nan; Call.stale_F := -7 |} 10 2000);
    vm_compute; discriminate.
Defined.

(** ** The bound on [z] *)

(** C10 (as amended).  [z] starts at [-4 PI^2] or [4 PI^2].  At the start of
    every pass [|z| <= 128], and the test [|z| > 1e6] fails in that pass.  In
    a Newton pass the step subtracted from [z] is never above 10 in
    magnitude (it may be NaN) and the new [z] is the clamp of [z - step] into
    [[-4 PI^2, 4 PI^2]].  A bracketing repair starts from a [z] in that
    interval and ends between [z] and 0 when [z < 0], between 0 and [2 z]
    otherwise.  Hence [solve] never throws the error
    "z exceeded reasonable bounds.", whatever the inputs and the library. *)
Theorem z_stays_bounded L mu_ fuel r1 r2 tof_ is_prograde :
  let p := problem_of mu_ r1 r2 tof_ is_prograde in
  let l0 := initial_locals L r1 r2 is_prograde in
  (lz l0 = z_low \/ lz l0 = z_up)
  /\ (forall k l,
        run L p fuel k l0 = Some l ->
        (-128 <=? lz l) = true /\ (lz l <=? 128) = true
        /\ pass L p fuel l <> Blowup
        /\ (forall l',
              pass L p fuel l = Stepped l' ->
              (max_step <? abs (newton_step L p (lz l))) = false
              /\ lz l' = max z_low (min (lz l - newton_step L p (lz l)) z_up)
              /\ clamped (lz l'))
        /\ (forall l',
              pass L p fuel l = Repaired l' ->
              clamped (lz l)
              /\ (if lz l <? 0
                  then (lz l <=? lz l') = true /\ (lz l' <=? 0) = true
                  else (0 <=? lz l') = true /\ (lz l' <=? lz l * 2) = true)))
  /\ solve L mu_ fuel r1 r2 tof_ is_prograde <> Throw NumericalDivergence.
Proof.
  intros p l0. split; [apply initial_clamped|]. split.
  - intros k l Hr.
    pose proof (run_pass_start L p fuel k l0 l
                  (initial_pass_start L p r1 r2 is_prograde) Hr) as Hs.
    pose proof (pass_start_preserved L p fuel l Hs) as Hp.
    destruct (pass_start_small L p l Hs) as (v & Hv & Hb).
    assert (H128 : value 128 (2 ^ (7 + T))) by reflexivity.
    assert (Hm128 : value (-128) (- 2 ^ (7 + T))) by reflexivity.
    split; [rewrite (leb_value _ _ _ _ Hm128 Hv); apply Z.leb_le; lia|].
    split; [rewrite (leb_value _ _ _ _ Hv H128); apply Z.leb_le; lia|].
    split; [intros E; rewrite E in Hp; exact Hp|]. split.
    + intros l' E.
      split; [apply newton_step_limited|].
      destruct (y_at L p (lz l) <? 0) eqn:Hy.
      * rewrite pass_repair in E by exact Hy.
        destruct (bracket L p fuel _ _ _ _) as [[z1 y1]|]; discriminate.
      * rewrite pass_newton in E by exact Hy.
        destruct (abs (F_at L p (lz l)) <? tolerance); [discriminate|].
        destruct (1e6 <? _); [discriminate|].
        inversion E; subst; cbn [lz]. split; [reflexivity|apply clamp_clamped].
    + intros l' E.
      destruct (y_at L p (lz l) <? 0) eqn:Hy.
      * rewrite pass_repair in E by exact Hy.
        destruct Hs as [Hc|[_ Hn]]; [|congruence].
        split; [exact Hc|].
        destruct (bracket L p fuel _ _ _ _) as [[z1 y1]|] eqn:Hbr; [|discriminate].
        inversion E; subst; cbn [lz].
        exact (proj2 (repair_between L p fuel _ _ _ _ Hc Hbr)).
      * rewrite pass_newton in E by exact Hy.
        destruct (abs (F_at L p (lz l)) <? tolerance); [discriminate|].
        destruct (1e6 <? _); discriminate.
  - unfold solve.
    destruct ((norm r1 =? 0) || (norm r2 =? 0)); [discriminate|].
    destruct (A _ =? 0); [discriminate|].
    pose proof (loop_no_blowup L p fuel max_iterations l0
                  (initial_pass_start L p r1 r2 is_prograde)) as Hn.
    fold p l0.
    destruct (loop L p fuel max_iterations l0); try discriminate.
    congruence.
Qed.

(** C10, counterexample.  On the input of the repository's driver (with the
    sample library) the first pass is a Newton pass whose step is NaN: the
    clamp sends [z] from [4 PI^2] to [-4 PI^2], a change of about 79, not of
    at most 10. *)
Lemma z_stays_bounded_counterexample :
  let p := problem_of Inputs.mu_earth Inputs.hello_r1 Inputs.hello_r2
                      Inputs.hello_tof true in
  let l0 := initial_locals SampleLibm.libm Inputs.hello_r1 Inputs.hello_r2 true in
  exists l1,
    pass SampleLibm.libm p 10 l0 = Stepped l1
    /\ lz l0 = z_up /\ lz l1 = z_low
    /\ newton_step SampleLibm.libm p (lz l0) = nan
    /\ (max_step <? abs (lz l1 - lz l0)) = true.
Proof.
  intros p l0. eexists. split; [vm_compute; reflexivity|].
  repeat split; vm_compute; reflexivity.
Qed.

(** * Further properties of the code *)

(** ** Algebra of the binary64 operations *)

Module FloatAlgebra.

(** Rounding does not look at the sign. *)
Lemma binary_round_aux_opp s m e l :
  binary_round_aux prec emax (negb s) m e l
  = SFopp (binary_round_aux prec emax s m e l).
Proof.
  unfold binary_round_aux.
  destruct (shr_fexp prec emax m e l) as [mrs' e'].
  destruct (shr_fexp prec emax _ e' loc_Exact) as [mrs'' e''].
  destruct (shr_m mrs''); [reflexivity| |reflexivity].
  destruct (Z.leb e'' _); reflexivity.
Qed.

Lemma binary_round_aux_sign s m e l :
  match binary_round_aux prec emax s m e l with
  | S754_zero s' | S754_infinity s' | S754_finite s' _ _ => s' = s
  | S754_nan => True
  end.
Proof.
  unfold binary_round_aux.
  destruct (shr_fexp prec emax m e l) as [mrs' e'].
  destruct (shr_fexp prec emax _ e' loc_Exact) as [mrs'' e''].
  destruct (shr_m mrs''); [reflexivity| |exact I].
  destruct (Z.leb e'' _); reflexivity.
Qed.

Lemma SFmul_comm x y : SFmul prec emax x y = SFmul prec emax y x.
Proof.
  destruct x as [sx|sx| |sx mx ex], y as [sy|sy| |sy my ey]; simpl;
    try rewrite (xorb_comm sx sy); try reflexivity.
  rewrite (Pos.mul_comm mx my), (Z.add_comm ex ey). reflexivity.
Qed.

Lemma mul_comm a b : a * b = b * a.
Proof. apply Prim2SF_inj. rewrite !mul_spec. apply SFmul_comm. Qed.

Lemma SFmul_opp_l x y :
  SFmul prec emax (SFopp x) y = SFopp (SFmul prec emax x y).
Proof.
  destruct x as [sx|sx| |sx mx ex], y as [sy|sy| |sy my ey];
    try (try destruct sx; try destruct sy; reflexivity).
  cbn [SFopp SFmul]. rewrite <- binary_round_aux_opp.
  destruct sx, sy; reflexivity.
Qed.

Lemma mul_opp_l a b : (- a) * b = - (a * b).
Proof. apply Prim2SF_inj. rewrite opp_spec, !mul_spec, opp_spec. apply SFmul_opp_l. Qed.

Lemma mul_opp_r a b : a * (- b) = - (a * b).
Proof. rewrite (mul_comm a (- b)), mul_opp_l, (mul_comm b a). reflexivity. Qed.

Lemma opp_involutive a : - - a = a.
Proof.
  apply Prim2SF_inj. rewrite !opp_spec.
  destruct (Prim2SF a) as [[]|[]| |[] m e]; reflexivity.
Qed.

Lemma opp_nan : - nan = nan.
Proof. reflexivity. Qed.

Lemma SFdiv_opp_l x y :
  SFdiv prec emax (SFopp x) y = SFopp (SFdiv prec emax x y).
Proof.
  destruct x as [sx|sx| |sx mx ex], y as [sy|sy| |sy my ey];
    try (try destruct sx; try destruct sy; reflexivity).
  cbn [SFopp SFdiv].
  destruct (SFdiv_core_binary prec emax (Z.pos mx) ex (Z.pos my) ey) as [[mz ez] lz].
  rewrite <- binary_round_aux_opp. destruct sx, sy; reflexivity.
Qed.

Lemma div_opp_l a b : (- a) / b = - (a / b).
Proof. apply Prim2SF_inj. rewrite opp_spec, !div_spec, opp_spec. apply SFdiv_opp_l. Qed.


Lemma binary_round_opp s m e :
  binary_round prec emax (negb s) m e = SFopp (binary_round prec emax s m e).
Proof.
  unfold binary_round.
  destruct (shl_align m e _) as [mz ez]. apply binary_round_aux_opp.
Qed.

Lemma binary_normalize_opp m e :
  m <> 0%Z ->
  binary_normalize prec emax (- m) e false
  = SFopp (binary_normalize prec emax m e false).
Proof.
  destruct m as [|p|p]; [congruence| |]; intros _; cbn [Z.opp binary_normalize].
  - apply (binary_round_opp false).
  - rewrite <- (binary_round_opp true). reflexivity.
Qed.

(** [y - x] is the opposite of [x - y], unless both are [+0]. *)
Lemma SFsub_swap x y :
  SFsub prec emax y x = SFopp (SFsub prec emax x y)
  \/ (SFsub prec emax x y = S754_zero false
      /\ SFsub prec emax y x = S754_zero false).
Proof.
  destruct x as [sx|sx| |sx mx ex], y as [sy|sy| |sy my ey];
    try (try destruct sx; try destruct sy; cbn; auto; fail).
  cbn [SFsub]. rewrite (Z.min_comm ey ex).
  set (a := cond_Zopp sx _). set (b := cond_Zopp sy _).
  destruct (Z.eq_dec (a - b) 0) as [E|E].
  - right. replace (b - a)%Z with 0%Z by lia. rewrite E. auto.
  - left. replace (b - a)%Z with (- (a - b))%Z by lia.
    apply binary_normalize_opp. exact E.
Qed.

Lemma abs_sub_swap a b : abs (a - b) = abs (b - a).
Proof.
  apply Prim2SF_inj. rewrite !abs_spec, !sub_spec. unfold SF64sub.
  destruct (SFsub_swap (Prim2SF a) (Prim2SF b)) as [-> | [-> ->]];
    [|reflexivity].
  destruct (SFsub prec emax (Prim2SF a) (Prim2SF b)); reflexivity.
Qed.

Lemma SFmul_opp_opp x : SFmul prec emax (SFopp x) (SFopp x) = SFmul prec emax x x.
Proof. destruct x as [[]|[]| |[] m e]; reflexivity. Qed.

(** The square of a difference does not depend on its direction. *)
Lemma sub_swap_sq a b : (b - a) * (b - a) = (a - b) * (a - b).
Proof.
  apply Prim2SF_inj. rewrite !mul_spec, !sub_spec. unfold SF64mul, SF64sub.
  destruct (SFsub_swap (Prim2SF a) (Prim2SF b)) as [-> | [-> ->]];
    [apply SFmul_opp_opp | reflexivity].
Qed.

(** [x - x] is [+0] for a finite [x], NaN otherwise. *)
Lemma sub_self x : x - x = 0 \/ x - x = nan.
Proof.
  assert (H : SFsub prec emax (Prim2SF x) (Prim2SF x) = S754_zero false
              \/ SFsub prec emax (Prim2SF x) (Prim2SF x) = S754_nan).
  { destruct (Prim2SF x) as [[]|[]| |s m e]; cbn [SFsub]; auto.
    rewrite Z.sub_diag. auto. }
  destruct H as [H|H]; [left|right]; apply Prim2SF_inj; rewrite sub_spec; unfold SF64sub; rewrite H;
    reflexivity.
Qed.


(** *** Zeros and NaN *)

Lemma zero_or_nan_spec a : zero_or_nan a <-> SFzero_or_nan (Prim2SF a).
Proof.
  split.
  - intros [-> | [-> | ->]]; exact I.
  - destruct (Prim2SF a) as [[]| | |] eqn:E; try contradiction; intros _;
      [right; left|left|right; right]; apply Prim2SF_inj; rewrite E; reflexivity.
Qed.

Lemma zero_or_nan_mul_l a b : zero_or_nan a -> zero_or_nan (a * b).
Proof.
  zn_spec zero_or_nan_spec.
  destruct (Prim2SF a) as [sa|sa| |sa ma ea]; try contradiction; intros _;
    destruct (Prim2SF b); exact I.
Qed.

Lemma zero_or_nan_div_l a b : zero_or_nan a -> zero_or_nan (a / b).
Proof.
  zn_spec zero_or_nan_spec.
  destruct (Prim2SF a) as [sa|sa| |sa ma ea]; try contradiction; intros _;
    destruct (Prim2SF b); exact I.
Qed.

Lemma zero_or_nan_opp a : zero_or_nan a -> zero_or_nan (- a).
Proof.
  zn_spec zero_or_nan_spec. destruct (Prim2SF a); try contradiction; intros _; exact I.
Qed.

Lemma zero_or_nan_sqrt a : zero_or_nan a -> zero_or_nan (sqrt a).
Proof.
  zn_spec zero_or_nan_spec. destruct (Prim2SF a); try contradiction; intros _; exact I.
Qed.

Lemma zero_or_nan_add a b :
  zero_or_nan a -> zero_or_nan b -> zero_or_nan (a + b).
Proof.
  zn_spec zero_or_nan_spec.
  destruct (Prim2SF a) as [[]| | |]; try contradiction; intros _;
    destruct (Prim2SF b) as [[]| | |]; try contradiction; intros _; exact I.
Qed.

Lemma zero_or_nan_sub_self a : zero_or_nan (a - a).
Proof. destruct (sub_self a) as [-> | ->]; [left|right; right]; reflexivity. Qed.

(** A zero compares equal to zero; NaN does not. *)
Lemma zero_or_nan_eqb a : zero_or_nan a -> (a =? 0) = true \/ a = nan.
Proof. intros [-> | [-> | ->]]; auto. Qed.

(** *** Square roots *)

Lemma sqrt_not_neg a : (sqrt a <? 0) = false.
Proof.
  rewrite ltb_spec, sqrt_spec. unfold SF64sqrt, SFsqrt.
  destruct (Prim2SF a) as [[]|[]| |[] m e]; try reflexivity.
  destruct (SFsqrt_core_binary prec emax (Z.pos m) e) as [[mz ez] lz].
  pose proof (binary_round_aux_sign false mz ez lz) as H.
  destruct (binary_round_aux prec emax false mz ez lz); try subst; reflexivity.
Qed.

Lemma sqrt_nan_or_nonneg a : sqrt a = nan \/ (0 <=? sqrt a) = true.
Proof.
  destruct (Prim2SF (sqrt a)) as [s|s| |s m e] eqn:E.
  - right. rewrite leb_spec, E. reflexivity.
  - right. pose proof (sqrt_not_neg a) as H. rewrite ltb_spec, E in H.
    rewrite leb_spec, E. destruct s; [discriminate|reflexivity].
  - left. apply Prim2SF_inj. rewrite E. reflexivity.
  - right. pose proof (sqrt_not_neg a) as H. rewrite ltb_spec, E in H.
    rewrite leb_spec, E. destruct s; [discriminate|reflexivity].
Qed.

Lemma sqrt_neg a : (a <? 0) = true -> sqrt a = nan.
Proof.
  rewrite ltb_spec. intros H. apply Prim2SF_inj. rewrite sqrt_spec.
  unfold SF64sqrt, SFsqrt.
  destruct (Prim2SF a) as [[]|[]| |[] m e]; try discriminate; reflexivity.
Qed.

End FloatAlgebra.

Import FloatAlgebra.

(** ** The vector helpers [dot], [cross] and [norm] *)

(** X1.  [dot] is commutative, exactly: the products are the same binary64
    numbers and they are added in the same order.  Hence the clamped cosine
    of the transfer angle does not depend on the order of the endpoints. *)
Theorem dot_commutes a b :
  dot a b = dot b a /\ cos_dtheta_of a b = cos_dtheta_of b a.
Proof.
  assert (H : dot a b = dot b a).
  { unfold dot.
    rewrite (mul_comm (x a)), (mul_comm (y a)), (mul_comm (z a)). reflexivity. }
  split; [exact H|].
  unfold cos_dtheta_of. rewrite H, (mul_comm (norm a)). reflexivity.
Qed.

(** X2.  Swapping the arguments of [cross] changes each component at most
    in its sign, and leaves the norm of the product unchanged. *)
Theorem cross_swap a b :
  abs (x (cross b a)) = abs (x (cross a b))
  /\ abs (y (cross b a)) = abs (y (cross a b))
  /\ abs (z (cross b a)) = abs (z (cross a b))
  /\ norm (cross b a) = norm (cross a b).
Proof.
  assert (Hx : x (cross b a) = z a * y b - y a * z b)
    by (cbn; rewrite (mul_comm (y b)), (mul_comm (z b)); reflexivity).
  assert (Hy : y (cross b a) = x a * z b - z a * x b)
    by (cbn; rewrite (mul_comm (z b)), (mul_comm (x b)); reflexivity).
  assert (Hz : z (cross b a) = y a * x b - x a * y b)
    by (cbn; rewrite (mul_comm (x b)), (mul_comm (y b)); reflexivity).
  repeat split.
  - rewrite Hx. apply abs_sub_swap.
  - rewrite Hy. apply abs_sub_swap.
  - rewrite Hz. apply abs_sub_swap.
  - unfold norm. rewrite Hx, Hy, Hz. cbn [cross x y z].
    rewrite (sub_swap_sq (y a * z b)), (sub_swap_sq (z a * x b)),
      (sub_swap_sq (x a * y b)).
    reflexivity.
Qed.

Lemma cross_self_components a :
  zero_or_nan (x (cross a a)) /\ zero_or_nan (y (cross a a))
  /\ zero_or_nan (z (cross a a)).
Proof.
  cbn [cross x y z].
  rewrite (mul_comm (z a) (y a)), (mul_comm (x a) (z a)), (mul_comm (y a) (x a)).
  repeat split; apply zero_or_nan_sub_self.
Qed.

Lemma norm_zero_or_nan v :
  zero_or_nan (x v) -> zero_or_nan (y v) -> zero_or_nan (z v) ->
  zero_or_nan (norm v).
Proof.
  intros Hx Hy Hz. unfold norm.
  apply zero_or_nan_sqrt.
  repeat apply zero_or_nan_add; apply zero_or_nan_mul_l; assumption.
Qed.

Lemma norm_cross_self a : zero_or_nan (norm (cross a a)).
Proof. apply norm_zero_or_nan; apply cross_self_components. Qed.

(** X3.  Each component of [cross(a, a)] is [+0], or NaN when a product of
    two coordinates of [a] overflows or is NaN; the norm of [cross(a, a)] is
    a zero or NaN. *)
Theorem cross_self a :
  (x (cross a a) = 0 \/ x (cross a a) = nan)
  /\ (y (cross a a) = 0 \/ y (cross a a) = nan)
  /\ (z (cross a a) = 0 \/ z (cross a a) = nan)
  /\ zero_or_nan (norm (cross a a)).
Proof.
  split; [|split; [|split]].
  - cbn [cross x]. rewrite (mul_comm (z a) (y a)). apply sub_self.
  - cbn [cross y]. rewrite (mul_comm (x a) (z a)). apply sub_self.
  - cbn [cross z]. rewrite (mul_comm (y a) (x a)). apply sub_self.
  - apply norm_cross_self.
Qed.

(** X4.  [norm] never returns a negative number: its result is NaN or
    compares greater than or equal to zero. *)
Theorem norm_not_negative v :
  (norm v <? 0) = false /\ (norm v = nan \/ (0 <=? norm v) = true).
Proof.
  unfold norm. split; [apply sqrt_not_neg | apply sqrt_nan_or_nonneg].
Qed.

(** ** The geometry step *)

Lemma clamp_unit c :
  (-1.0 <=? max (-1.0) (min 1.0 c)) = true
  /\ (max (-1.0) (min 1.0 c) <=? 1.0) = true.
Proof.
  unfold max, min.
  destruct (c <? 1.0) eqn:E1.
  - destruct (-1.0 <? c) eqn:E2.
    + split; apply ltb_leb; assumption.
    + split; reflexivity.
  - change (-1.0 <? 1.0) with true. cbv iota. split; reflexivity.
Qed.

Lemma value_one : value 1 (2 ^ (0 + T)).
Proof. reflexivity. Qed.

Lemma value_minus_one : value (-1) (- 2 ^ (0 + T)).
Proof. reflexivity. Qed.

Lemma value_two : value 2 (2 ^ (1 + T)).
Proof. reflexivity. Qed.

(** X5.  After the clamp, [cos_dtheta] lies in [[-1, 1]] for every pair of
    vectors: a quotient that is NaN is replaced by 1.  The denominator
    [1 - cos_dtheta] of the transfer parameter therefore lies in [[0, 2]]: it
    is never negative and never NaN. *)
Theorem cos_dtheta_clamped r1 r2 :
  (-1 <=? cos_dtheta_of r1 r2) = true
  /\ (cos_dtheta_of r1 r2 <=? 1) = true
  /\ (0 <=? 1 - cos_dtheta_of r1 r2) = true
  /\ (1 - cos_dtheta_of r1 r2 <=? 2) = true.
Proof.
  unfold cos_dtheta_of.
  set (c := dot r1 r2 / (norm r1 * norm r2)).
  destruct (clamp_unit c) as [H1 H2].
  split; [exact H1|]. split; [exact H2|].
  destruct (between_value (-1) 1 _ _ _ value_minus_one value_one H1 H2)
    as (v & Hv & Hb).
  assert (P : (2 ^ (1 + T) = 2 * 2 ^ (0 + T))%Z) by reflexivity.
  assert (P0 : (0 < 2 ^ (0 + T))%Z) by reflexivity.
  destruct (sub_value 1 _ _ v (2 ^ (1 + T))%Z value_one Hv
              (pow2_is_bound 1 ltac:(lia)) ltac:(lia)) as (d & Hd & Bd & Pd & _).
  rewrite (leb_value 0 _ 0 d value_zero Hd), (leb_value _ 2 d _ Hd value_two).
  split; apply Z.leb_le; lia.
Qed.

Lemma not_ltb_not_leb_nan a b :
  (a <? b) = false -> (b <=? a) = false -> a = nan \/ b = nan.
Proof.
  rewrite ltb_spec, leb_spec. unfold SFltb, SFleb.
  rewrite (Order.SFcompare_antisym (Prim2SF a) (Prim2SF b)).
  destruct (SFcompare (Prim2SF a) (Prim2SF b)) as [[]|] eqn:E; simpl;
    try discriminate.
  intros _ _. destruct (SFcompare_None _ _ E) as [N|N];
    [left|right]; apply Prim2SF_nan_inv; exact N.
Qed.

Lemma ltb_not_leb a b : (a <? b) = true -> (b <=? a) = false.
Proof.
  rewrite ltb_spec, leb_spec. unfold SFltb, SFleb.
  rewrite (Order.SFcompare_antisym (Prim2SF a) (Prim2SF b)).
  destruct (SFcompare (Prim2SF a) (Prim2SF b)) as [[]|]; simpl; congruence.
Qed.

Lemma norm_nan_z v : z v = nan -> norm v = nan.
Proof.
  intros H. unfold norm. rewrite H. autorewrite with nan. reflexivity.
Qed.

(** X6.  The direction flag only changes a sign: the sine of the transfer
    angle and the transfer parameter [A] of the prograde problem are the
    opposites of those of the retrograde problem, for every pair of vectors
    (when [cross(r1, r2).z] is NaN no sign is flipped, and both are NaN). *)
Theorem direction_flag_negates r1 r2 :
  sin_dtheta_of r1 r2 true = - sin_dtheta_of r1 r2 false
  /\ A_of r1 r2 true = - A_of r1 r2 false.
Proof.
  assert (H : sin_dtheta_of r1 r2 true = - sin_dtheta_of r1 r2 false).
  { unfold sin_dtheta_of, flips.
    destruct (z (cross r1 r2) <? 0) eqn:E1.
    - rewrite (ltb_not_leb _ _ E1). reflexivity.
    - destruct (0 <=? z (cross r1 r2)) eqn:E2.
      + rewrite opp_involutive. reflexivity.
      + destruct (not_ltb_not_leb_nan _ _ E1 E2) as [N|N]; [|discriminate].
        rewrite (norm_nan_z _ N). autorewrite with nan. reflexivity. }
  split; [exact H|].
  unfold A_of. rewrite H. apply mul_opp_l.
Qed.

(** X7.  At a NaN argument both Stumpff functions return NaN, whatever the
    library functions return: the hyperbolic branch is taken and its
    quotient has a NaN operand. *)
Theorem stumpff_nan L :
  stumpff_C L nan = nan /\ stumpff_S L nan = nan.
Proof.
  unfold stumpff_C, stumpff_S.
  change (abs nan <? 1e-6) with false. change (0 <? nan) with false. cbv iota.
  change (- nan) with nan. autorewrite with nan. split; reflexivity.
Qed.

(** ** How [solve] fails *)

(** X8.  [solve] throws the "Cannot compute A." error exactly when the two
    norms are nonzero and
    [A = sin_dtheta * sqrt(r1_norm * r2_norm / (1 - cos_dtheta))] compares
    equal to zero; the iteration never throws it. *)
Theorem solve_degenerate_iff L mu_ fuel r1 r2 tof_ is_prograde :
  solve L mu_ fuel r1 r2 tof_ is_prograde = Throw DegenerateGeometry
  <-> (norm r1 =? 0) = false /\ (norm r2 =? 0) = false
      /\ (sin_dtheta_of r1 r2 is_prograde
          * sqrt (norm r1 * norm r2 / (1 - cos_dtheta_of r1 r2)) =? 0) = true.
Proof.
  change (sin_dtheta_of r1 r2 is_prograde
          * sqrt (norm r1 * norm r2 / (1 - cos_dtheta_of r1 r2)))
    with (A_of r1 r2 is_prograde).
  unfold solve.
  destruct (norm r1 =? 0); cbn [orb];
    [split; [discriminate | intros (H & _); discriminate]|].
  destruct (norm r2 =? 0);
    [split; [discriminate | intros (_ & H & _); discriminate]|].
  change (A (problem_of mu_ r1 r2 tof_ is_prograde)) with (A_of r1 r2 is_prograde).
  destruct (A_of r1 r2 is_prograde =? 0); [split; auto|].
  split; [|intros (_ & _ & H); discriminate].
  destruct (loop _ _ _ _ _); discriminate.
Qed.

Lemma solve_nan_A L mu_ fuel r1 r2 tof_ is_prograde :
  (norm r1 =? 0) = false -> (norm r2 =? 0) = false ->
  A_of r1 r2 is_prograde = nan ->
  solve L mu_ fuel r1 r2 tof_ is_prograde
  = Throw (NonConvergence (Some nan) z_low (Some nan) r1 r2 tof_ is_prograde).
Proof.
  intros H1 H2 HA.
  rewrite solve_past_guards; [ | exact H1 | exact H2 | rewrite HA; reflexivity ].
  change max_iterations with (S 999).
  rewrite loop_nan by exact HA. reflexivity.
Qed.

(** X9.  When both norms are nonzero and the transfer parameter [A] is NaN,
    the guard [A == 0] does not fire; every one of the 1000 passes is a
    Newton pass on NaN, and [solve] throws the non-convergence error with
    [F = NaN], [y = NaN] and [z = -4 PI^2]. *)
Theorem solve_nan_transfer L mu_ fuel r1 r2 tof_ is_prograde :
  (norm r1 =? 0) = false -> (norm r2 =? 0) = false ->
  A_of r1 r2 is_prograde = nan ->
  solve L mu_ fuel r1 r2 tof_ is_prograde
  = Throw (NonConvergence (Some nan) z_low (Some nan) r1 r2 tof_ is_prograde)
  /\ exists l,
       run L (problem_of mu_ r1 r2 tof_ is_prograde) fuel max_iterations
           (initial_locals L r1 r2 is_prograde) = Some l
       /\ iteration l = max_iterations.
Proof.
  intros H1 H2 HA. split; [apply solve_nan_A; assumption|].
  pose proof (loop_nan L (problem_of mu_ r1 r2 tof_ is_prograde) HA fuel 999
                (initial_locals L r1 r2 is_prograde)) as Hl.
  apply loop_exhausted_iff in Hl. eexists. split; [exact Hl|]. reflexivity.
Qed.

Lemma solve_nan_transfer_witness :
  solve SampleLibm.libm Inputs.mu_earth 10 Inputs.same_r Inputs.same_r 3600 true
  = Throw (NonConvergence (Some nan) z_low (Some nan) Inputs.same_r Inputs.same_r
                          3600 true)
  /\ exists l,
       run SampleLibm.libm
           (problem_of Inputs.mu_earth Inputs.same_r Inputs.same_r 3600 true)
           10 max_iterations
           (initial_locals SampleLibm.libm Inputs.same_r Inputs.same_r true)
       = Some l
       /\ iteration l = max_iterations.
Proof.
  apply (solve_nan_transfer SampleLibm.libm Inputs.mu_earth 10 Inputs.same_r
           Inputs.same_r 3600 true); vm_compute; reflexivity.
Defined.

Lemma norm_has_nan v : has_nan v -> norm v = nan.
Proof.
  unfold norm. intros [H|[H|H]]; rewrite H; autorewrite with nan; reflexivity.
Qed.

Lemma A_has_nan r1 r2 is_prograde :
  has_nan r1 \/ has_nan r2 -> A_of r1 r2 is_prograde = nan.
Proof.
  intros H. unfold A_of, sin_dtheta_of.
  assert (N : norm r1 * norm r2 = nan).
  { destruct H as [H|H]; rewrite (norm_has_nan _ H); autorewrite with nan;
      reflexivity. }
  rewrite N. autorewrite with nan.
  destruct (flips r1 r2 is_prograde); [change (- nan) with nan|];
    autorewrite with nan; reflexivity.
Qed.

(** X10.  A NaN coordinate in [r1] or [r2] is not rejected as invalid input
    (unless the other vector has norm zero): [solve] runs out its budget and
    throws the non-convergence error. *)
Theorem solve_nan_coordinate L mu_ fuel r1 r2 tof_ is_prograde :
  has_nan r1 \/ has_nan r2 ->
  solve L mu_ fuel r1 r2 tof_ is_prograde
  = if (norm r1 =? 0) || (norm r2 =? 0) then Throw InvalidInput
    else Throw (NonConvergence (Some nan) z_low (Some nan) r1 r2 tof_ is_prograde).
Proof.
  intros H.
  destruct (norm r1 =? 0) eqn:H1; [unfold solve; rewrite H1; reflexivity|].
  destruct (norm r2 =? 0) eqn:H2;
    [unfold solve; rewrite H1, H2; reflexivity|].
  cbn [orb]. apply solve_nan_A; auto using A_has_nan.
Qed.

Lemma solve_nan_coordinate_witness :
  solve SampleLibm.libm Inputs.mu_earth 10
        {| x := nan; y := 0; z := 0 |} Inputs.hello_r2 3600 true
  = Throw (NonConvergence (Some nan) z_low (Some nan)
                          {| x := nan; y := 0; z := 0 |} Inputs.hello_r2 3600 true).
Proof.
  apply (solve_nan_coordinate SampleLibm.libm Inputs.mu_earth 10
           {| x := nan; y := 0; z := 0 |} Inputs.hello_r2 3600 true).
  left. left. reflexivity.
Defined.

Lemma A_identical r is_prograde : zero_or_nan (A_of r r is_prograde).
Proof.
  unfold A_of, sin_dtheta_of.
  apply zero_or_nan_mul_l.
  assert (H : zero_or_nan (norm (cross r r) / (norm r * norm r)))
    by (apply zero_or_nan_div_l, norm_cross_self).
  destruct (flips r r is_prograde); [apply zero_or_nan_opp|]; exact H.
Qed.

(** X11.  With identical endpoints of nonzero norm [solve] never returns and
    never enters the bracketing loop: [A] is a zero or NaN, so the call ends
    with the "Cannot compute A." error or, when [A] is NaN, with the
    non-convergence error, for every vector, library, [mu], time of flight
    and flag. *)
Theorem solve_identical_endpoints L mu_ fuel r tof_ is_prograde :
  (norm r =? 0) = false ->
  solve L mu_ fuel r r tof_ is_prograde = Throw DegenerateGeometry
  \/ solve L mu_ fuel r r tof_ is_prograde
     = Throw (NonConvergence (Some nan) z_low (Some nan) r r tof_ is_prograde).
Proof.
  intros H.
  destruct (zero_or_nan_eqb _ (A_identical r is_prograde)) as [E|E].
  - left. unfold solve. rewrite H. cbn [orb].
    change (A (problem_of mu_ r r tof_ is_prograde)) with (A_of r r is_prograde).
    rewrite E. reflexivity.
  - right. apply solve_nan_A; assumption.
Qed.

Lemma solve_identical_endpoints_witness :
  solve SampleLibm.libm Inputs.mu_earth 10 Inputs.hello_r1 Inputs.hello_r1 3600 true
  = Throw DegenerateGeometry
  \/ solve SampleLibm.libm Inputs.mu_earth 10 Inputs.hello_r1 Inputs.hello_r1 3600
           true
     = Throw (NonConvergence (Some nan) z_low (Some nan) Inputs.hello_r1
                             Inputs.hello_r1 3600 true).
Proof.
  apply (solve_identical_endpoints SampleLibm.libm Inputs.mu_earth 10
           Inputs.hello_r1 3600 true).
  vm_compute. reflexivity.
Defined.

Lemma A_collinear r1 r2 is_prograde :
  zero_or_nan (norm (cross r1 r2)) -> zero_or_nan (A_of r1 r2 is_prograde).
Proof.
  intros H. unfold A_of, sin_dtheta_of.
  apply zero_or_nan_mul_l.
  assert (H' : zero_or_nan (norm (cross r1 r2) / (norm r1 * norm r2)))
    by (apply zero_or_nan_div_l, H).
  destruct (flips r1 r2 is_prograde); [apply zero_or_nan_opp|]; exact H'.
Qed.

(** X12.  The same holds of any two endpoints whose computed cross product
    has norm zero or NaN (collinear endpoints, a transfer of 0 or 180
    degrees). *)
Theorem solve_collinear L mu_ fuel r1 r2 tof_ is_prograde :
  (norm r1 =? 0) = false -> (norm r2 =? 0) = false ->
  zero_or_nan (norm (cross r1 r2)) ->
  solve L mu_ fuel r1 r2 tof_ is_prograde = Throw DegenerateGeometry
  \/ solve L mu_ fuel r1 r2 tof_ is_prograde
     = Throw (NonConvergence (Some nan) z_low (Some nan) r1 r2 tof_ is_prograde).
Proof.
  intros H1 H2 H.
  destruct (zero_or_nan_eqb _ (A_collinear r1 r2 is_prograde H)) as [E|E].
  - left. unfold solve. rewrite H1, H2. cbn [orb].
    change (A (problem_of mu_ r1 r2 tof_ is_prograde))
      with (A_of r1 r2 is_prograde).
    rewrite E. reflexivity.
  - right. apply solve_nan_A; assumption.
Qed.

Lemma solve_collinear_witness :
  solve SampleLibm.libm Inputs.mu_earth 10 Inputs.same_r
        {| x := -7000; y := 0; z := 0 |} 3600 true
  = Throw DegenerateGeometry
  \/ solve SampleLibm.libm Inputs.mu_earth 10 Inputs.same_r
           {| x := -7000; y := 0; z := 0 |} 3600 true
     = Throw (NonConvergence (Some nan) z_low (Some nan) Inputs.same_r
                             {| x := -7000; y := 0; z := 0 |} 3600 true).
Proof.
  apply (solve_collinear SampleLibm.libm Inputs.mu_earth 10 Inputs.same_r
           {| x := -7000; y := 0; z := 0 |} 3600 true);
    [vm_compute; reflexivity | vm_compute; reflexivity | left; reflexivity].
Defined.

(** ** When [solve] returns *)

(** *** Numbers that are not finite *)

Lemma not_finite_spec a : not_finite a <-> SFnot_finite (Prim2SF a).
Proof.
  unfold not_finite. split.
  - intros [-> | H]; [exact I|].
    assert (E : Prim2SF (abs a) = S754_infinity false) by (rewrite H; reflexivity).
    rewrite abs_spec in E. destruct (Prim2SF a); try discriminate; exact I.
  - destruct (Prim2SF a) as [s|s| |s m e] eqn:E; try contradiction; intros _.
    + right. apply Prim2SF_inj. rewrite abs_spec, E. reflexivity.
    + left. apply Prim2SF_inj. rewrite E. reflexivity.
Qed.

Lemma not_finite_mul_l a b : not_finite a -> not_finite (a * b).
Proof.
  rewrite !not_finite_spec, mul_spec. unfold SF64mul.
  destruct (Prim2SF a); try contradiction; intros _;
    destruct (Prim2SF b); exact I.
Qed.

Lemma not_finite_mul_r a b : not_finite b -> not_finite (a * b).
Proof. rewrite (mul_comm a b). apply not_finite_mul_l. Qed.

Lemma not_finite_sub_r a b : not_finite b -> not_finite (a - b).
Proof.
  rewrite !not_finite_spec, sub_spec. unfold SF64sub.
  destruct (Prim2SF b) as [s|s| |s m e]; try contradiction; intros _;
    destruct (Prim2SF a) as [s'|[]| |s' m' e']; try destruct s; exact I.
Qed.

Lemma sqrt_not_finite a :
  (a <? 0) = true \/ not_finite a -> not_finite (sqrt a).
Proof.
  intros [H|H].
  - rewrite (sqrt_neg a H). left. reflexivity.
  - revert H. rewrite !not_finite_spec, sqrt_spec. unfold SF64sqrt.
    destruct (Prim2SF a) as [s|[]| |s m e]; try contradiction; intros _; exact I.
Qed.

(** Nothing that is not finite is below a number in magnitude. *)
Lemma not_finite_abs_ltb a c : not_finite a -> (abs a <? c) = false.
Proof.
  rewrite not_finite_spec, ltb_spec, abs_spec.
  destruct (Prim2SF a); try contradiction; intros _;
    destruct (Prim2SF c) as [|[]| |[] ? ?]; reflexivity.
Qed.

Lemma solve_return_inv L mu_ fuel r1 r2 tof_ is_prograde v :
  solve L mu_ fuel r1 r2 tof_ is_prograde = Return v ->
  let p := problem_of mu_ r1 r2 tof_ is_prograde in
  (norm r1 =? 0) = false /\ (norm r2 =? 0) = false
  /\ (A_of r1 r2 is_prograde =? 0) = false
  /\ exists k lk,
       (k < max_iterations)%nat
       /\ run L p fuel k (initial_locals L r1 r2 is_prograde) = Some lk
       /\ (y_at L p (lz lk) <? 0) = false
       /\ (abs (F_at L p (lz lk)) <? tolerance) = true
       /\ v = velocities p r1 r2 (y_at L p (lz lk)).
Proof.
  intros H p. unfold solve in H.
  destruct (norm r1 =? 0); [discriminate|].
  destruct (norm r2 =? 0); [discriminate|]. cbn [orb] in H.
  change (A (problem_of mu_ r1 r2 tof_ is_prograde))
    with (A_of r1 r2 is_prograde) in H.
  destruct (A_of r1 r2 is_prograde =? 0); [discriminate|].
  repeat (split; [reflexivity|]).
  fold p in H.
  destruct (loop L p fuel max_iterations _) as [l yc|l| |] eqn:E;
    try discriminate.
  inversion H; subst v; clear H.
  apply loop_converged_iff in E. destruct E as (k & lk & Hk & Hr & Hp).
  apply pass_converged_iff in Hp. destruct Hp as (Hy & HF & -> & _).
  exists k, lk. auto.
Qed.

(** X13.  [solve] returns no velocities when [mu] is negative, or when [mu]
    or the time of flight is NaN or infinite: [sqrt(mu) * tof] is then NaN
    or infinite, so is the residual [F], and the test [|F| < 1e-8] never
    succeeds. *)
Theorem solve_needs_finite_mu_tof L mu_ fuel r1 r2 tof_ is_prograde v :
  (mu_ <? 0) = true \/ not_finite mu_ \/ not_finite tof_ ->
  solve L mu_ fuel r1 r2 tof_ is_prograde <> Return v.
Proof.
  intros H E. apply solve_return_inv in E.
  destruct E as (_ & _ & _ & k & lk & _ & _ & _ & HF & _).
  rewrite not_finite_abs_ltb in HF; [discriminate|].
  unfold F_at. apply not_finite_sub_r. cbn [mu tof problem_of].
  destruct H as [H|[H|H]].
  - apply not_finite_mul_l, sqrt_not_finite. auto.
  - apply not_finite_mul_l, sqrt_not_finite. auto.
  - apply not_finite_mul_r. exact H.
Qed.

Lemma solve_needs_finite_mu_tof_witness :
  solve SampleLibm.libm (-1) 10 Inputs.hello_r1 Inputs.hello_r2 3600 true
  <> Return (Inputs.hello_r1, Inputs.hello_r2).
Proof.
  apply (solve_needs_finite_mu_tof SampleLibm.libm (-1) 10 Inputs.hello_r1
           Inputs.hello_r2 3600 true).
  left. reflexivity.
Defined.

Lemma run_range L mu_ fuel r1 r2 tof_ is_prograde k l :
  run L (problem_of mu_ r1 r2 tof_ is_prograde) fuel k
      (initial_locals L r1 r2 is_prograde) = Some l ->
  (-128 <=? lz l) = true /\ (lz l <=? 128) = true.
Proof.
  intros Hr.
  pose proof (run_pass_start L _ fuel k _ l
                (initial_pass_start L _ r1 r2 is_prograde) Hr) as Hs.
  destruct (pass_start_small L _ l Hs) as (v & Hv & Hb).
  assert (H128 : value 128 (2 ^ (7 + T))) by reflexivity.
  assert (Hm128 : value (-128) (- 2 ^ (7 + T))) by reflexivity.
  rewrite (leb_value _ _ _ _ Hm128 Hv), (leb_value _ _ _ _ Hv H128).
  split; apply Z.leb_le; lia.
Qed.

(** X14.  What holds when [solve] returns: both norms and [A] are nonzero,
    and the velocities are reconstructed from [y = y(z)] at a [z] in
    [[-128, 128]] at which [y] is not negative and not NaN (so [sqrt(y / mu)]
    is not taken of a negative [y]) and [|F(z)| < 1e-8]. *)
Theorem solve_return_postcondition L mu_ fuel r1 r2 tof_ is_prograde v :
  solve L mu_ fuel r1 r2 tof_ is_prograde = Return v ->
  let p := problem_of mu_ r1 r2 tof_ is_prograde in
  (norm r1 =? 0) = false /\ (norm r2 =? 0) = false
  /\ (A_of r1 r2 is_prograde =? 0) = false
  /\ exists zc,
       (-128 <=? zc) = true /\ (zc <=? 128) = true
       /\ (0 <=? y_at L p zc) = true
       /\ (abs (F_at L p zc) <? tolerance) = true
       /\ v = velocities p r1 r2 (y_at L p zc).
Proof.
  intros H p. apply solve_return_inv in H. fold p in H.
  destruct H as (H1 & H2 & HA & k & lk & Hk & Hr & Hy & HF & Hv).
  repeat (split; [assumption|]).
  exists (lz lk).
  destruct (run_range L mu_ fuel r1 r2 tof_ is_prograde k lk Hr) as [Hlo Hhi].
  repeat (split; [assumption|]).
  split; [|auto].
  destruct (0 <=? y_at L p (lz lk)) eqn:E; [reflexivity|].
  destruct (not_ltb_not_leb_nan _ _ Hy E) as [N|N]; [|discriminate].
  unfold F_at in HF. rewrite N in HF. autorewrite with nan in HF. discriminate.
Qed.

Lemma solve_return_postcondition_witness :
  exists v zc,
    let p := problem_of Inputs.mu_earth Inputs.hello_r1 Inputs.hello_r2
                        Inputs.hello_tof true in
    (0 <=? y_at SampleLibm.libm p zc) = true
    /\ v = velocities p Inputs.hello_r1 Inputs.hello_r2 (y_at SampleLibm.libm p zc).
Proof.
  eexists.
  destruct (solve_return_postcondition SampleLibm.libm Inputs.mu_earth 10
              Inputs.hello_r1 Inputs.hello_r2 Inputs.hello_tof true _
              ltac:(vm_compute; reflexivity))
    as (_ & _ & _ & zc & _ & _ & Hy & _ & Hv).
  exists zc. split; [exact Hy | exact Hv].
Defined.

(** ** Repairs and Newton passes alternate *)

Lemma pass_repaired_neg L p fuel l l' :
  pass L p fuel l = Repaired l' -> (y_at L p (lz l) <? 0) = true.
Proof.
  intros H. destruct (y_at L p (lz l) <? 0) eqn:E; [reflexivity|].
  rewrite pass_newton in H by exact E.
  destruct (abs _ <? tolerance); [discriminate|].
  destruct (1e6 <? _); discriminate.
Qed.

Lemma repairs_le_newtons L p fuel k l :
  (repairs L p fuel k l <= S (newtons L p fuel k l))%nat
  /\ ((y_at L p (lz l) <? 0) = false ->
      (repairs L p fuel k l <= newtons L p fuel k l)%nat).
Proof.
  revert l; induction k as [|k IH]; intros l; simpl; [lia|].
  destruct (pass L p fuel l) as [l'|l'|l' yc| |] eqn:E; try lia.
  - destruct (pass_repaired L p fuel l l' E) as [Hy _].
    destruct (IH l') as [_ H2]. specialize (H2 Hy). split; [lia|].
    intros Hn. rewrite (pass_repaired_neg L p fuel l l' E) in Hn. discriminate.
  - destruct (IH l') as [H1 _]. lia.
Qed.

(** X15.  A bracketing repair is never followed by another one: the pass
    after it recomputes the same [y], which is not negative.  So among the
    first [k] passes the repairs are at most one more than the Newton
    passes, and a call that exhausts its budget has made at least 500
    Newton iterations. *)
Theorem repairs_alternate L p fuel :
  (forall l l' l'',
      pass L p fuel l = Repaired l' -> pass L p fuel l' <> Repaired l'')
  /\ (forall k l, (repairs L p fuel k l <= S (newtons L p fuel k l))%nat)
  /\ (forall l l',
        loop L p fuel max_iterations l = LExhausted l' ->
        (500 <= newtons L p fuel max_iterations l)%nat).
Proof.
  split; [|split].
  - intros l l' l''. apply pass_after_repair.
  - intros k l. apply repairs_le_newtons.
  - intros l l' H. apply loop_exhausted_iff in H.
    apply run_passes_split in H.
    pose proof (proj1 (repairs_le_newtons L p fuel max_iterations l)).
    unfold max_iterations in *. lia.
Qed.

(** ** The inner loop exits or hangs

    The bracket of the inner loop moves independently of [y]: from
    [[z, 0]] the midpoint is halved towards zero, from [[z, 2 z]] it is
    bisected towards [z].  Either way it stops moving after a bounded number
    of iterations; if [y] is still negative then, the loop never exits. *)

(** *** Halving down to zero *)

Module Halving.

Local Open Scope Z_scope.

Lemma pow2_lt_inv a b : 0 <= b -> 2 ^ a < 2 ^ b -> a < b.
Proof. intros Hb H. apply (Z.pow_lt_mono_r_iff 2); lia. Qed.

Lemma pow2_le_inv a b : 0 <= b -> 2 ^ a <= 2 ^ b -> a <= b.
Proof. intros Hb H. apply (Z.pow_le_mono_r_iff 2); lia. Qed.

(** Every power of two from the smallest subnormal number on is a bound. *)
Lemma pow2_is_bound_low K : -1074 <= K <= 971 -> is_bound (2 ^ (K + T)).
Proof.
  intros HK. destruct (Z_le_gt_dec (-1022) K) as [Hn|Hs].
  { exists 4503599627370496%positive, (K - 52). split; [|split].
    - unfold bounded, canonical_mantissa. rewrite fexp_eq.
      change (Zpos (digits2_pos 4503599627370496)) with 53.
      change (emax - prec) with 971.
      apply andb_true_iff. rewrite Z.eqb_eq, Z.leb_le. lia.
    - unfold scaled. rewrite two52, <- pow2_add by (unfold T; lia).
      f_equal. lia.
    - apply pow2_le. unfold T. lia. }
  set (j := K + 1074).
  assert (Hj : 0 <= j < 52) by (unfold j; lia).
  assert (Hp : 0 < 2 ^ j) by (apply pow2_pos; lia).
  exists (Z.to_pos (2 ^ j)), (-1074).
  assert (Em : Zpos (Z.to_pos (2 ^ j)) = 2 ^ j) by (apply Z2Pos.id; exact Hp).
  split; [|split].
  - unfold bounded, canonical_mantissa. rewrite fexp_eq.
    pose proof (digits2_pos_bounds (Z.to_pos (2 ^ j))) as [Hlo Hhi].
    rewrite Em in Hlo, Hhi.
    set (d := Zpos (digits2_pos (Z.to_pos (2 ^ j)))) in *.
    assert (0 < d) by (unfold d; lia).
    apply pow2_le_inv in Hlo; [|lia]. apply pow2_lt_inv in Hhi; [|lia].
    change (emax - prec) with 971.
    apply andb_true_iff. rewrite Z.eqb_eq, Z.leb_le. lia.
  - unfold scaled. rewrite Em, <- pow2_add by (unfold T; lia).
    f_equal. unfold j. lia.
  - apply pow2_le. unfold T. lia.
Qed.


Lemma value_zero_inv a : value a 0 -> (a = 0 \/ a = -0)%float.
Proof.
  unfold value. pose proof (Prim2SF_valid a) as Hv.
  destruct (Prim2SF a) as [[]|s| |s m e] eqn:E; try discriminate; cbn [sval].
  - intros _. right. apply Prim2SF_inj. rewrite E. reflexivity.
  - intros _. left. apply Prim2SF_inj. rewrite E. reflexivity.
  - destruct (bounded_inv _ _ Hv) as (He & _).
    pose proof (scaled_pos (Zpos m) e ltac:(lia) ltac:(unfold T; lia)) as Hp.
    intros H. inversion H. destruct s; lia.
Qed.

(** Adding a zero to a nonzero finite number changes nothing. *)
Lemma add_zero_r a va z :
  value a va -> va <> 0 -> (z = 0 \/ z = -0)%float -> (a + z)%float = a.
Proof.
  unfold value. intros Ha Hn Hz. apply Prim2SF_inj. rewrite add_spec.
  unfold SF64add.
  destruct (Prim2SF a) as [s|s| |s m e]; try discriminate.
  - cbn [sval] in Ha. congruence.
  - destruct Hz as [-> | ->]; reflexivity.
Qed.

(** The only negative number no larger than the smallest subnormal one. *)
Lemma value_min_inv a v :
  value a v -> - 2 ^ (-1074 + T) <= v < 0 -> a = (-0x1p-1074)%float.
Proof.
  unfold value. pose proof (Prim2SF_valid a) as Hv.
  destruct (Prim2SF a) as [s|s| |s m e] eqn:E; try discriminate; cbn [sval].
  { intros H; inversion H; lia. }
  intros H Hb. inversion H; subst v; clear H.
  cbn [valid_binary] in Hv.
  destruct (bounded_inv _ _ Hv) as (He & _).
  pose proof (scaled_pos (Zpos m) e ltac:(lia) ltac:(unfold T; lia)) as Hp.
  destruct s; [|lia].
  assert (Hs : scaled (Zpos m) e <= 2 ^ (-1074 + T)) by lia.
  unfold scaled in Hs.
  replace (e + T) with ((e + 1074) + (-1074 + T)) in Hs by lia.
  rewrite pow2_add in Hs by (unfold T; lia).
  assert (P : 0 < 2 ^ (-1074 + T)) by (apply pow2_pos; unfold T; lia).
  assert (Q : 0 < 2 ^ (e + 1074)) by (apply pow2_pos; lia).
  assert (Hm : Zpos m * 2 ^ (e + 1074) <= 1) by nia.
  assert (Hm1 : Zpos m = 1) by nia.
  assert (He1 : 2 ^ (e + 1074) = 1) by nia.
  assert (e = -1074).
  { destruct (Z.eq_dec e (-1074)) as [|Hne]; [assumption|exfalso].
    assert (2 ^ 1 <= 2 ^ (e + 1074)) by (apply pow2_le; lia).
    change (2 ^ 1) with 2 in *. lia. }
  subst e. apply Prim2SF_inj. rewrite E.
  replace m with 1%positive by lia. reflexivity.
Qed.

End Halving.

Import Halving.

Section NegativeBracket.

Variable L : Libm.
Variable p : problem.

Lemma bracket_unfold fuel zlo zhi z y :
  bracket L p (S fuel) zlo zhi z y
  = if y <? 0 then
      if (zlo + zhi) / 2 <? 0
      then bracket L p fuel ((zlo + zhi) / 2) zhi ((zlo + zhi) / 2)
                   (y_at L p ((zlo + zhi) / 2))
      else bracket L p fuel zlo ((zlo + zhi) / 2) ((zlo + zhi) / 2)
                   (y_at L p ((zlo + zhi) / 2))
    else Some (z, y).
Proof. reflexivity. Qed.

Lemma bracket_none_neg fuel zlo zhi z y :
  bracket L p fuel zlo zhi z y = None -> (y <? 0) = true.
Proof.
  destruct fuel; simpl; destruct (y <? 0); congruence.
Qed.

Lemma zero_not_neg a : a = 0 \/ a = -0 -> (a <? 0) = false.
Proof. intros [-> | ->]; reflexivity. Qed.

(** Once the midpoint is a zero, the bracket no longer moves. *)
Lemma stuck_at_zero zlo v z' fuel0 :
  value zlo v -> v <> 0%Z -> z' = (zlo + 0) / 2 -> z' = 0 \/ z' = -0 ->
  bracket L p fuel0 zlo z' z' (y_at L p z') = None ->
  forall fuel, bracket L p fuel zlo z' z' (y_at L p z') = None.
Proof.
  intros Hv Hn Ez Hz Hnone fuel.
  apply (bracket_stuck L p (zlo, z', z', y_at L p z')).
  - exact (bracket_none_neg _ _ _ _ _ Hnone).
  - unfold bracket_step.
    assert (Em : (zlo + z') / 2 = z').
    { rewrite (add_zero_r zlo v z' Hv Hn Hz), Ez.
      rewrite (add_zero_r zlo v 0 Hv Hn (or_introl eq_refl)). reflexivity. }
    rewrite Em, (zero_not_neg z' Hz). reflexivity.
Qed.

Lemma bracket_negative (n : nat) :
  (n <= 2000)%nat ->
  forall zlo v z y,
    value zlo v -> (- 2 ^ (Z.of_nat n - 1074 + T) <= v < 0)%Z ->
    bracket L p (S (S n)) zlo 0 z y = None ->
    forall fuel, bracket L p fuel zlo 0 z y = None.
Proof.
  induction n as [|n IH]; intros Hn zlo v z y Hv Hb Hnone.
  - (* the smallest subnormal number: its half is a zero *)
    pose proof (value_min_inv zlo v Hv Hb) as E.
    pose proof (bracket_none_neg _ _ _ _ _ Hnone) as Hy.
    rewrite bracket_unfold, Hy in Hnone.
    assert (Hz : (zlo + 0) / 2 = -0) by (rewrite E; reflexivity).
    rewrite Hz in Hnone. change (-0 <? 0) with false in Hnone. cbv iota in Hnone.
    pose proof (stuck_at_zero zlo v (-0) _ Hv ltac:(lia) (eq_sym Hz)
                  (or_intror eq_refl) Hnone) as Hs.
    intros [|fuel]; [simpl; rewrite Hy; reflexivity|].
    rewrite bracket_unfold, Hy, Hz. change (-0 <? 0) with false. cbv iota.
    apply Hs.
  - pose proof (bracket_none_neg _ _ _ _ _ Hnone) as Hy.
    rewrite bracket_unfold, Hy in Hnone.
    assert (Ea : zlo + 0 = zlo)
      by (apply (add_zero_r zlo v 0 Hv ltac:(lia) (or_introl eq_refl))).
    set (z' := (zlo + 0) / 2) in *.
    assert (HU : is_bound (2 ^ (Z.of_nat n - 1074 + T)))
      by (apply pow2_is_bound_low; lia).
    assert (P : (2 ^ (Z.of_nat (S n) - 1074 + T)
                 = 2 * 2 ^ (Z.of_nat n - 1074 + T))%Z).
    { replace (Z.of_nat (S n) - 1074 + T)%Z
        with (Z.succ (Z.of_nat n - 1074 + T)) by lia.
      apply Z.pow_succ_r. unfold T. lia. }
    destruct (half_value zlo v _ Hv HU ltac:(lia)) as (v' & Hv' & Hb' & _ & Hs').
    assert (Ez : z' = zlo / 2) by (unfold z'; rewrite Ea; reflexivity).
    rewrite <- Ez in Hv'.
    pose proof (ltb_value z' 0 v' 0 Hv' value_zero) as Hlt.
    destruct (z' <? 0) eqn:En.
    + symmetry in Hlt. apply Z.ltb_lt in Hlt.
      pose proof (IH ltac:(lia) z' v' z' (y_at L p z') Hv' ltac:(lia) Hnone) as Hs.
      intros [|fuel]; [simpl; rewrite Hy; reflexivity|].
      rewrite bracket_unfold, Hy. fold z'. rewrite En. apply Hs.
    + symmetry in Hlt. apply Z.ltb_ge in Hlt.
      assert (v' = 0%Z) by lia. subst v'.
      pose proof (value_zero_inv z' Hv') as Hz.
      pose proof (stuck_at_zero zlo v z' _ Hv ltac:(lia) eq_refl Hz Hnone) as Hs.
      intros [|fuel]; [simpl; rewrite Hy; reflexivity|].
      rewrite bracket_unfold, Hy. fold z'. rewrite En. apply Hs.
Qed.

End NegativeBracket.

(** The repair from a negative [z]: the bracket is [[z, 0]], the midpoint is
    half of [z_low], and it reaches [-0] within 1081 halvings. *)
Lemma negative_repair_hangs L p l :
  clamped (lz l) -> (lz l <? 0) = true ->
  pass L p 1100 l = Hang ->
  forall fuel, pass L p fuel l = Hang.
Proof.
  intros Hc Hneg Hh fuel.
  destruct (y_at L p (lz l) <? 0) eqn:Hy.
  - rewrite pass_repair in * by exact Hy. rewrite Hneg in *.
    destruct (bracket L p 1100 _ _ _ _) as [[z1 y1]|] eqn:E; [discriminate|].
    destruct (clamped_small _ Hc) as (v & Hv & Hb).
    pose proof (ltb_value (lz l) 0 v 0 Hv value_zero) as Hlt.
    rewrite Hneg in Hlt. symmetry in Hlt. apply Z.ltb_lt in Hlt.
    assert (E' : bracket L p 1082 (lz l) 0 (lz l) (y_at L p (lz l)) = None).
    { destruct (bracket L p 1082 _ _ _ _) as [r|] eqn:E'; [|reflexivity].
      rewrite (bracket_fuel_mono L p 1082 1100 _ _ _ _ r ltac:(lia) E') in E.
      discriminate. }
    rewrite (bracket_negative L p 1080 ltac:(lia) (lz l) v _ _ Hv
               ltac:(change (Z.of_nat 1080 - 1074 + T)%Z with (6 + T)%Z; lia)
               E' fuel).
    reflexivity.
  - rewrite pass_newton in Hh by exact Hy.
    destruct (abs _ <? tolerance); [discriminate|].
    destruct (1e6 <? _); discriminate.
Qed.

(** *** Rounding stays above a representable bound *)

Module RoundingLower.

Local Open Scope Z_scope.

(** The shift to the canonical exponent stays above a representable
    bound. *)
Lemma shift_lower M e mb eb :
  0 <= M -> - T <= e ->
  bounded prec emax mb eb = true ->
  scaled (Zpos mb) eb <= scaled M e ->
  scaled (Zpos mb) eb
  <= scaled (M / 2 ^ Z.max (fexp prec emax (Zdigits2 M + e) - e) 0)
            (e + Z.max (fexp prec emax (Zdigits2 M + e) - e) 0).
Proof.
  intros HM He Hb Hle.
  assert (HT : T = 1200) by reflexivity.
  destruct (bounded_inv _ _ Hb) as (Heb & Hmb & _).
  set (n := fexp prec emax (Zdigits2 M + e) - e).
  destruct (Z_le_gt_dec n 0) as [Hn|Hn].
  - replace (Z.max n 0) with 0 by lia. change (2 ^ 0) with 1.
    rewrite Z.div_1_r, Z.add_0_r. exact Hle.
  - replace (Z.max n 0) with n by lia.
    set (e1 := e + n).
    assert (He1 : e1 = fexp prec emax (Zdigits2 M + e)) by (unfold e1, n; lia).
    assert (Pn : 0 < 2 ^ n) by (apply pow2_pos; lia).
    destruct (Z_le_gt_dec e1 eb) as [Hc|Hc].
    + (* the bound is a multiple of the new unit *)
      replace eb with (e1 + (eb - e1)) by lia.
      rewrite scaled_shift by lia.
      apply scaled_le_mono; [lia|].
      apply Z.div_le_lower_bound; [exact Pn|].
      replace eb with (e + (n + (eb - e1))) in Hle by (unfold e1; lia).
      rewrite scaled_shift in Hle by lia.
      unfold scaled in Hle.
      apply Z.mul_le_mono_pos_r in Hle; [|apply pow2_pos; lia].
      rewrite pow2_add in Hle by lia. lia.
    + (* the shifted mantissa fills 53 bits *)
      assert (Hf : 2 ^ 52 <= M / 2 ^ n).
      { apply shifted_fills; [exact HM | fold n; lia |].
        rewrite <- He1. lia. }
      apply Z.le_trans with (scaled (2 ^ 53) eb).
      * apply scaled_le_mono; lia.
      * apply Z.le_trans with (scaled (2 ^ 52) e1).
        -- replace e1 with (eb + (e1 - eb)) by lia.
           rewrite scaled_shift by lia. apply scaled_le_mono; [lia|].
           rewrite <- pow2_add by lia. apply pow2_le. lia.
        -- apply scaled_le_mono; [unfold e1; lia | exact Hf].
Qed.

Lemma binary_round_aux_lower sx M e l mb eb :
  0 <= M -> - T <= e ->
  bounded prec emax mb eb = true ->
  scaled (Zpos mb) eb <= scaled M e ->
  match binary_round_aux prec emax sx M e l with
  | S754_finite s m' e' => s = sx /\ scaled (Zpos mb) eb <= scaled (Zpos m') e'
  | S754_infinity s => s = sx
  | _ => False
  end.
Proof.
  intros HM He Hb Hle.
  assert (HT : T = 1200) by reflexivity.
  destruct (bounded_inv _ _ Hb) as (Heb & _).
  assert (HB : 0 < scaled (Zpos mb) eb) by (apply scaled_pos; lia).
  pose proof (shift_lower M e mb eb HM He Hb Hle) as H1.
  unfold binary_round_aux, shr_fexp.
  set (n1 := fexp prec emax (Zdigits2 M + e) - e) in *.
  destruct (shr_record_of_loc_spec M l) as [Rm _].
  destruct (shr_spec (shr_record_of_loc M l) e n1 ltac:(lia)) as (E1 & M1 & _).
  destruct (shr (shr_record_of_loc M l) e n1) as [mrs1 e1].
  simpl fst in *; simpl snd in *. rewrite Rm in *.
  rewrite <- M1, <- E1 in H1.
  assert (Hm1 : 0 <= shr_m mrs1).
  { rewrite M1. apply Z.div_pos; [lia | apply pow2_pos; lia]. }
  set (m2 := round_nearest_even (shr_m mrs1) (loc_of_shr_record mrs1)).
  assert (H2 : 0 <= m2 /\ scaled (Zpos mb) eb <= scaled m2 e1).
  { destruct (round_nearest_even_cases (shr_m mrs1) mrs1) as [Eq|[_ Eq]];
      fold m2 in Eq; rewrite Eq; (split; [lia|]); [exact H1|].
    apply Z.le_trans with (1 := H1). apply scaled_le_mono; lia. }
  destruct H2 as [Hm2 H2].
  pose proof (shift_lower m2 e1 mb eb Hm2 ltac:(lia) Hb H2) as H3.
  set (n2 := fexp prec emax (Zdigits2 m2 + e1) - e1) in *.
  destruct (shr_record_of_loc_spec m2 loc_Exact) as [Rm2 _].
  destruct (shr_spec (shr_record_of_loc m2 loc_Exact) e1 n2 ltac:(lia))
    as (E3 & M3 & _).
  destruct (shr (shr_record_of_loc m2 loc_Exact) e1 n2) as [mrs3 e3].
  simpl fst in *; simpl snd in *. rewrite Rm2 in *.
  rewrite <- M3, <- E3 in H3.
  assert (Hm3 : 0 <= shr_m mrs3).
  { rewrite M3. apply Z.div_pos; [lia | apply pow2_pos; lia]. }
  destruct (shr_m mrs3) as [|m3|m3]; [|  |lia].
  - unfold scaled in H3. lia.
  - destruct (Z.leb e3 (emax - prec)); auto.
Qed.


Lemma binary_round_lower sx mx ex mb eb :
  -1074 <= ex ->
  bounded prec emax mb eb = true ->
  scaled (Zpos mb) eb <= scaled (Zpos mx) ex ->
  match binary_round prec emax sx mx ex with
  | S754_finite s m' e' => s = sx /\ scaled (Zpos mb) eb <= scaled (Zpos m') e'
  | S754_infinity s => s = sx
  | _ => False
  end.
Proof.
  intros Hex Hb Hle. unfold binary_round.
  set (e0 := fexp prec emax (Zpos (digits2_pos mx) + ex)).
  assert (He0 : -1074 <= e0) by (unfold e0; rewrite fexp_eq; lia).
  pose proof (scaled_shl_align mx ex e0 Hex He0) as Hs.
  destruct (shl_align_spec mx ex e0) as [Es _].
  destruct (shl_align mx ex e0) as [mz ez]. simpl fst in *; simpl snd in *.
  apply binary_round_aux_lower; try assumption;
    try (unfold T; lia); rewrite Hs; exact Hle.
Qed.

(** The sum of two positive numbers stays above a representable bound. *)
Lemma SFadd_lower x y vx vy mb eb :
  valid_binary x = true -> valid_binary y = true ->
  sval x = Some vx -> sval y = Some vy ->
  0 < vx -> 0 < vy ->
  bounded prec emax mb eb = true ->
  scaled (Zpos mb) eb <= vx + vy ->
  match SF64add x y with
  | S754_finite s m' e' => s = false /\ scaled (Zpos mb) eb <= scaled (Zpos m') e'
  | S754_infinity s => s = false
  | _ => False
  end.
Proof.
  intros Hx Hy Ex Ey Px Py Hb Hle.
  assert (HT : T = 1200) by reflexivity.
  destruct x as [sx|sx| |sx mx ex]; try discriminate; cbn [sval] in Ex;
    inversion Ex; subst vx; clear Ex; [lia|].
  destruct y as [sy|sy| |sy my ey]; try discriminate; cbn [sval] in Ey;
    inversion Ey; subst vy; clear Ey; [lia|].
  cbn [valid_binary] in Hx, Hy.
  destruct (bounded_inv _ _ Hx) as (Hex & _).
  destruct (bounded_inv _ _ Hy) as (Hey & _).
  pose proof (scaled_pos (Zpos mx) ex ltac:(lia) ltac:(lia)) as Qx.
  pose proof (scaled_pos (Zpos my) ey ltac:(lia) ltac:(lia)) as Qy.
  destruct sx; [lia|]. destruct sy; [lia|].
  unfold SF64add, SFadd.
  set (ez := Z.min ex ey).
  pose proof (scaled_aligned false mx ex ez ltac:(lia) ltac:(lia) ltac:(lia)) as Ax.
  pose proof (scaled_aligned false my ey ez ltac:(lia) ltac:(lia) ltac:(lia)) as Ay.
  cbv iota in Ax, Ay. cbn [cond_Zopp] in *.
  set (ax := fst (shl_align mx ex ez)) in *.
  set (ay := fst (shl_align my ey ez)) in *.
  change (Zpos ax + Zpos ay) with (Zpos (ax + ay)).
  cbn [binary_normalize].
  apply binary_round_lower; [lia | exact Hb |].
  rewrite Pos2Z.inj_add, scaled_add, Ax, Ay. exact Hle.
Qed.

(** Half a positive number stays above a representable bound. *)
Lemma SFdiv_two_lower x vx mb eb :
  valid_binary x = true -> sval x = Some vx -> 0 < vx ->
  bounded prec emax mb eb = true ->
  2 * scaled (Zpos mb) eb <= vx ->
  match SF64div x SFtwo with
  | S754_finite s m' e' => s = false /\ scaled (Zpos mb) eb <= scaled (Zpos m') e'
  | S754_infinity s => s = false
  | _ => False
  end.
Proof.
  intros Hx Ex Px Hb Hle.
  set (B := scaled (Zpos mb) eb) in *.
  assert (HT : T = 1200) by reflexivity.
  destruct (bounded_inv _ _ Hb) as (Heb & _).
  assert (HB0 : 0 < B) by (apply scaled_pos; lia).
  destruct x as [sx|sx| |sx mx ex]; try discriminate;
    cbn [sval] in Ex; inversion Ex; subst vx; clear Ex; [lia|].
  cbn [valid_binary] in Hx. destruct (bounded_inv _ _ Hx) as (Hex & _).
  pose proof (digits2_pos_le_53 _ _ Hx) as Hd53.
  assert (Hp : 0 < scaled (Zpos mx) ex) by (apply scaled_pos; lia).
  destruct sx; [lia|].
  unfold SF64div, SFdiv, SFtwo, SFdiv_core_binary.
  change (Zdigits2 (Zpos 4503599627370496)) with 53.
  set (d1 := Zdigits2 (Zpos mx)).
  assert (Hd1 : 1 <= d1 <= 53) by (unfold d1; simpl; lia).
  set (e' := Z.min (fexp prec emax (d1 + ex - (53 + -51))) (ex - -51)).
  set (s := ex - -51 - e').
  assert (Hs : 0 <= s) by (unfold s, e'; lia).
  assert (He' : -1074 <= e') by (unfold e'; rewrite fexp_eq; lia).
  set (m' := match s with
             | Z0 => Zpos mx
             | Zpos _ => Z.shiftl (Zpos mx) s
             | Zneg _ => 0
             end).
  assert (Hm' : m' = Zpos mx * 2 ^ s).
  { unfold m'. generalize Hs. generalize s. intros [|p|p] H0; try lia.
    apply Z.shiftl_mul_pow2. lia. }
  destruct (Z.div_eucl m' (Zpos 4503599627370496)) as [q r] eqn:Eqr.
  assert (Hq : q = m' / 2 ^ 52)
    by (rewrite <- two52; unfold Z.div; rewrite Eqr; reflexivity).
  assert (Hq0 : 0 <= q).
  { rewrite Hq. apply Z.div_pos; [rewrite Hm'|lia].
    apply Z.mul_nonneg_nonneg; [lia|]. apply Z.pow_nonneg. lia. }
  pose proof (pow2_pos (e' + T) ltac:(lia)) as Pe.
  (* the exact quotient, scaled: m' 2^e' = 2^52 (vx / 2) *)
  assert (Hmle : 2 ^ 52 * B <= m' * 2 ^ (e' + T)).
  { rewrite Hm'. rewrite <- Z.mul_assoc, <- pow2_add by lia.
    replace (s + (e' + T)) with (51 + (ex + T)) by (unfold s; lia).
    rewrite (pow2_add 51) by lia. unfold scaled in Hle.
    change (2 ^ 52) with (2 ^ 51 * 2).
    pose proof (pow2_pos 51 ltac:(lia)).
    pose proof (pow2_pos (ex + T) ltac:(lia)).
    nia. }
  (* the bound is a multiple of the unit of the quotient, or the quotient
     fills its mantissa *)
  assert (Hle' : B <= scaled q e').
  { destruct (Z_le_gt_dec e' eb) as [Hc|Hc].
    - unfold B. replace eb with (e' + (eb - e')) by lia.
      rewrite scaled_shift by lia. apply scaled_le_mono; [lia|].
      rewrite Hq. apply Z.div_le_lower_bound; [lia|].
      unfold B in Hmle. replace eb with (e' + (eb - e')) in Hmle by lia.
      rewrite scaled_shift in Hmle by lia. unfold scaled in Hmle.
      rewrite Z.mul_assoc in Hmle.
      apply Z.mul_le_mono_pos_r in Hmle; [exact Hmle | exact Pe]. 
    - (* e' above the smallest exponent: the division is exact *)
      assert (Ee' : e' = d1 + ex - 2 - 53).
      { unfold e' in *. rewrite fexp_eq in *. lia. }
      assert (Es : s = 106 - d1) by (unfold s; lia).
      destruct (Zdigits2_bounds (Zpos mx) ltac:(lia)) as [Dlo _]. fold d1 in Dlo.
      assert (Hq52 : 2 ^ 52 <= q).
      { rewrite Hq, Hm'. apply Z.div_le_lower_bound; [lia|].
        rewrite <- pow2_add by lia.
        apply Z.le_trans with (2 ^ (d1 - 1) * 2 ^ s).
        - rewrite <- pow2_add by lia. apply pow2_le. lia.
        - apply Z.mul_le_mono_nonneg_r; [apply Z.lt_le_incl, pow2_pos; lia|].
          exact Dlo. }
      destruct (bounded_inv _ _ Hb) as (_ & Hmb & _).
      apply Z.le_trans with (scaled (2 ^ 53) eb).
      + apply scaled_le_mono; lia.
      + apply Z.le_trans with (scaled (2 ^ 52) e').
        * replace e' with (eb + (e' - eb)) by lia.
          rewrite scaled_shift by lia. apply scaled_le_mono; [lia|].
          rewrite <- pow2_add by lia. apply pow2_le. lia.
        * apply scaled_le_mono; [lia | exact Hq52]. }
  pose proof (binary_round_aux_lower (xorb false false) q e'
                (new_location (Zpos 4503599627370496) r) mb eb
                Hq0 ltac:(lia) Hb Hle') as Hres.
  exact Hres.
Qed.

End RoundingLower.

Import RoundingLower.

(** *** Representable numbers *)

Module Representable.

Local Open Scope Z_scope.

Lemma add_value_lower a b va vb B v :
  value a va -> value b vb -> 0 < va -> 0 < vb ->
  is_bound B -> B <= va + vb -> value (a + b) v -> B <= v.
Proof.
  unfold value. intros Ha Hb Pa Pb (mb & eb & HB & -> & _) Hle.
  rewrite add_spec.
  pose proof (SFadd_lower _ _ va vb mb eb (Prim2SF_valid a) (Prim2SF_valid b)
                Ha Hb Pa Pb HB Hle) as H.
  destruct (SF64add (Prim2SF a) (Prim2SF b)) as [s|s| |s m e];
    try contradiction; try discriminate.
  destruct H as [-> H]. cbn [sval]. intros E; inversion E; subst. exact H.
Qed.

Lemma half_value_lower a va B v :
  value a va -> 0 < va -> is_bound B -> 2 * B <= va ->
  value (a / 2) v -> B <= v.
Proof.
  unfold value. intros Ha Pa (mb & eb & HB & -> & _) Hle.
  rewrite div_spec, Prim2SF_two.
  pose proof (SFdiv_two_lower _ va mb eb (Prim2SF_valid a) Ha Pa HB Hle) as H.
  destruct (SF64div (Prim2SF a) SFtwo) as [s|s| |s m e];
    try contradiction; try discriminate.
  destruct H as [-> H]. cbn [sval]. intros E; inversion E; subst. exact H.
Qed.

(** A larger exponent means a larger number. *)
Lemma exponent_lt_value m1 e1 m2 e2 :
  bounded prec emax m1 e1 = true -> bounded prec emax m2 e2 = true ->
  e1 < e2 -> scaled (Zpos m1) e1 < scaled (Zpos m2) e2.
Proof.
  intros H1 H2 Hlt.
  assert (HT : T = 1200) by reflexivity.
  destruct (bounded_inv _ _ H1) as (He1 & Hm1 & _).
  destruct (bounded_inv _ _ H2) as (He2 & _ & Hf2).
  specialize (Hf2 ltac:(lia)).
  apply Z.lt_le_trans with (scaled (2 ^ 53) e1).
  - apply scaled_lt_mono; lia.
  - apply Z.le_trans with (scaled (2 ^ 52) e2).
    + replace e2 with (e1 + (e2 - e1)) by lia.
      rewrite scaled_shift by lia. apply scaled_le_mono; [lia|].
      rewrite <- pow2_add by lia. apply pow2_le. lia.
    + apply scaled_le_mono; lia.
Qed.

(** A positive value is the value of one number only. *)
Lemma value_inj a b v : value a v -> value b v -> 0 < v -> a = b.
Proof.
  unfold value. intros Ha Hb Pv.
  pose proof (Prim2SF_valid a) as Va. pose proof (Prim2SF_valid b) as Vb.
  apply Prim2SF_inj.
  assert (HT : T = 1200) by reflexivity.
  destruct (Prim2SF a) as [sa|sa| |sa ma ea]; try discriminate;
    cbn [sval] in Ha; inversion Ha; subst v; clear Ha; [lia|].
  destruct (Prim2SF b) as [sb|sb| |sb mb eb]; try discriminate;
    cbn [sval] in Hb; inversion Hb as [Hv]; clear Hb; [lia|].
  cbn [valid_binary] in Va, Vb.
  destruct (bounded_inv _ _ Va) as (Hea & _).
  destruct (bounded_inv _ _ Vb) as (Heb & _).
  pose proof (scaled_pos (Zpos ma) ea ltac:(lia) ltac:(lia)) as Qa.
  pose proof (scaled_pos (Zpos mb) eb ltac:(lia) ltac:(lia)) as Qb.
  destruct sa; [lia|]. destruct sb; [lia|].
  assert (ea = eb).
  { destruct (Z.lt_trichotomy ea eb) as [H|[H|H]]; [|exact H|].
    - pose proof (exponent_lt_value _ _ _ _ Va Vb H). lia.
    - pose proof (exponent_lt_value _ _ _ _ Vb Va H). lia. }
  subst eb. unfold scaled in Hv.
  apply Z.mul_cancel_r in Hv; [|pose proof (pow2_pos (ea + T) ltac:(lia)); lia].
  inversion Hv. reflexivity.
Qed.

(** A number no smaller than a positive one is a multiple of its unit. *)
Lemma value_multiple ma ea h w :
  bounded prec emax ma ea = true ->
  value h w -> scaled (Zpos ma) ea <= w ->
  exists J, w = scaled J ea.
Proof.
  unfold value. intros Va Hh Hle.
  pose proof (Prim2SF_valid h) as Vh.
  assert (HT : T = 1200) by reflexivity.
  destruct (bounded_inv _ _ Va) as (Hea & _).
  pose proof (scaled_pos (Zpos ma) ea ltac:(lia) ltac:(lia)) as Qa.
  destruct (Prim2SF h) as [sh|sh| |sh mh eh]; try discriminate;
    cbn [sval] in Hh; inversion Hh; subst w; clear Hh; [lia|].
  cbn [valid_binary] in Vh.
  destruct (bounded_inv _ _ Vh) as (Heh & _).
  pose proof (scaled_pos (Zpos mh) eh ltac:(lia) ltac:(lia)) as Qh.
  destruct sh; [lia|].
  destruct (Z_lt_le_dec eh ea) as [H|H].
  - pose proof (exponent_lt_value _ _ _ _ Vh Va H). lia.
  - exists (Zpos mh * 2 ^ (eh - ea)).
    replace eh with (ea + (eh - ea)) at 1 by lia.
    apply scaled_shift; lia.
Qed.

Lemma digits_shift n k :
  0 < n -> 0 <= k -> Zdigits2 (n * 2 ^ k) = Zdigits2 n + k.
Proof.
  intros Hn Hk.
  destruct (Zdigits2_bounds n Hn) as [Hlo Hhi].
  assert (Hd : 1 <= Zdigits2 n) by (destruct n; simpl in *; lia).
  pose proof (pow2_pos k Hk) as Pk.
  apply Zdigits2_unique; [nia|].
  replace (Zdigits2 n + k - 1) with ((Zdigits2 n - 1) + k) by lia.
  rewrite !pow2_add by lia. nia.
Qed.

(** Every [n 2^e] with [n] of at most 53 bits is a bound. *)
Lemma is_bound_scaled n e :
  0 < n < 2 ^ 53 -> -1074 <= e -> scaled n e <= 2 ^ (971 + T) ->
  is_bound (scaled n e).
Proof.
  intros Hn He Hle.
  assert (HT : T = 1200) by reflexivity.
  destruct (Zdigits2_bounds n ltac:(lia)) as [Hlo Hhi].
  set (d := Zdigits2 n) in *.
  assert (Hd : 1 <= d <= 53).
  { split; [unfold d; destruct n; simpl in *; lia|].
    destruct (Z_le_gt_dec d 53) as [H|H]; [exact H|]. exfalso.
    assert (2 ^ 53 <= 2 ^ (d - 1)) by (apply pow2_le; lia). lia. }
  set (e' := Z.max (d + e - 53) (-1074)).
  set (k := e - e').
  assert (Hk : 0 <= k) by (unfold k, e'; lia).
  pose proof (pow2_pos k Hk) as Pk.
  assert (Hm : 0 < n * 2 ^ k) by nia.
  assert (Hde : d + e - 1 <= 971).
  { destruct (Z_le_gt_dec (d + e - 1) 971) as [H|H]; [exact H|]. exfalso.
    assert (2 ^ (971 + T) < scaled n e); [|lia].
    apply Z.lt_le_trans with (scaled (2 ^ (d - 1)) e).
    - unfold scaled. rewrite <- pow2_add by lia. apply Z.pow_lt_mono_r; lia.
    - apply scaled_le_mono; lia. }
  exists (Z.to_pos (n * 2 ^ k)), e'.
  assert (Em : Zpos (Z.to_pos (n * 2 ^ k)) = n * 2 ^ k) by (apply Z2Pos.id; exact Hm).
  split; [|split].
  - unfold bounded, canonical_mantissa. rewrite fexp_eq.
    change (Zpos (digits2_pos (Z.to_pos (n * 2 ^ k))))
      with (Zdigits2 (Zpos (Z.to_pos (n * 2 ^ k)))).
    rewrite Em, digits_shift by lia. fold d.
    change (emax - prec) with 971.
    apply andb_true_iff. rewrite Z.eqb_eq, Z.leb_le. unfold k, e'. lia.
  - rewrite Em. replace e with (e' + k) at 1 by (unfold k; lia).
    apply scaled_shift; unfold e'; lia.
  - exact Hle.
Qed.

End Representable.

Import Representable.

(** *** Bisecting towards [z] from above *)

Section Midpoint.

Local Open Scope Z_scope.

Variable a : float.
Variable ma : positive.
Variable ea : Z.
Hypothesis a_finite : Prim2SF a = S754_finite false ma ea.
Hypothesis a_small : scaled (Zpos ma) ea <= 2 ^ (6 + T).

Lemma a_bounded : bounded prec emax ma ea = true.
Proof.
  pose proof (Prim2SF_valid a) as H. rewrite a_finite in H. exact H.
Qed.

Lemma a_value : value a (scaled (Zpos ma) ea).
Proof. unfold value. rewrite a_finite. reflexivity. Qed.

Lemma value_fun x v v' : value x v -> value x v' -> v = v'.
Proof. unfold value. congruence. Qed.

Lemma scaled_le_inv x y e : - T <= e -> scaled x e <= scaled y e -> x <= y.
Proof.
  intros He H. unfold scaled in H.
  apply Z.mul_le_mono_pos_r in H; [exact H | apply pow2_pos; lia].
Qed.

(** One step of the bisection towards [a] from above: the gap to [a], in
    units of [a], does not grow, and is about halved. *)
Lemma midpoint_step h j :
  value h (scaled (Zpos ma + j) ea) -> 0 <= j <= Zpos ma ->
  exists j', value ((a + h) / 2)%float (scaled (Zpos ma + j') ea)
             /\ 0 <= j' <= j /\ 2 * j' <= j + 3.
Proof.
  intros Hh Hj.
  assert (HT : T = 1200) by reflexivity.
  pose proof a_bounded as Vb. pose proof a_value as Va.
  destruct (bounded_inv _ _ Vb) as (Hea & Hma & _).
  set (M := Zpos ma) in *.
  set (va := scaled M ea) in *.
  set (w := scaled (M + j) ea) in *.
  assert (Pu : 0 < 2 ^ (ea + T)) by (apply pow2_pos; lia).
  assert (Pva : 0 < va) by (apply scaled_pos; unfold M; lia).
  assert (Hw : va <= w <= 2 * va) by (unfold va, w, scaled; nia).
  assert (P7 : 2 * 2 ^ (6 + T) = 2 ^ (7 + T)) by reflexivity.
  assert (P8 : 8 * 2 ^ (6 + T) <= 2 ^ (971 + T))
    by (apply Z.leb_le; vm_compute; reflexivity).
  (* bounds that are representable *)
  assert (Bva : is_bound va).
  { exists ma, ea. repeat split; [exact Vb | lia]. }
  assert (Bw : is_bound w).
  { replace w with (Z.abs w) by lia.
    apply (is_bound_valid (Prim2SF h) w); auto using Prim2SF_valid; lia. }
  assert (B2va : is_bound (2 * va)) by (apply is_bound_double; [exact Bva | lia]).
  assert (B2w : is_bound (2 * w)) by (apply is_bound_double; [exact Bw | lia]).
  set (n := (2 * M + j + 3) / 4).
  pose proof (Z.div_mod (2 * M + j + 3) 4 ltac:(lia)) as Hdm.
  pose proof (Z.mod_pos_bound (2 * M + j + 3) 4 ltac:(lia)) as Hmb.
  fold n in Hdm.
  assert (Hn : 0 < n < 2 ^ 53) by (change (2 ^ 53) with 9007199254740992 in *; lia).
  assert (E2 : scaled n (ea + 2) = scaled (4 * n) ea)
    by (rewrite scaled_shift by lia; f_equal; change (2 ^ 2) with 4; lia).
  assert (E1 : scaled n (ea + 1) = scaled (2 * n) ea)
    by (rewrite scaled_shift by lia; f_equal; change (2 ^ 1) with 2; lia).
  assert (H4n : scaled (4 * n) ea <= 6 * va) by (unfold va, scaled; nia).
  assert (B1 : is_bound (scaled n (ea + 2)))
    by (apply is_bound_scaled; [exact Hn | lia | rewrite E2; lia]).
  assert (B0 : is_bound (scaled n (ea + 1))).
  { apply is_bound_scaled; [exact Hn | lia |].
    rewrite E1. apply Z.le_trans with (scaled (4 * n) ea); [|lia].
    apply scaled_le_mono; lia. }
  (* the sum *)
  assert (Hsum : va + w <= scaled n (ea + 2)).
  { rewrite E2. unfold va, w, scaled. nia. }
  destruct (add_value a h va w _ Va Hh B1 ltac:(lia)) as (vs & Hs & Hs1 & _ & _).
  destruct (add_value a h va w _ Va Hh B2w ltac:(lia)) as (vs' & Hs' & Hs2 & _ & _).
  rewrite <- (value_fun _ _ _ Hs Hs') in Hs2. clear vs' Hs'.
  pose proof (add_value_lower a h va w _ vs Va Hh Pva ltac:(lia) B2va ltac:(lia) Hs)
    as Hs3.
  assert (Pvs : 0 < vs) by lia.
  (* the half *)
  destruct (half_value _ vs _ Hs B0 ltac:(rewrite E1; rewrite E2 in Hs1; unfold scaled in *; lia))
    as (v' & Hv' & Hv1 & _ & _).
  destruct (half_value _ vs _ Hs Bw ltac:(lia)) as (v'' & Hv'' & Hv2 & _ & _).
  rewrite <- (value_fun _ _ _ Hv' Hv'') in Hv2. clear v'' Hv''.
  pose proof (half_value_lower _ vs _ v' Hs Pvs Bva Hs3 Hv') as Hv3.
  destruct (value_multiple ma ea _ v' Vb Hv' Hv3) as [J EJ].
  subst v'. exists (J - M).
  replace (M + (J - M)) with J by lia.
  split; [exact Hv'|].
  apply scaled_le_inv in Hv3; [|lia].
  assert (HJw : J <= M + j).
  { apply (scaled_le_inv _ _ ea); [lia|]. fold w. lia. }
  assert (HJn : J <= 2 * n).
  { apply (scaled_le_inv _ _ ea); [lia|]. rewrite <- E1. lia. }
  fold M in Hv3. lia.
Qed.

End Midpoint.

Section PositiveBracket.

Variable L : Libm.
Variable p : problem.
Variable a : float.
Variable ma : positive.
Variable ea : Z.
Hypothesis a_finite : Prim2SF a = S754_finite false ma ea.
Hypothesis a_small : (scaled (Zpos ma) ea <= 2 ^ (6 + T))%Z.

Lemma above_a_not_neg h j :
  value h (scaled (Zpos ma + j) ea) -> (0 <= j)%Z -> (h <? 0) = false.
Proof.
  intros Hh Hj.
  destruct (bounded_inv _ _ (a_bounded a ma ea a_finite)) as (Hea & _).
  rewrite (ltb_value h 0 _ 0%Z Hh value_zero). apply Z.ltb_ge.
  unfold scaled. apply Z.mul_nonneg_nonneg; [lia|].
  apply Z.pow_nonneg. lia.
Qed.

Lemma bracket_positive (n : nat) :
  forall h j z y,
    value h (scaled (Zpos ma + j) ea) -> (0 <= j <= Zpos ma)%Z ->
    (j <= gap_bound n)%Z ->
    bracket L p (S (S n)) a h z y = None ->
    forall fuel, bracket L p fuel a h z y = None.
Proof.
  destruct (bounded_inv _ _ (a_bounded a ma ea a_finite)) as (Hea & _).
  assert (HT : T = 1200%Z) by reflexivity.
  induction n as [|n IH]; intros h j z y Hh Hj Hg Hnone;
    pose proof (bracket_none_neg L p _ _ _ _ _ Hnone) as Hy;
    rewrite bracket_unfold, Hy in Hnone;
    destruct (midpoint_step a ma ea a_finite a_small h j Hh Hj)
      as (j' & Hm & Hj' & Hhalf);
    rewrite (above_a_not_neg _ j' Hm ltac:(lia)) in Hnone;
    (assert (Hstay : j' = j ->
                     forall fuel, bracket L p fuel a h z y = None);
     [ intros ->;
       assert (Em : (a + h) / 2 = h);
       [ apply (value_inj _ _ _ Hm Hh);
         apply scaled_pos; lia |];
       rewrite Em in Hnone;
       pose proof (bracket_stuck L p (a, h, h, y_at L p h)
                     (bracket_none_neg L p _ _ _ _ _ Hnone)) as Hs;
       assert (Hfix : bracket_step L p (a, h, h, y_at L p h)
                      = (a, h, h, y_at L p h));
       [ unfold bracket_step; rewrite Em, (above_a_not_neg h j Hh ltac:(lia));
         reflexivity |];
       specialize (Hs Hfix);
       intros [|fuel]; [simpl; rewrite Hy; reflexivity|];
       rewrite bracket_unfold, Hy, Em, (above_a_not_neg h j Hh ltac:(lia));
       apply (Hs fuel)
     |]).
  - apply Hstay. cbn [gap_bound] in Hg; cbv zeta in Hg. lia.
  - destruct (Z.eq_dec j' j) as [E|E]; [apply Hstay; exact E|].
    assert (Hg' : (j' <= gap_bound n)%Z) by (cbn [gap_bound] in Hg; cbv zeta in Hg; lia).
    pose proof (IH _ j' _ _ Hm ltac:(lia) Hg' Hnone) as Hs.
    intros [|fuel]; [simpl; rewrite Hy; reflexivity|].
    rewrite bracket_unfold, Hy, (above_a_not_neg _ j' Hm ltac:(lia)).
    apply Hs.
Qed.

End PositiveBracket.

Lemma bracket_zero L p a z y :
  a = 0 \/ a = -0 ->
  bracket L p 2 a (a * 2) z y = None ->
  forall fuel, bracket L p fuel a (a * 2) z y = None.
Proof.
  intros Ha Hnone.
  pose proof (bracket_none_neg L p _ _ _ _ _ Hnone) as Hy.
  assert (Em : (a + a * 2) / 2 = a /\ (a + a) / 2 = a /\ (a <? 0) = false)
    by (destruct Ha as [-> | ->]; repeat split; reflexivity).
  destruct Em as (Em & E3 & En).
  rewrite bracket_unfold, Hy, Em, En in Hnone.
  pose proof (bracket_stuck L p (a, a, a, y_at L p a)
                (bracket_none_neg L p _ _ _ _ _ Hnone)) as Hs.
  assert (Hfix : bracket_step L p (a, a, a, y_at L p a) = (a, a, a, y_at L p a))
    by (unfold bracket_step; rewrite E3, En; reflexivity).
  specialize (Hs Hfix).
  intros [|fuel]; [simpl; rewrite Hy; reflexivity|].
  rewrite bracket_unfold, Hy, Em, En. apply (Hs fuel).
Qed.

Lemma gap_bound_57 : (2 ^ 53 <= gap_bound 57)%Z.
Proof. apply Z.leb_le. vm_compute. reflexivity. Qed.

Lemma bracket_nonnegative L p a y :
  clamped a -> (a <? 0) = false ->
  bracket L p 59 a (a * 2) a y = None ->
  forall fuel, bracket L p fuel a (a * 2) a y = None.
Proof.
  intros Hc Hn Hnone.
  destruct (clamped_small _ Hc) as (v & Hv & Hb).
  pose proof (ltb_value a 0 v 0%Z Hv value_zero) as Hlt.
  rewrite Hn in Hlt. symmetry in Hlt. apply Z.ltb_ge in Hlt.
  destruct (Z.eq_dec v 0) as [E|E].
  - subst v. apply bracket_zero; [apply value_zero_inv; exact Hv|].
    destruct (bracket L p 2 _ _ _ _) as [r|] eqn:E2; [|reflexivity].
    rewrite (bracket_fuel_mono L p 2 59 _ _ _ _ r ltac:(lia) E2) in Hnone.
    discriminate.
  - pose proof Hv as Hv'. unfold value in Hv'.
    pose proof (Prim2SF_valid a) as Va.
    destruct (Prim2SF a) as [s|s| |s ma ea] eqn:Ea; try discriminate;
      cbn [sval] in Hv'; inversion Hv' as [Ev]; [lia|].
    cbn [valid_binary] in Va.
    destruct (bounded_inv _ _ Va) as (Hea & Hma & _).
    pose proof (scaled_pos (Zpos ma) ea ltac:(lia) ltac:(unfold T; lia)) as Pa.
    destruct s; [lia|].
    assert (Hd : value (a * 2) (scaled (Zpos ma + Zpos ma) ea)).
    { replace (scaled (Zpos ma + Zpos ma) ea) with (2 * v)%Z
        by (rewrite <- Ev; unfold scaled; ring).
      apply double_value; [exact Hv|].
      apply Z.le_trans with (1 := Hb). apply pow2_le. unfold T. lia. }
    apply (bracket_positive L p a ma ea Ea ltac:(lia) 57 (a * 2) (Zpos ma));
      [exact Hd | lia | pose proof gap_bound_57; lia | exact Hnone].
Qed.

(** *** The fuel that is enough *)

Lemma repair_fuel_enough L p l :
  clamped (lz l) -> pass L p 1100 l = Hang -> forall fuel, pass L p fuel l = Hang.
Proof.
  intros Hc Hh fuel.
  destruct (lz l <? 0) eqn:Hneg;
    [exact (negative_repair_hangs L p l Hc Hneg Hh fuel)|].
  destruct (y_at L p (lz l) <? 0) eqn:Hy.
  - rewrite pass_repair in * by exact Hy. rewrite Hneg in *.
    destruct (bracket L p 1100 _ _ _ _) as [[z1 y1]|] eqn:E; [discriminate|].
    assert (E' : bracket L p 59 (lz l) (lz l * 2) (lz l) (y_at L p (lz l)) = None).
    { destruct (bracket L p 59 _ _ _ _) as [r|] eqn:E'; [|reflexivity].
      rewrite (bracket_fuel_mono L p 59 1100 _ _ _ _ r ltac:(lia) E') in E.
      discriminate. }
    rewrite (bracket_nonnegative L p _ _ Hc Hneg E' fuel). reflexivity.
  - rewrite pass_newton in Hh by exact Hy.
    destruct (abs _ <? tolerance); [discriminate|].
    destruct (1e6 <? _); discriminate.
Qed.

Lemma pass_fuel_enough L p l fuel :
  pass_start L p l -> (1100 <= fuel)%nat ->
  pass L p fuel l = pass L p 1100 l.
Proof.
  intros Hs Hf.
  destruct (pass L p 1100 l) eqn:E;
    try (rewrite <- E; apply pass_fuel_mono; [exact Hf | rewrite E; discriminate]).
  destruct Hs as [Hc|[_ Hy]].
  - apply repair_fuel_enough; assumption.
  - rewrite pass_newton in E by exact Hy.
    destruct (abs _ <? tolerance); [discriminate|].
    destruct (1e6 <? _); discriminate.
Qed.

Lemma loop_fuel_enough L p fuel budget l :
  pass_start L p l -> (1100 <= fuel)%nat ->
  loop L p fuel budget l = loop L p 1100 budget l.
Proof.
  intros Hs Hf. revert l Hs.
  induction budget as [|b IH]; intros l Hs; [reflexivity|].
  rewrite !loop_unfold, (pass_fuel_enough L p l fuel Hs Hf).
  pose proof (pass_start_preserved L p 1100 l Hs) as Hp.
  destruct (pass L p 1100 l); try reflexivity; apply IH; exact Hp.
Qed.

Lemma solve_fuel_mono L mu_ fuel fuel' r1 r2 tof_ is_prograde :
  (fuel <= fuel')%nat ->
  solve L mu_ fuel r1 r2 tof_ is_prograde <> NoFuel ->
  solve L mu_ fuel' r1 r2 tof_ is_prograde
  = solve L mu_ fuel r1 r2 tof_ is_prograde.
Proof.
  intros Hle. unfold solve.
  destruct ((norm r1 =? 0) || (norm r2 =? 0)); [reflexivity|].
  destruct (A _ =? 0); [reflexivity|].
  intros Hn.
  rewrite (loop_fuel_mono L _ fuel fuel' _ _ Hle); [reflexivity|].
  intros E. rewrite E in Hn. apply Hn. reflexivity.
Qed.

(** X21.  The bracketing repair, started from a [z] in the search interval,
    either exits within 1100 iterations of the inner loop or never exits:
    after at most 1081 halvings towards zero (for [z < 0]) or 58 bisections
    towards [z] (otherwise) the bracket no longer moves. *)
Theorem repair_hangs_or_exits L p l :
  clamped (lz l) ->
  pass L p 1100 l = Hang ->
  forall fuel, pass L p fuel l = Hang.
Proof. exact (repair_fuel_enough L p l). Qed.

Lemma repair_hangs_or_exits_witness :
  pass SampleLibm.libm
       (problem_of Inputs.mu_earth Inputs.near_r1 Inputs.near_r2 3600 true) 5000
       {| lz := z_low; ly := Some nan; lF := Some nan; iteration := 1 |}
  = Hang.
Proof.
  apply (repair_hangs_or_exits SampleLibm.libm
           (problem_of Inputs.mu_earth Inputs.near_r1 Inputs.near_r2 3600 true)
           {| lz := z_low; ly := Some nan; lF := Some nan; iteration := 1 |}).
  - split; reflexivity.
  - vm_compute. reflexivity.
Defined.

(** X22.  1100 iterations are enough for every inner loop that ends: with
    1100 units of fuel or more the outcome of the model no longer depends on
    the fuel, and a call that runs out of 1100 units runs out of any
    amount.  So [solve] terminates exactly when the model, given 1100 units,
    does not end with [NoFuel]. *)
Theorem fuel_suffices L mu_ r1 r2 tof_ is_prograde :
  (forall fuel,
      (1100 <= fuel)%nat ->
      solve L mu_ fuel r1 r2 tof_ is_prograde
      = solve L mu_ 1100 r1 r2 tof_ is_prograde)
  /\ (solve L mu_ 1100 r1 r2 tof_ is_prograde = NoFuel ->
      forall fuel, solve L mu_ fuel r1 r2 tof_ is_prograde = NoFuel)
  /\ (forall fuel,
        solve L mu_ fuel r1 r2 tof_ is_prograde <> NoFuel ->
        solve L mu_ 1100 r1 r2 tof_ is_prograde
        = solve L mu_ fuel r1 r2 tof_ is_prograde).
Proof.
  assert (H1 : forall fuel,
             (1100 <= fuel)%nat ->
             solve L mu_ fuel r1 r2 tof_ is_prograde
             = solve L mu_ 1100 r1 r2 tof_ is_prograde).
  { intros fuel Hf. unfold solve.
    destruct ((norm r1 =? 0) || (norm r2 =? 0)); [reflexivity|].
    destruct (A _ =? 0); [reflexivity|].
    rewrite (loop_fuel_enough L _ fuel _ _
               (initial_pass_start L _ r1 r2 is_prograde) Hf).
    reflexivity. }
  assert (H3 : forall fuel,
             solve L mu_ fuel r1 r2 tof_ is_prograde <> NoFuel ->
             solve L mu_ 1100 r1 r2 tof_ is_prograde
             = solve L mu_ fuel r1 r2 tof_ is_prograde).
  { intros fuel Hn. destruct (Nat.le_gt_cases fuel 1100) as [Hle|Hgt].
    - apply solve_fuel_mono; assumption.
    - symmetry. apply H1. lia. }
  split; [exact H1|]. split; [|exact H3].
  intros Hh fuel.
  destruct (solve L mu_ fuel r1 r2 tof_ is_prograde) eqn:E; try reflexivity;
    rewrite (H3 fuel) in Hh by (rewrite E; discriminate);
    rewrite E in Hh; discriminate.
Qed.

(** ** The test program *)

Module TestFacts.

Import Tests.

Lemma is_finite_spec a :
  is_finite a
  = match Prim2SF a with S754_nan | S754_infinity _ => false | _ => true end.
Proof.
  unfold is_finite, is_nan, is_infinity.
  rewrite !FloatAxioms.eqb_spec, abs_spec. change (Prim2SF infinity) with (S754_infinity false).
  unfold SFeqb.
  destruct (Prim2SF a) as [s|s| |s m e]; try reflexivity.
  - destruct s; reflexivity.
  - simpl. rewrite Z.compare_refl.
    change (Pos.compare_cont Eq m m) with (Pos.compare m m).
    rewrite Pos.compare_refl. destruct s; reflexivity.
Qed.

Lemma sub_self_finite a : a - a = if is_finite a then 0 else nan.
Proof.
  rewrite is_finite_spec. apply Prim2SF_inj. rewrite sub_spec. unfold SF64sub.
  destruct (Prim2SF a) as [[]|[]| |s m e]; try reflexivity.
  cbn [SFsub]. rewrite Z.sub_diag. reflexivity.
Qed.

Lemma abs_self_ltb a t : (abs (a - a) <? t) = is_finite a && (0 <? t).
Proof.
  rewrite sub_self_finite. destruct (is_finite a); [reflexivity|].
  change (abs nan) with nan. apply NaN.ltb_l.
Qed.

(** A magnitude is below positive numbers only. *)
Lemma abs_ltb_positive a t : (abs a <? t) = true -> (0 <? t) = true.
Proof.
  rewrite !ltb_spec, abs_spec. change (Prim2SF 0) with (S754_zero false).
  destruct (Prim2SF a) as [s|s| |s m e], (Prim2SF t) as [[]|[]| |[] m' e'];
    try discriminate; reflexivity.
Qed.

Lemma run_tests_count L mu_ fuel ts passed n :
  run_tests L mu_ fuel ts passed = Some n ->
  (passed <= n <= passed + length ts)%nat
  /\ (n = (passed + length ts)%nat
      <-> Forall (fun t => run_test L mu_ fuel t = Some true) ts).
Proof.
  revert passed; induction ts as [|t ts IH]; intros passed; simpl.
  - intros H; inversion H; subst. split; [lia|]. split; [constructor|lia].
  - destruct (run_test L mu_ fuel t) as [[]|] eqn:E; [| |discriminate];
      intros H; apply IH in H; destruct H as [Hb Hi]; (split; [lia|]).
    + rewrite <- Nat.add_succ_comm. rewrite Hi. split.
      * intros HF; constructor; assumption.
      * intros HF; inversion HF; assumption.
    + split; [lia|]. intros HF; inversion HF; congruence.
Qed.

End TestFacts.

Import Tests TestFacts.

(** X16.  [compare_vectors] is symmetric in the two vectors. *)
Theorem compare_vectors_symmetric a b tolerance :
  compare_vectors a b tolerance = compare_vectors b a tolerance.
Proof.
  unfold compare_vectors.
  rewrite (abs_sub_swap (x a)), (abs_sub_swap (y a)), (abs_sub_swap (z a)).
  reflexivity.
Qed.

(** X17.  [compare_vectors] is false whenever the tolerance is not positive
    (zero, negative or NaN), and whenever a coordinate of either vector is
    NaN. *)
Theorem compare_vectors_rejects a b tolerance :
  ((0 <? tolerance) = false -> compare_vectors a b tolerance = false)
  /\ (has_nan a \/ has_nan b -> compare_vectors a b tolerance = false).
Proof.
  unfold compare_vectors. split.
  - intros H.
    destruct (abs (x a - x b) <? tolerance) eqn:E; [|reflexivity].
    apply abs_ltb_positive in E. congruence.
  - intros [[H|[H|H]]|[H|[H|H]]]; rewrite H; autorewrite with nan;
      rewrite ?andb_false_r; reflexivity.
Qed.

(** X18.  A vector compares equal to itself exactly when the tolerance is
    positive and its three coordinates are finite: an infinite coordinate
    makes the difference NaN. *)
Theorem compare_vectors_self a tolerance :
  compare_vectors a a tolerance
  = (0 <? tolerance) && is_finite (x a) && is_finite (y a) && is_finite (z a).
Proof.
  unfold compare_vectors. rewrite !abs_self_ltb.
  destruct (0 <? tolerance), (is_finite (x a)), (is_finite (y a)),
    (is_finite (z a)); reflexivity.
Qed.

(** X19.  [run_test] returns [true] exactly when [solve] returns a pair and
    either the three coordinates of [expected_v1] are zero (nothing is then
    compared, and [expected_v2] is not looked at) or both velocities match
    the expected ones within [1e-3]; it returns [false] whenever [solve]
    throws. *)
Theorem run_test_passes L mu_ fuel test :
  (run_test L mu_ fuel test = Some true <->
   exists v1 v2,
     solve L mu_ fuel (r1 test) (r2 test) (delta_t test) (is_prograde test)
     = Return (v1, v2)
     /\ (((x (expected_v1 test) =? 0) && (y (expected_v1 test) =? 0)
          && (z (expected_v1 test) =? 0)) = true
         \/ (compare_vectors v1 (expected_v1 test) 1e-3
             && compare_vectors v2 (expected_v2 test) 1e-3) = true))
  /\ (forall e,
        solve L mu_ fuel (r1 test) (r2 test) (delta_t test) (is_prograde test)
        = Throw e ->
        run_test L mu_ fuel test = Some false).
Proof.
  unfold run_test, nonzero, default_tolerance. split.
  - destruct (solve L mu_ fuel _ _ _ _) as [[v1 v2]|e|].
    + cbn [fst snd].
      destruct (x (expected_v1 test) =? 0), (y (expected_v1 test) =? 0),
        (z (expected_v1 test) =? 0); cbn [negb orb andb];
        try (split; [intros _; exists v1, v2; auto
                    | reflexivity]);
        (destruct (compare_vectors v1 _ _ && compare_vectors v2 _ _) eqn:E;
         split;
         [ intros _; exists v1, v2; auto
         | reflexivity
         | discriminate
         | intros (w1 & w2 & Hw & [Hz|Hc]); [discriminate|];
           inversion Hw; subst; congruence ]).
    + split; [discriminate | intros (v1 & v2 & H & _); discriminate].
    + split; [discriminate | intros (v1 & v2 & H & _); discriminate].
  - intros e ->. reflexivity.
Qed.

(** X20.  The exit status of the test program is 0 exactly when every test
    case passed, and otherwise 1; the count of passed cases never exceeds
    the number of cases. *)
Theorem main_exit_status L fuel :
  (main L fuel = Some 0%Z
   <-> Forall (fun t => run_test L 398600.4418 fuel t = Some true) tests)
  /\ (forall c, main L fuel = Some c -> c = 0%Z \/ c = 1%Z)
  /\ (forall passed,
        run_tests L 398600.4418 fuel tests 0 = Some passed ->
        (passed <= length tests)%nat).
Proof.
  unfold main. split; [|split].
  - destruct (run_tests L 398600.4418 fuel tests 0) as [n|] eqn:E.
    + destruct (run_tests_count _ _ _ _ _ _ E) as [Hb Hi]. cbn [Nat.add] in Hi.
      rewrite <- Hi.
      destruct (Nat.eqb_spec n (length tests)); split; congruence.
    + split; [discriminate|]. intros HF. exfalso.
      revert E. generalize 0%nat. induction HF as [|t ts Ht _ IH]; simpl.
      * discriminate.
      * rewrite Ht. intros n. apply IH.
  - intros c. destruct (run_tests L 398600.4418 fuel tests 0); [|discriminate].
    destruct (Nat.eqb _ _); intros H; inversion H; auto.
  - intros passed E. apply run_tests_count in E. simpl in *. lia.
Qed.
